(** * czSignature: the stroke geometry engine

    A shallow embedding of the signature component (czSignature.js): point
    simplification, width modulation, the SVG outline builder and the stroke
    collection operations [undo] and [fromData].  The definitions follow
    revision 1.1, which adds pressure and serialization; the functions of the
    first revision that differ from it are in the module [V1_0].

    Numbers.  JavaScript numbers are read as real numbers: [+], [-], [*],
    [Math.min], [Math.max] and [Math.hypot] are the operations of [R], and so
    is [/] by a divisor that is not zero.  A value that is not a number
    ([NaN], the result of arithmetic on an absent field) is kept apart in
    [jsnum].  Where the source divides by a length that can be zero, or
    starts from [Infinity], its numbers are those of [Ext]: the reals, the
    two infinities and [NaN].  The smoothing stage divides by the fade
    length: what is stated of the points it computes is stated for a fade
    length other than 0.  Rounding is left out; the one statement that rests
    on it is made on the binary64 numbers of [Binary64].  Timestamps come
    from [Date.now()] and are integers.

    Failure.  A function whose source reads array elements returns [option]:
    [None] stands for the abrupt completion of the call (the [TypeError] of a
    field read on [undefined]).  The theorems show that the loops of the
    source never reach it. *)

From Stdlib Require Import String Reals Lra Lia ZArith Bool List.
From Stdlib Require Floats.
Import ListNotations.

Open Scope R_scope.

(** ** Numbers *)

(** A JavaScript number that may be [NaN]. *)
Inductive jsnum : Type :=
| Num (r : R)
| NaN.

(** [Math.hypot(a, b)]. *)
Definition hypot (a b : R) : R := sqrt (a * a + b * b).

(** [a || b] on numbers: [a] when it is truthy (not zero), otherwise [b]. *)
Definition or_else (a b : R) : R :=
  if Req_dec_T a 0 then b else a.

(** ** The error monad of array reads *)

Definition bind {A B : Type} (m : option A) (k : A -> option B) : option B :=
  match m with
  | Some a => k a
  | None => None
  end.

Declare Scope js_scope.
Delimit Scope js_scope with js.
Notation "'let*' p ':=' m 'in' k" :=
  (bind m (fun p => k))
  (at level 10, p pattern, m at level 100, k at level 200) : js_scope.
Open Scope js_scope.

(** [a[i]] followed by a field read: fails when [i] is out of range. *)
Definition at_index {A : Type} (a : list A) (i : nat) : option A :=
  nth_error a i.

(** [for (let i = lo; i < hi; i++) body]: [for_from] runs [fuel] iterations
    starting at index [i], threading the loop state. *)
Fixpoint for_from {S : Type} (fuel i : nat)
    (body : nat -> S -> option S) (s : S) : option S :=
  match fuel with
  | O => Some s
  | Datatypes.S fuel' =>
      match body i s with
      | Some s' => for_from fuel' (Datatypes.S i) body s'
      | None => None
      end
  end.

Definition for_loop {S : Type} (lo hi : nat)
    (body : nat -> S -> option S) (s : S) : option S :=
  for_from (hi - lo) lo body s.

(** [for (let i = hi; i >= 0; i--) body]: the indices [hi], ..., [0];
    [for_down n] runs the indices [n-1], ..., [0]. *)
Fixpoint for_down {S : Type} (n : nat)
    (body : nat -> S -> option S) (s : S) : option S :=
  match n with
  | O => Some s
  | Datatypes.S i =>
      match body i s with
      | Some s' => for_down i body s'
      | None => None
      end
  end.

(** ** Data model *)

Record Point : Type := mkPoint {
  x : R;
  y : R;
  time : Z;
  pressure : option R   (* absent on points that carry no pressure *)
}.

Inductive SmoothingMode : Type := post | live.

Record Options : Type := mkOptions {
  penColor : string;
  backgroundColor : string;
  minWidth : R;
  maxWidth : R;
  velocityFilterWeight : R;
  dotSize : R;
  minDistance : R;
  smoothingRatio : R;
  smoothingFadePoints : R;
  smoothingMode : SmoothingMode;
  pressureSupport : bool
}.

(** The defaults of [_options]. *)
Definition defaultOptions : Options := {|
  penColor := "#000000";
  backgroundColor := "#ffffff";
  minWidth := 5 / 10;
  maxWidth := 25 / 10;
  velocityFilterWeight := 7 / 10;
  dotSize := 2;
  minDistance := 8 / 10;
  smoothingRatio := 5 / 10;
  smoothingFadePoints := 4;
  smoothingMode := post;
  pressureSupport := false
|}.

Record Stroke : Type := mkStroke {
  points : list Point;
  color : string;
  strokeMinWidth : R;
  strokeMaxWidth : R
}.

(** ** Point Simplifier: [#simplifyStroke] *)

Section Simplify.

Variable options : Options.

(** Body of the distance-filter loop; the state is
    [(simplifiedPoints, lastPoint)]. *)
Definition filterBody (pts : list Point) (i : nat)
    (st : list Point * Point) : option (list Point * Point) :=
  let '(simplifiedPoints, lastPoint) := st in
  let* pi := at_index pts i in
  let distance := hypot (x pi - x lastPoint) (y pi - y lastPoint) in
  if Rgt_dec distance (minDistance options)
  then Some (simplifiedPoints ++ [pi], pi)
  else Some (simplifiedPoints, lastPoint).

(** Body of the smoothing loop; the state is [smoothedPoints].  The two
    quotients by [fadeLength] are those of the source when [fadeLength] is
    not 0. *)
Definition smoothBody (simplifiedPoints : list Point) (i : nat)
    (smoothedPoints : list Point) : option (list Point) :=
  let fadeLength := smoothingFadePoints options in
  let* prev := at_index simplifiedPoints (i - 1) in
  let* current := at_index simplifiedPoints i in
  let* next := at_index simplifiedPoints (i + 1) in
  let fadeInRatio := Rmin 1 (INR i / fadeLength) in
  let fadeOutRatio :=
    Rmin 1 (IZR (Z.of_nat (length simplifiedPoints) - 2 - Z.of_nat i)
            / fadeLength) in
  let dynamicRatio := smoothingRatio options * Rmin fadeInRatio fadeOutRatio in
  let smoothedX :=
    x current * (1 - dynamicRatio) + (x prev + x next) / 2 * dynamicRatio in
  let smoothedY :=
    y current * (1 - dynamicRatio) + (y prev + y next) / 2 * dynamicRatio in
  Some (smoothedPoints ++
        [ {| x := smoothedX; y := smoothedY;
             time := time current; pressure := pressure current |} ]).

Definition simplifyStroke (pts : list Point) : option (list Point) :=
  if (length pts <? 3)%nat then Some pts else
  let* p0 := at_index pts 0 in
  let* st := for_loop 1 (length pts) (filterBody pts) ([p0], p0) in
  let simplifiedPoints := fst st in
  if (length simplifiedPoints <? 3)%nat then Some simplifiedPoints else
  let* s0 := at_index simplifiedPoints 0 in
  let* smoothedPoints :=
    for_loop 1 (length simplifiedPoints - 1)
             (smoothBody simplifiedPoints) [s0] in
  let* sl := at_index simplifiedPoints (length simplifiedPoints - 1) in
  Some (smoothedPoints ++ [sl]).

End Simplify.

(** ** Width Modulator: [#calculateWidths] *)

Section Widths.

Variable options : Options.

(** [p.pressure > 0 && p.pressure < 1]; a comparison with an absent pressure
    is false. *)
Definition pressureBetween (p : Point) : bool :=
  match pressure p with
  | Some pr =>
      if Rgt_dec pr 0 then (if Rlt_dec pr 1 then true else false) else false
  | None => false
  end.

(** [this.options.pressureSupport && points.some(...)]. *)
Definition usePressure (pts : list Point) : bool :=
  pressureSupport options && existsb pressureBetween pts.

(** The inner block that sets [velocity] at iteration [i].  The quotient
    operator [quot] is a parameter, so that the theorems can tell which
    quotients the loop takes; the source has [quot = Rdiv]. *)
Definition instantVelocity (quot : R -> R -> R) (pts : list Point) (i : nat)
    (lastVelocity : R) : option R :=
  if (0 <? i)%nat then
    let* pi := at_index pts i in
    let* pj := at_index pts (i - 1) in
    let distance := hypot (x pi - x pj) (y pi - y pj) in
    let dt := (time pi - time pj)%Z in
    Some (if (0 <? dt)%Z then quot distance (IZR dt) else lastVelocity)
  else Some 0.

(** Body of the loop; the state is [(widths, lastVelocity)]. *)
Definition widthBody (quot : R -> R -> R) (pts : list Point)
    (minW maxW : R) (useP : bool) (i : nat)
    (st : list jsnum * R) : option (list jsnum * R) :=
  let '(widths, lastVelocity) := st in
  if useP then
    let* pi := at_index pts i in
    let width :=
      match pressure pi with
      | Some pr => Num (minW + (maxW - minW) * pr)
      | None => NaN
      end in
    Some (widths ++ [width], lastVelocity)
  else
    let* velocity := instantVelocity quot pts i lastVelocity in
    let lastVelocity' :=
      velocity * (1 - velocityFilterWeight options)
      + lastVelocity * velocityFilterWeight options in
    let width := Rmax minW (Rmin maxW (maxW - lastVelocity' * (15 / 10))) in
    Some (widths ++ [Num width], lastVelocity').

Definition calculateWidthsWith (quot : R -> R -> R) (pts : list Point)
    (minW maxW : R) : option (list jsnum) :=
  let useP := usePressure pts in
  let* st := for_loop 0 (length pts)
                      (widthBody quot pts minW maxW useP) ([], 0) in
  Some (fst st).

Definition calculateWidths (pts : list Point) (minW maxW : R)
    : option (list jsnum) :=
  calculateWidthsWith Rdiv pts minW maxW.

End Widths.

(** ** The pressure formula in floating point

    The numbers of the engine are binary64 floating-point numbers.  Where a
    property depends on how a sum is rounded, the line of the source is
    transcribed over them. *)

Module Binary64.

Import PrimFloat.





End Binary64.

(** ** Numbers with infinities

    The bounding box starts from [Infinity] and [-Infinity], and a quotient
    by zero is [Infinity], [-Infinity] or [NaN]: these numbers are reals, the
    two infinities, or [NaN]. *)

Module Ext.

Inductive xnum : Type :=
| Fin (r : R)
| PosInf
| NegInf
| Nan.

Definition of_jsnum (n : jsnum) : xnum :=
  match n with
  | Num r => Fin r
  | NaN => Nan
  end.

(** [Math.min(a, b)]. *)
Definition xmin (a b : xnum) : xnum :=
  match a, b with
  | Nan, _ | _, Nan => Nan
  | NegInf, _ | _, NegInf => NegInf
  | PosInf, v | v, PosInf => v
  | Fin r, Fin s => Fin (Rmin r s)
  end.

(** [Math.max(a, b)]. *)
Definition xmax (a b : xnum) : xnum :=
  match a, b with
  | Nan, _ | _, Nan => Nan
  | PosInf, _ | _, PosInf => PosInf
  | NegInf, v | v, NegInf => v
  | Fin r, Fin s => Fin (Rmax r s)
  end.

(** [a + b]. *)
Definition xadd (a b : xnum) : xnum :=
  match a, b with
  | Nan, _ | _, Nan => Nan
  | PosInf, NegInf | NegInf, PosInf => Nan
  | PosInf, _ | _, PosInf => PosInf
  | NegInf, _ | _, NegInf => NegInf
  | Fin r, Fin s => Fin (r + s)
  end.

(** [a - b]. *)
Definition xsub (a b : xnum) : xnum :=
  match a, b with
  | Nan, _ | _, Nan => Nan
  | PosInf, PosInf | NegInf, NegInf => Nan
  | PosInf, _ | _, NegInf => PosInf
  | NegInf, _ | _, PosInf => NegInf
  | Fin r, Fin s => Fin (r - s)
  end.

(** [a * b]: an infinity times zero is [NaN]. *)
Definition xmul (a b : xnum) : xnum :=
  match a, b with
  | Nan, _ | _, Nan => Nan
  | Fin r, Fin s => Fin (r * s)
  | Fin r, PosInf | PosInf, Fin r =>
      if Rlt_dec 0 r then PosInf else if Rlt_dec r 0 then NegInf else Nan
  | Fin r, NegInf | NegInf, Fin r =>
      if Rlt_dec 0 r then NegInf else if Rlt_dec r 0 then PosInf else Nan
  | PosInf, PosInf | NegInf, NegInf => PosInf
  | PosInf, NegInf | NegInf, PosInf => NegInf
  end.

(** [a / 2]. *)
Definition xhalf (a : xnum) : xnum :=
  match a with
  | Fin r => Fin (r / 2)
  | v => v
  end.

(** [a / b] for two numbers whose divisor, when it is zero, is the positive
    zero (a length, the result of [Math.hypot], or an option set to [0]):
    the quotient by zero is an infinity of the sign of [a], and [0 / 0] is
    [NaN]. *)
Definition xquot (a b : R) : xnum :=
  if Req_dec_T b 0 then
    if Rlt_dec 0 a then PosInf else if Rlt_dec a 0 then NegInf else Nan
  else Fin (a / b).

(** [a <= b] between numbers; false when either is [NaN]. *)
Definition xle (a b : xnum) : Prop :=
  match a, b with
  | Nan, _ | _, Nan => False
  | NegInf, _ | _, PosInf => True
  | Fin r, Fin s => r <= s
  | _, _ => False
  end.

End Ext.

(** ** The smoothing step with its quotients

    The lines of the smoothing loop that compute the ratio and a smoothed
    coordinate, on the numbers of [Ext]: the fade length divides, and it
    can be zero. *)

Section SmoothingStep.

Variable options : Options.

(** [this.options.smoothingRatio * Math.min(fadeInRatio, fadeOutRatio)] at
    the index [i] of [N] filtered points. *)
Definition dynamicRatio (N i : nat) : Ext.xnum :=
  let fadeLength := smoothingFadePoints options in
  let fadeInRatio := Ext.xmin (Ext.Fin 1) (Ext.xquot (INR i) fadeLength) in
  let fadeOutRatio :=
    Ext.xmin (Ext.Fin 1)
             (Ext.xquot (IZR (Z.of_nat N - 2 - Z.of_nat i)) fadeLength) in
  Ext.xmul (Ext.Fin (smoothingRatio options))
           (Ext.xmin fadeInRatio fadeOutRatio).

(** [current * (1 - dynamicRatio) + (prev + next) / 2 * dynamicRatio], for
    one coordinate. *)
Definition smoothed (ratio : Ext.xnum) (prev current next : R) : Ext.xnum :=
  Ext.xadd (Ext.xmul (Ext.Fin current) (Ext.xsub (Ext.Fin 1) ratio))
           (Ext.xmul (Ext.Fin ((prev + next) / 2)) ratio).

End SmoothingStep.

(** ** Outline Path Builder: [#generateSmoothSvgPathData] *)

(** [floor (r + 1/2)]: the nearest integer, the larger one on a tie. *)
Definition round_half_up (r : R) : Z := (up (r + 1 / 2) - 1)%Z.

(** [v.toFixed(2)], kept as the number of hundredths it prints: the magnitude
    is rounded to the nearest hundredth (the larger one on a tie) and the sign
    put back. *)
Definition toFixed2 (v : R) : Z :=
  if Rlt_dec v 0 then (- round_half_up (- v * 100))%Z
  else round_half_up (v * 100).

(** A number as it is written into the path text. *)
Inductive PathNum : Type :=
| Fixed (hundredths : Z)   (* [v.toFixed(2)] *)
| Plain (r : R)            (* [${r}] *)
| Minus (r : R)            (* [-${r}]: a minus sign before the text of [r] *)
| Word (text : string).    (* [v.toFixed(2)] of a [v] that is not finite *)

(** The commands of the path text, in the order they are appended. *)
Inductive PathCmd : Type :=
| MoveTo (px py : PathNum)                                  (* M x,y *)
| MoveBy (dx dy : PathNum)                                  (* m dx,dy *)
| ArcTo (rx ry : PathNum) (rot : Z) (largeArc sweep : bool)
        (px py : PathNum)                                   (* A rx,ry rot f f x,y *)
| ArcBy (rx ry : PathNum) (rot : Z) (largeArc sweep : bool)
        (dx dy : PathNum)                                   (* a rx,ry rot f,f dx,dy *)
| QuadTo (cx cy px py : PathNum)                            (* Q cx,cy x,y *)
| LineTo (px py : PathNum)                                  (* L x,y *)
| ClosePath.                                                (* Z *)

(** [v.toFixed(2)] of a number that may not be finite. *)
Definition toFixedText (v : Ext.xnum) : PathNum :=
  match v with
  | Ext.Fin r => Fixed (toFixed2 r)
  | Ext.PosInf => Word "Infinity"
  | Ext.NegInf => Word "-Infinity"
  | Ext.Nan => Word "NaN"
  end.

(** [widths[i] / 2]: not a number when the width is missing or [NaN]. *)
Definition halfWidthOf (widths : list jsnum) (i : nat) : Ext.xnum :=
  match nth_error widths i with
  | Some (Num w) => Ext.Fin (w / 2)
  | _ => Ext.Nan
  end.

Definition fixedXY (p : Ext.xnum * Ext.xnum) : PathNum * PathNum :=
  (toFixedText (fst p), toFixedText (snd p)).

(** An outline point whose two coordinates are real numbers. *)
Definition finite (p : R * R) : Ext.xnum * Ext.xnum :=
  (Ext.Fin (fst p), Ext.Fin (snd p)).

Section Outline.

Variable options : Options.

(** Body of the first loop; the state is [(outline1, outline2)]. *)
Definition outlineBody (pts : list Point) (widths : list jsnum) (i : nat)
    (st : list (Ext.xnum * Ext.xnum) * list (Ext.xnum * Ext.xnum))
    : option (list (Ext.xnum * Ext.xnum) * list (Ext.xnum * Ext.xnum)) :=
  let '(outline1, outline2) := st in
  let* p := at_index pts i in
  let* nextP :=
    if (i <? length pts - 1)%nat then at_index pts (i + 1) else Some p in
  let* prevP := if (0 <? i)%nat then at_index pts (i - 1) else Some p in
  let tangent :=
    if (i =? 0)%nat then (x nextP - x p, y nextP - y p)
    else if (i =? length pts - 1)%nat then (x p - x prevP, y p - y prevP)
    else ((x nextP - x prevP) / 2, (y nextP - y prevP) / 2) in
  let tangentX := fst tangent in
  let tangentY := snd tangent in
  let len := or_else (hypot tangentX tangentY) 1 in
  let normal := (Ext.xquot (- tangentY) len, Ext.xquot tangentX len) in
  let halfWidth := halfWidthOf widths i in
  Some (outline1 ++
        [(Ext.xadd (Ext.Fin (x p)) (Ext.xmul (fst normal) halfWidth),
          Ext.xadd (Ext.Fin (y p)) (Ext.xmul (snd normal) halfWidth))],
        outline2 ++
        [(Ext.xsub (Ext.Fin (x p)) (Ext.xmul (fst normal) halfWidth),
          Ext.xsub (Ext.Fin (y p)) (Ext.xmul (snd normal) halfWidth))]).

(** Body of the two stitching loops: a quadratic curve with control point
    [from[i1]] ending at the midpoint of [from[i1]] and [from[i2]]. *)
Definition quadBody (outline : list (Ext.xnum * Ext.xnum)) (i1 i2 : nat)
    (pathData : list PathCmd) : option (list PathCmd) :=
  let* p1 := at_index outline i1 in
  let* p2 := at_index outline i2 in
  let midX := Ext.xhalf (Ext.xadd (fst p1) (fst p2)) in
  let midY := Ext.xhalf (Ext.xadd (snd p1) (snd p2)) in
  Some (pathData ++
        [QuadTo (toFixedText (fst p1)) (toFixedText (snd p1))
                (toFixedText midX) (toFixedText midY)]).

Definition generateSmoothSvgPathData (pts : list Point) (widths : list jsnum)
    : option (list PathCmd) :=
  if (length pts <? 2)%nat then
    if (length pts =? 1)%nat then
      let r := or_else (maxWidth options) (dotSize options) / 2 in
      let* p0 := at_index pts 0 in
      Some [MoveTo (Fixed (toFixed2 (x p0))) (Fixed (toFixed2 (y p0)));
            MoveBy (Minus r) (Plain 0);
            ArcBy (Plain r) (Plain r) 0 true false (Plain (r * 2)) (Plain 0);
            ArcBy (Plain r) (Plain r) 0 true false (Minus (r * 2)) (Plain 0)]
    else Some []
  else
  let* st := for_loop 0 (length pts) (outlineBody pts widths) ([], []) in
  let outline1 := fst st in
  let outline2 := snd st in
  let startCapRadius := toFixedText (halfWidthOf widths 0) in
  let* a0 := at_index outline1 0 in
  let pathData := [MoveTo (fst (fixedXY a0)) (snd (fixedXY a0))] in
  let* b0 := at_index outline2 0 in
  let pathData :=
    pathData ++ [ArcTo startCapRadius startCapRadius 0 false true
                       (fst (fixedXY b0)) (snd (fixedXY b0))] in
  let* pathData :=
    for_loop 0 (length outline2 - 1)
             (fun i => quadBody outline2 i (i + 1)) pathData in
  let* bl := at_index outline2 (length outline2 - 1) in
  let pathData := pathData ++ [LineTo (fst (fixedXY bl)) (snd (fixedXY bl))] in
  let endCapRadius := toFixedText (halfWidthOf widths (length widths - 1)) in
  let* al := at_index outline1 (length outline1 - 1) in
  let pathData :=
    pathData ++ [ArcTo endCapRadius endCapRadius 0 false true
                       (fst (fixedXY al)) (snd (fixedXY al))] in
  let* pathData :=
    for_down (length outline1 - 1)
             (fun i => quadBody outline1 (i + 1) i) pathData in
  Some (pathData ++ [ClosePath]).

End Outline.

(** ** The component: stroke collection, canvas and events *)

(** A request made to the 2D context during a redraw. *)
Inductive Paint : Type :=
| FillBackground (fillStyle : string)
| DrawStroke (pts : list Point) (strokeColor : string) (minW maxW : R).

(** [#emit(eventName, data)]. *)
Inductive Event : Type :=
| EvClear
| EvUndo (strokesLeft : nat)
| EvLoad (strokeCount : nat).

(** The private fields of the component, its options, and the three things it
    writes to: the canvas, its listeners and the console. *)
Record State : Type := mkState {
  options : Options;
  isDrawing : bool;
  currentStroke : list Point;
  allStrokes : list Stroke;
  drawing : bool;
  surface : list Paint;      (* requests made to the context, oldest first *)
  emitted : list Event;      (* events handed to the listeners, oldest first *)
  console : list string      (* lines written by console.error *)
}.

(** The argument of [fromData]: any JavaScript value.  An array is taken
    to hold strokes; an array of anything else, on which the redraw that
    follows the load ends abruptly, is not among these values. *)
Inductive JsValue : Type :=
| JsUndefined
| JsNull
| JsBoolean (b : bool)
| JsNumber (n : jsnum)
| JsString (s : string)
| JsObject
| JsArray (elements : list Stroke).

Definition isArray (v : JsValue) : option (list Stroke) :=
  match v with
  | JsArray elements => Some elements
  | _ => None
  end.

Definition emit (e : Event) (st : State) : State :=
  {| options := options st; isDrawing := isDrawing st;
     currentStroke := currentStroke st; allStrokes := allStrokes st;
     drawing := drawing st; surface := surface st;
     emitted := emitted st ++ [e]; console := console st |}.

Definition paint (ps : list Paint) (st : State) : State :=
  {| options := options st; isDrawing := isDrawing st;
     currentStroke := currentStroke st; allStrokes := allStrokes st;
     drawing := drawing st; surface := surface st ++ ps;
     emitted := emitted st; console := console st |}.

Definition setAllStrokes (strokes : list Stroke) (st : State) : State :=
  {| options := options st; isDrawing := isDrawing st;
     currentStroke := currentStroke st; allStrokes := strokes;
     drawing := drawing st; surface := surface st;
     emitted := emitted st; console := console st |}.

Definition console_error (line : string) (st : State) : State :=
  {| options := options st; isDrawing := isDrawing st;
     currentStroke := currentStroke st; allStrokes := allStrokes st;
     drawing := drawing st; surface := surface st;
     emitted := emitted st; console := console st ++ [line] |}.

Definition resetState (st : State) : State :=
  {| options := options st; isDrawing := false;
     currentStroke := []; allStrokes := [];
     drawing := false; surface := surface st;
     emitted := emitted st; console := console st |}.

Definition isLive (m : SmoothingMode) : bool :=
  match m with live => true | post => false end.

(** [#redrawCanvas()]: the background, every stored stroke, and the gesture
    in progress.  Painting one stroke is one request here; the calls that
    [#drawStroke] makes for it are those of [Raster.drawStroke]. *)
Definition redrawCanvas (st : State) : option State :=
  let background := [FillBackground (backgroundColor (options st))] in
  let strokes :=
    map (fun s => DrawStroke (points s) (color s)
                             (strokeMinWidth s) (strokeMaxWidth s))
        (allStrokes st) in
  if isDrawing st && (0 <? length (currentStroke st))%nat then
    let* strokeToDraw :=
      if isLive (smoothingMode (options st))
         && (1 <? length (currentStroke st))%nat
      then simplifyStroke (options st) (currentStroke st)
      else Some (currentStroke st) in
    Some (paint (background ++ strokes ++
                 [DrawStroke strokeToDraw (penColor (options st))
                             (minWidth (options st)) (maxWidth (options st))])
                st)
  else Some (paint (background ++ strokes) st).

Definition clear (st : State) : option State :=
  let* st := redrawCanvas (resetState st) in
  Some (emit EvClear st).

(** [undo()]: the returned boolean and the state after the call. *)
Definition undo (st : State) : option (bool * State) :=
  if (0 <? length (allStrokes st))%nat then
    let st := setAllStrokes (removelast (allStrokes st)) st in
    let* st := redrawCanvas st in
    let st := emit (EvUndo (length (allStrokes st))) st in
    Some (true, st)
  else Some (false, st).

Definition fromData (data : JsValue) (st : State) : option State :=
  match isArray data with
  | None => Some (console_error "Data to load must be an array." st)
  | Some elements =>
      let* st := clear st in
      let st := setAllStrokes elements st in
      let* st := redrawCanvas st in
      Some (emit (EvLoad (length (allStrokes st))) st)
  end.

(** [toData()]: a copy of the collection. *)
Definition toData (st : State) : list Stroke := allStrokes st.

(** ** The first revision of the library (czSignature.js)

    It has no pressure: its points are [{x, y, time}], its smoothing loop
    builds [{x, y, time}] and its width loop has the velocity branch only. *)

Module V1_0.

(** A point of the first revision: no pressure. *)
Definition bare (p : Point) : Point :=
  {| x := x p; y := y p; time := time p; pressure := None |}.

Section Revision.

Variable opts : Options.

Definition smoothBody (simplifiedPoints : list Point) (i : nat)
    (smoothedPoints : list Point) : option (list Point) :=
  let fadeLength := smoothingFadePoints opts in
  let* prev := at_index simplifiedPoints (i - 1) in
  let* current := at_index simplifiedPoints i in
  let* next := at_index simplifiedPoints (i + 1) in
  let fadeInRatio := Rmin 1 (INR i / fadeLength) in
  let fadeOutRatio :=
    Rmin 1 (IZR (Z.of_nat (length simplifiedPoints) - 2 - Z.of_nat i)
            / fadeLength) in
  let dynamicRatio := smoothingRatio opts * Rmin fadeInRatio fadeOutRatio in
  let smoothedX :=
    x current * (1 - dynamicRatio) + (x prev + x next) / 2 * dynamicRatio in
  let smoothedY :=
    y current * (1 - dynamicRatio) + (y prev + y next) / 2 * dynamicRatio in
  Some (smoothedPoints ++
        [ {| x := smoothedX; y := smoothedY;
             time := time current; pressure := None |} ]).

Definition simplifyStroke (pts : list Point) : option (list Point) :=
  if (length pts <? 3)%nat then Some pts else
  let* p0 := at_index pts 0 in
  let* st := for_loop 1 (length pts) (filterBody opts pts) ([p0], p0) in
  let simplifiedPoints := fst st in
  if (length simplifiedPoints <? 3)%nat then Some simplifiedPoints else
  let* s0 := at_index simplifiedPoints 0 in
  let* smoothedPoints :=
    for_loop 1 (length simplifiedPoints - 1)
             (smoothBody simplifiedPoints) [s0] in
  let* sl := at_index simplifiedPoints (length simplifiedPoints - 1) in
  Some (smoothedPoints ++ [sl]).

Definition widthBody (pts : list Point) (minW maxW : R) (i : nat)
    (st : list jsnum * R) : option (list jsnum * R) :=
  let '(widths, lastVelocity) := st in
  let* velocity := instantVelocity Rdiv pts i lastVelocity in
  let lastVelocity' :=
    velocity * (1 - velocityFilterWeight opts)
    + lastVelocity * velocityFilterWeight opts in
  let width := Rmax minW (Rmin maxW (maxW - lastVelocity' * (15 / 10))) in
  Some (widths ++ [Num width], lastVelocity').

Definition calculateWidths (pts : list Point) (minW maxW : R)
    : option (list jsnum) :=
  let* st := for_loop 0 (length pts) (widthBody pts minW maxW) ([], 0) in
  Some (fst st).

End Revision.

End V1_0.

(** ** The algorithms as the specification words them *)

Module Reference.

(** Euclidean distance between two points. *)
Definition distance (p q : Point) : R := hypot (x q - x p) (y q - y p).

(** *** Two-stage simplification *)

(** Stage 1: keep a point exactly when it lies further than [minD] from the
    last kept point. *)
Fixpoint distanceFilter (minD : R) (lastKept : Point) (rest : list Point)
    : list Point :=
  match rest with
  | [] => []
  | p :: rest' =>
      if Rgt_dec (distance lastKept p) minD
      then p :: distanceFilter minD p rest'
      else distanceFilter minD lastKept rest'
  end.

(** The first point is always kept. *)
Definition keptPoints (minD : R) (pts : list Point) : list Point :=
  match pts with
  | [] => []
  | first :: rest => first :: distanceFilter minD first rest
  end.

(** [ratio = smoothingRatio * min(fadeIn, fadeOut)] at index [i] of [N]
    kept points. *)
Definition fadeRatio (opts : Options) (N i : nat) : R :=
  let fadeLength := smoothingFadePoints opts in
  let fadeIn := Rmin 1 (INR i / fadeLength) in
  let fadeOut := Rmin 1 ((INR N - 2 - INR i) / fadeLength) in
  smoothingRatio opts * Rmin fadeIn fadeOut.

(** [(1 - ratio) * current + ratio * midpoint(prev, next)] in x and in y. *)
Definition blend (ratio : R) (prev current next : Point) : Point :=
  {| x := (1 - ratio) * x current + ratio * ((x prev + x next) / 2);
     y := (1 - ratio) * y current + ratio * ((y prev + y next) / 2);
     time := time current;
     pressure := pressure current |}.

(** Stage 2 on the points after the first: [prev] is the kept (unsmoothed)
    predecessor, [i] the index of the head of [rest]; the last point is
    returned unmoved. *)
Fixpoint smoothInterior (opts : Options) (N i : nat) (prev : Point)
    (rest : list Point) : list Point :=
  match rest with
  | [] => []
  | current :: after =>
      match after with
      | [] => [current]
      | next :: _ =>
          blend (fadeRatio opts N i) prev current next
          :: smoothInterior opts N (S i) current after
      end
  end.

Definition smoothKept (opts : Options) (kept : list Point) : list Point :=
  match kept with
  | [] => []
  | first :: rest => first :: smoothInterior opts (length kept) 1 first rest
  end.

Definition simplify (opts : Options) (pts : list Point) : list Point :=
  if (length pts <? 3)%nat then pts
  else
    let kept := keptPoints (minDistance opts) pts in
    if (length kept <? 3)%nat then kept else smoothKept opts kept.

(** *** Velocity widths *)

(** [clamp(v, lo, hi)]. *)
Definition clamp (v lo hi : R) : R := Rmax lo (Rmin hi v).

(** The widths of the points after the first.  [fallsBack dt] tells for
    which time deltas the instantaneous velocity is the previous filtered
    velocity instead of [distance / dt]. *)
Fixpoint velocityWidthsFrom (fallsBack : Z -> bool) (weight minW maxW : R)
    (prev : Point) (vFiltered : R) (rest : list Point) : list R :=
  match rest with
  | [] => []
  | p :: rest' =>
      let dt := (time p - time prev)%Z in
      let vInstant :=
        if fallsBack dt then vFiltered else distance prev p / IZR dt in
      let vFiltered' := vInstant * (1 - weight) + vFiltered * weight in
      clamp (maxW - vFiltered' * (15 / 10)) minW maxW
      :: velocityWidthsFrom fallsBack weight minW maxW p vFiltered' rest'
  end.

Definition velocityWidths (fallsBack : Z -> bool) (weight minW maxW : R)
    (pts : list Point) : list R :=
  match pts with
  | [] => []
  | first :: rest =>
      let vFiltered := 0 * (1 - weight) + 0 * weight in
      clamp (maxW - vFiltered * (15 / 10)) minW maxW
      :: velocityWidthsFrom fallsBack weight minW maxW first vFiltered rest
  end.

(** Falling back when the time delta is 0, and only then. *)
Definition whenZero (dt : Z) : bool := (dt =? 0)%Z.

(** Falling back when the time delta is not positive. *)
Definition whenNotPositive (dt : Z) : bool := (dt <=? 0)%Z.

(** *** Pressure widths *)

Definition pressureWidth (minW maxW : R) (p : Point) : jsnum :=
  match pressure p with
  | Some pr => Num (minW + (maxW - minW) * pr)
  | None => NaN
  end.

(** *** Outline *)

Definition origin : Point := {| x := 0; y := 0; time := 0; pressure := None |}.

(** Tangent at index [i]: forward difference at the first point, backward
    difference at the last, centred difference in between. *)
Definition tangentAt (pts : list Point) (i : nat) : R * R :=
  let p := nth i pts origin in
  let next := nth (i + 1) pts origin in
  let prev := nth (i - 1) pts origin in
  if (i =? 0)%nat then (x next - x p, y next - y p)
  else if (i =? length pts - 1)%nat then (x p - x prev, y p - y prev)
  else ((x next - x prev) / 2, (y next - y prev) / 2).

(** The unit normal [(-tangentY, tangentX) / length], with length 1 in place
    of a zero length. *)
Definition normalAt (pts : list Point) (i : nat) : R * R :=
  let t := tangentAt pts i in
  let len := hypot (fst t) (snd t) in
  let len := if Req_dec_T len 0 then 1 else len in
  (- snd t / len, fst t / len).

(** The point at index [i] displaced by [side * normal * width / 2]. *)
Definition offsetAt (side : R) (pts : list Point) (widths : list R) (i : nat)
    : R * R :=
  let p := nth i pts origin in
  let n := normalAt pts i in
  let w := nth i widths 0 in
  (x p + side * (fst n * (w / 2)), y p + side * (snd n * (w / 2))).

Definition outline (side : R) (pts : list Point) (widths : list R)
    : list (R * R) :=
  map (offsetAt side pts widths) (seq 0 (length pts)).

(** Quadratic curves through the midpoints of consecutive points: one curve
    per consecutive pair, with the first of the pair as control point. *)
Fixpoint midpointQuads (walk : list (R * R)) : list PathCmd :=
  match walk with
  | [] => []
  | p1 :: after =>
      match after with
      | [] => []
      | p2 :: _ =>
          QuadTo (Fixed (toFixed2 (fst p1))) (Fixed (toFixed2 (snd p1)))
                 (Fixed (toFixed2 ((fst p1 + fst p2) / 2)))
                 (Fixed (toFixed2 ((snd p1 + snd p2) / 2)))
          :: midpointQuads after
      end
  end.

Definition moveTo (p : R * R) : PathCmd :=
  MoveTo (Fixed (toFixed2 (fst p))) (Fixed (toFixed2 (snd p))).

Definition lineTo (p : R * R) : PathCmd :=
  LineTo (Fixed (toFixed2 (fst p))) (Fixed (toFixed2 (snd p))).

(** An arc of the given radius, [A r,r 0 0 1 x,y]. *)
Definition capTo (radius : R) (p : R * R) : PathCmd :=
  ArcTo (Fixed (toFixed2 radius)) (Fixed (toFixed2 radius)) 0 false true
        (Fixed (toFixed2 (fst p))) (Fixed (toFixed2 (snd p))).

(** The closed outline of a stroke of at least two points. *)
Definition outlinePath (pts : list Point) (widths : list R) : list PathCmd :=
  let outline1 := outline 1 pts widths in
  let outline2 := outline (-1) pts widths in
  let last := (length pts - 1)%nat in
  [moveTo (nth 0 outline1 (0, 0));
   capTo (nth 0 widths 0 / 2) (nth 0 outline2 (0, 0))]
  ++ midpointQuads outline2
  ++ [lineTo (nth last outline2 (0, 0));
      capTo (nth last widths 0 / 2) (nth last outline1 (0, 0))]
  ++ midpointQuads (rev outline1)
  ++ [ClosePath].

(** The dot of a single point: a circle of the given radius written as two
    relative arcs of half a turn. *)
Definition dotPath (p : Point) (r : R) : list PathCmd :=
  [MoveTo (Fixed (toFixed2 (x p))) (Fixed (toFixed2 (y p)));
   MoveBy (Minus r) (Plain 0);
   ArcBy (Plain r) (Plain r) 0 true false (Plain (r * 2)) (Plain 0);
   ArcBy (Plain r) (Plain r) 0 true false (Minus (r * 2)) (Plain 0)].

(** The dot as the specification states it, of radius [width[0] / 2]. *)
Definition dotPathStated (p : Point) (widths : list R) : list PathCmd :=
  dotPath p (nth 0 widths 0 / 2).

End Reference.

(** ** Geometry of the dot path

    The part of the SVG path language that the dot uses: absolute and
    relative moves, and relative circular arcs whose chord is a diameter. *)

Module Geometry.

Definition value (n : PathNum) : R :=
  match n with
  | Fixed h => IZR h / 100
  | Plain r => r
  | Minus r => - r
  | Word _ => 0   (* no number; the dot is written without one *)
  end.

Definition sqdist (p q : R * R) : R :=
  (fst p - fst q) * (fst p - fst q) + (snd p - snd q) * (snd p - snd q).

Definition midpoint (p q : R * R) : R * R :=
  ((fst p + fst q) / 2, (snd p + snd q) / 2).

(** Twice the signed area of the triangle [p q z]. *)
Definition cross (p q z : R * R) : R :=
  (fst q - fst p) * (snd z - snd p) - (snd q - snd p) * (fst z - fst p).

(** The arc of half a turn from [p] to [q]: the points of the circle on the
    diameter [p q] that lie on the side of the chord chosen by the sweep
    flag. *)
Definition onHalfCircle (p q : R * R) (sweep : bool) (z : R * R) : Prop :=
  sqdist z (midpoint p q) = sqdist p (midpoint p q)
  /\ (if sweep then cross p q z <= 0 else 0 <= cross p q z).

(** [inked pen cmds z]: the path [cmds], started with the pen at [pen],
    passes through [z]. *)
Inductive inked : R * R -> list PathCmd -> R * R -> Prop :=
| inked_moveTo pen px py rest z :
    inked (value px, value py) rest z ->
    inked pen (MoveTo px py :: rest) z
| inked_moveBy pen dx dy rest z :
    inked (fst pen + value dx, snd pen + value dy) rest z ->
    inked pen (MoveBy dx dy :: rest) z
| inked_arc_here pen r rot largeArc sweep dx dy rest z :
    0 < value r ->
    sqdist pen (fst pen + value dx, snd pen + value dy)
      = (2 * value r) * (2 * value r) ->
    onHalfCircle pen (fst pen + value dx, snd pen + value dy) sweep z ->
    inked pen (ArcBy r r rot largeArc sweep dx dy :: rest) z
| inked_arc_later pen r rot largeArc sweep dx dy rest z :
    inked (fst pen + value dx, snd pen + value dy) rest z ->
    inked pen (ArcBy r r rot largeArc sweep dx dy :: rest) z.

Definition onCircle (c : R * R) (r : R) (z : R * R) : Prop :=
  sqdist z c = r * r.

(** [box] is the axis-aligned bounding box of the set [S]: it contains [S]
    and [S] touches each of its four sides. *)
Definition boundingBox (S : R * R -> Prop) (xmin xmax ymin ymax : R) : Prop :=
  (forall z, S z -> xmin <= fst z <= xmax /\ ymin <= snd z <= ymax)
  /\ (exists z, S z /\ fst z = xmin)
  /\ (exists z, S z /\ fst z = xmax)
  /\ (exists z, S z /\ snd z = ymin)
  /\ (exists z, S z /\ snd z = ymax).

End Geometry.

(** ** The outline whatever the widths are

    The outline of a stroke whose widths need not be numbers, as it is
    written: a point without a number for its width has no outline points,
    and [NaN] is written in their place. *)

(** Where there is no number. *)
Definition nowhere : Ext.xnum * Ext.xnum := (Ext.Nan, Ext.Nan).

(** The outline point of the point at index [i], on the side [side]. *)
Definition outlinePointAt (side : R) (pts : list Point) (widths : list jsnum)
    (i : nat) : Ext.xnum * Ext.xnum :=
  match nth_error widths i with
  | Some (Num w) =>
      let p := nth i pts Reference.origin in
      let n := Reference.normalAt pts i in
      finite (x p + side * (fst n * (w / 2)), y p + side * (snd n * (w / 2)))
  | _ => nowhere
  end.

Definition outlineOf (side : R) (pts : list Point) (widths : list jsnum)
    : list (Ext.xnum * Ext.xnum) :=
  map (outlinePointAt side pts widths) (seq 0 (length pts)).

(** One quadratic curve per consecutive pair, through the midpoint. *)
Fixpoint midpointCurves (walk : list (Ext.xnum * Ext.xnum)) : list PathCmd :=
  match walk with
  | [] => []
  | p1 :: after =>
      match after with
      | [] => []
      | p2 :: _ =>
          QuadTo (toFixedText (fst p1)) (toFixedText (snd p1))
                 (toFixedText (Ext.xhalf (Ext.xadd (fst p1) (fst p2))))
                 (toFixedText (Ext.xhalf (Ext.xadd (snd p1) (snd p2))))
          :: midpointCurves after
      end
  end.

(** An arc whose radius is half of [widths[i]]. *)
Definition capAt (widths : list jsnum) (i : nat) (p : Ext.xnum * Ext.xnum)
    : PathCmd :=
  ArcTo (toFixedText (halfWidthOf widths i)) (toFixedText (halfWidthOf widths i))
        0 false true (toFixedText (fst p)) (toFixedText (snd p)).

(** The closed path of a stroke of at least two points. *)
Definition outlineText (pts : list Point) (widths : list jsnum)
    : list PathCmd :=
  let outline1 := outlineOf 1 pts widths in
  let outline2 := outlineOf (-1) pts widths in
  let last := (length pts - 1)%nat in
  [MoveTo (toFixedText (fst (nth 0 outline1 nowhere)))
          (toFixedText (snd (nth 0 outline1 nowhere)));
   capAt widths 0 (nth 0 outline2 nowhere)]
  ++ midpointCurves outline2
  ++ [LineTo (toFixedText (fst (nth last outline2 nowhere)))
             (toFixedText (snd (nth last outline2 nowhere)));
      capAt widths (length widths - 1) (nth last outline1 nowhere)]
  ++ midpointCurves (rev outline1)
  ++ [ClosePath].

(** [widths[i]] is missing or [NaN]. *)
Definition notANumber (widths : list jsnum) (i : nat) : Prop :=
  forall w, nth_error widths i <> Some (Num w).


(** ** Sample inputs *)

Module Samples.

(** A recorded point on the horizontal axis, with the pressure that
    [#getCoordinates] gives a device without pressure. *)
Definition onAxis (px : R) (t : Z) : Point :=
  {| x := px; y := 0; time := t; pressure := Some (5 / 10) |}.

(** Four points drawn left to right, back, and right again. *)
Definition zigzag : list Point :=
  [onAxis 0 0; onAxis (85 / 100) 10; onAxis (-1) 20; onAxis 5 30].

(** A stroke whose third timestamp runs backwards. *)
Definition rewound : list Point :=
  [onAxis 0 0; onAxis 1 1; onAxis 1 0].

(** The default options with pressure sensitivity switched on. *)
Definition pressureOptions : Options := {|
  penColor := penColor defaultOptions;
  backgroundColor := backgroundColor defaultOptions;
  minWidth := minWidth defaultOptions;
  maxWidth := maxWidth defaultOptions;
  velocityFilterWeight := velocityFilterWeight defaultOptions;
  dotSize := dotSize defaultOptions;
  minDistance := minDistance defaultOptions;
  smoothingRatio := smoothingRatio defaultOptions;
  smoothingFadePoints := smoothingFadePoints defaultOptions;
  smoothingMode := smoothingMode defaultOptions;
  pressureSupport := true
|}.

(** The default options with the fade length 0. *)
Definition noFadeOptions : Options := {|
  penColor := penColor defaultOptions;
  backgroundColor := backgroundColor defaultOptions;
  minWidth := minWidth defaultOptions;
  maxWidth := maxWidth defaultOptions;
  velocityFilterWeight := velocityFilterWeight defaultOptions;
  dotSize := dotSize defaultOptions;
  minDistance := minDistance defaultOptions;
  smoothingRatio := smoothingRatio defaultOptions;
  smoothingFadePoints := 0;
  smoothingMode := smoothingMode defaultOptions;
  pressureSupport := pressureSupport defaultOptions
|}.

(** A pen held still: two points at the origin, 30 ms apart. *)
Definition still : list Point := [onAxis 0 0; onAxis 0 30].

(** A loaded point without a pressure field. *)
Definition unpressed (px : R) (t : Z) : Point :=
  {| x := px; y := 0; time := t; pressure := None |}.

(** A point a thousandth of a pixel right of the origin. *)
Definition offGrid : Point := onAxis (1 / 1000) 0.

(** One stored stroke, and a component that holds it on a white canvas. *)
Definition dash : Stroke :=
  {| points := [onAxis 0 0; onAxis 5 30]; color := "#000000";
     strokeMinWidth := 5 / 10; strokeMaxWidth := 25 / 10 |}.

Definition signed : State :=
  {| options := defaultOptions; isDrawing := false; currentStroke := [];
     allStrokes := [dash; dash]; drawing := false;
     surface := []; emitted := []; console := [] |}.

End Samples.

(** ** Bounding-Box Calculator: [isEmpty] and [#calculateBoundingBox] *)

(** [array.forEach((element, index) => ...)] on a loop state. *)
Fixpoint forEach {A S : Type} (f : A -> nat -> S -> S) (l : list A)
    (index : nat) (s : S) : S :=
  match l with
  | [] => s
  | a :: l' => forEach f l' (Datatypes.S index) (f a index s)
  end.

(** [forEach] with a body that can end abruptly. *)
Fixpoint forEachM {A S : Type} (f : A -> S -> option S) (l : list A) (s : S)
    : option S :=
  match l with
  | [] => Some s
  | a :: l' =>
      match f a s with
      | Some s' => forEachM f l' s'
      | None => None
      end
  end.

Definition isEmpty (st : State) : bool :=
  (length (allStrokes st) =? 0)%nat.

Module BoundingBox.

Import Ext.

(** The four running extremes. *)
Record Extremes : Type := mkExtremes {
  minX : xnum;
  minY : xnum;
  maxX : xnum;
  maxY : xnum
}.

Record Box : Type := mkBox {
  extremes : Extremes;
  width : xnum;
  height : xnum
}.

(** [let minX = Infinity, minY = Infinity, maxX = -Infinity, maxY = -Infinity]. *)
Definition start : Extremes :=
  {| minX := PosInf; minY := PosInf; maxX := NegInf; maxY := NegInf |}.

(** [widths[index] / 2]: not a number when the width is missing or [NaN]. *)
Definition halfWidthAt (widths : list jsnum) (index : nat) : xnum :=
  match nth_error widths index with
  | Some (Num w) => Fin (w / 2)
  | _ => Nan
  end.

(** Body of the inner [forEach]. *)
Definition pointBody (widths : list jsnum) (point : Point) (index : nat)
    (e : Extremes) : Extremes :=
  let halfWidth := halfWidthAt widths index in
  let minX' := xmin (minX e) (xsub (Fin (x point)) halfWidth) in
  let maxX' := xmax (maxX e) (xadd (Fin (x point)) halfWidth) in
  let minY' := xmin (minY e) (xsub (Fin (y point)) halfWidth) in
  let maxY' := xmax (maxY e) (xadd (Fin (y point)) halfWidth) in
  {| minX := minX'; minY := minY'; maxX := maxX'; maxY := maxY' |}.

(** Body of the outer [forEach]. *)
Definition strokeBody (opts : Options) (stroke : Stroke) (e : Extremes)
    : option Extremes :=
  let* widths := calculateWidths opts (points stroke)
                   (strokeMinWidth stroke) (strokeMaxWidth stroke) in
  Some (forEach (pointBody widths) (points stroke) 0 e).

Definition boxOf (e : Extremes) : Box :=
  {| extremes := e;
     width := xsub (maxX e) (minX e);
     height := xsub (maxY e) (minY e) |}.

(** The result is [None] for [null]. *)
Definition calculateBoundingBox (st : State) : option (option Box) :=
  if isEmpty st then Some None else
  let* e := forEachM (strokeBody (options st)) (allStrokes st) start in
  Some (Some (boxOf e)).

(** The box around two boxes. *)
Definition join (a b : Box) : Box :=
  boxOf {| minX := xmin (minX (extremes a)) (minX (extremes b));
           minY := xmin (minY (extremes a)) (minY (extremes b));
           maxX := xmax (maxX (extremes a)) (maxX (extremes b));
           maxY := xmax (maxY (extremes a)) (maxY (extremes b)) |}.

End BoundingBox.

(** ** Vector export: [toSVG] *)

Module Svg.

Import Ext.

(** The export options of [this.options], and the canvas size that
    [#setupCanvas] stores on the component. *)
Record Export : Type := mkExport {
  trimOutput : bool;
  trimPadding : R;
  outputPenColor : option string;          (* [null] is [None] *)
  outputBackgroundColor : option string;
  canvasWidth : R;
  canvasHeight : R
}.

(** [a ?? b]. *)
Definition nullish (a : option string) (b : string) : string :=
  match a with
  | Some v => v
  | None => b
  end.

(** The document, element by element. *)
Record Document : Type := mkDocument {
  svgWidth : xnum;
  svgHeight : xnum;
  viewBoxX : xnum;
  viewBoxY : xnum;
  background : option string;     (* fill of the [rect], when there is one *)
  paths : list (list PathCmd * string)   (* [d] and [fill] of each [path] *)
}.

(** The returned text: the empty string or a document. *)
Inductive Text : Type :=
| Empty
| Written (doc : Document).

(** Body of the [forEach] over the strokes; the state is the list of path
    elements written so far. *)
Definition pathBody (opts : Options) (ex : Export) (stroke : Stroke)
    (written : list (list PathCmd * string))
    : option (list (list PathCmd * string)) :=
  if (length (points stroke) =? 0)%nat then Some written else
  let finalPenColor := nullish (outputPenColor ex) (color stroke) in
  let* widths := calculateWidths opts (points stroke)
                   (strokeMinWidth stroke) (strokeMaxWidth stroke) in
  let* pathData := generateSmoothSvgPathData opts (points stroke) widths in
  match pathData with
  | [] => Some written
  | _ => Some (written ++ [(pathData, finalPenColor)])
  end.

Definition toSVG (ex : Export) (st : State) : option Text :=
  if isEmpty st then Some Empty else
  (* The literal [{ minX: 0, minY: 0, width, height }] has no [maxX] and
     [maxY]; they are never read. *)
  let* bbox :=
    if trimOutput ex then BoundingBox.calculateBoundingBox st
    else Some (Some
           {| BoundingBox.extremes :=
                {| BoundingBox.minX := Fin 0; BoundingBox.minY := Fin 0;
                   BoundingBox.maxX := Nan; BoundingBox.maxY := Nan |};
              BoundingBox.width := Fin (canvasWidth ex);
              BoundingBox.height := Fin (canvasHeight ex) |}) in
  match bbox with
  | None => Some Empty
  | Some bbox =>
      let svgWidth :=
        if trimOutput ex
        then xadd (BoundingBox.width bbox) (Fin (trimPadding ex * 2))
        else Fin (canvasWidth ex) in
      let svgHeight :=
        if trimOutput ex
        then xadd (BoundingBox.height bbox) (Fin (trimPadding ex * 2))
        else Fin (canvasHeight ex) in
      let viewBoxX :=
        if trimOutput ex
        then xsub (BoundingBox.minX (BoundingBox.extremes bbox))
                  (Fin (trimPadding ex))
        else Fin 0 in
      let viewBoxY :=
        if trimOutput ex
        then xsub (BoundingBox.minY (BoundingBox.extremes bbox))
                  (Fin (trimPadding ex))
        else Fin 0 in
      let finalBgColor :=
        nullish (outputBackgroundColor ex) (backgroundColor (options st)) in
      let background :=
        if String.eqb finalBgColor "transparent" then None
        else Some finalBgColor in
      let* paths :=
        forEachM (pathBody (options st) ex) (allStrokes st) [] in
      Some (Written {| svgWidth := svgWidth; svgHeight := svgHeight;
                       viewBoxX := viewBoxX; viewBoxY := viewBoxY;
                       background := background; paths := paths |})
  end.

End Svg.

(** ** Centerline Renderer: [#drawStroke] *)

Module Raster.








End Raster.

(** ** Listeners: [on] and [#emit] *)

Module Emitter.

Section Callbacks.

(** The callbacks are opaque; [inherited] tells the property names that the
    object [{}] inherits from its prototype ([toString], [constructor],
    ...), whose values are truthy and are not arrays. *)
Variable Callback : Type.
Variable inherited : string -> bool.

(** The own properties of [#listeners]. *)
Definition Listeners : Type := string -> option (list Callback).

Definition noListeners : Listeners := fun _ => None.

Definition store (name : string) (callbacks : list Callback) (ls : Listeners)
    : Listeners :=
  fun key => if String.eqb key name then Some callbacks else ls key.

(** [on(eventName, callback)].  Under an inherited name the test finds a
    truthy value, and [push] on it is a [TypeError]. *)
Definition on (eventName : string) (callback : Callback) (ls : Listeners)
    : option Listeners :=
  match ls eventName with
  | Some callbacks => Some (store eventName (callbacks ++ [callback]) ls)
  | None =>
      if inherited eventName then None
      else Some (store eventName ([] ++ [callback]) ls)
  end.

(** [#emit(eventName, data)]: the callbacks called, in the order of the
    calls. *)
Definition emitTo (eventName : string) (ls : Listeners)
    : option (list Callback) :=
  match ls eventName with
  | Some callbacks => Some callbacks
  | None => if inherited eventName then None else Some []
  end.

(** A series of [on] calls. *)
Fixpoint register (calls : list (string * Callback)) (ls : Listeners)
    : option Listeners :=
  match calls with
  | [] => Some ls
  | (eventName, callback) :: rest =>
      match on eventName callback ls with
      | Some ls' => register rest ls'
      | None => None
      end
  end.

(** The callbacks that a series of [on] calls gives to one event name. *)
Definition callbacksFor (eventName : string)
    (calls : list (string * Callback)) : list Callback :=
  map snd (filter (fun c => String.eqb (fst c) eventName) calls).

End Callbacks.

End Emitter.

(** ** Drawing: pointer handlers and the frame callback *)

Module Pointer.

(** What a handler reads from its event and from the browser. *)
Record Input : Type := mkInput {
  clientX : R;
  clientY : R;
  eventPressure : R;
  button : Z;
  rectLeft : R;               (* [getBoundingClientRect()] of the canvas *)
  rectTop : R;
  now : Z;                    (* [Date.now()] *)
  hasPointerCapture : bool    (* [canvas.hasPointerCapture(event.pointerId)] *)
}.

(** The events of a gesture, which carry more than the counters of
    [Event]. *)
Inductive DrawEvent : Type :=
| EvDrawStart
| EvDrawEnd (stroke : Stroke).

(** The component while it is in use: its state, the canvas size stored by
    [#setupCanvas], the gesture events handed to the listeners, and the
    number of callbacks given to [requestAnimationFrame] and not yet run. *)
Record Session : Type := mkSession {
  component : State;
  canvasWidth : R;
  canvasHeight : R;
  drawEvents : list DrawEvent;
  frames : nat
}.

Definition withComponent (st : State) (s : Session) : Session :=
  {| component := st; canvasWidth := canvasWidth s;
     canvasHeight := canvasHeight s; drawEvents := drawEvents s;
     frames := frames s |}.

Definition announce (e : DrawEvent) (s : Session) : Session :=
  {| component := component s; canvasWidth := canvasWidth s;
     canvasHeight := canvasHeight s; drawEvents := drawEvents s ++ [e];
     frames := frames s |}.

Definition setFrames (n : nat) (s : Session) : Session :=
  {| component := component s; canvasWidth := canvasWidth s;
     canvasHeight := canvasHeight s; drawEvents := drawEvents s;
     frames := n |}.

Definition setIsDrawing (b : bool) (st : State) : State :=
  {| options := options st; isDrawing := b;
     currentStroke := currentStroke st; allStrokes := allStrokes st;
     drawing := drawing st; surface := surface st;
     emitted := emitted st; console := console st |}.

Definition setCurrentStroke (pts : list Point) (st : State) : State :=
  {| options := options st; isDrawing := isDrawing st;
     currentStroke := pts; allStrokes := allStrokes st;
     drawing := drawing st; surface := surface st;
     emitted := emitted st; console := console st |}.

Definition setDrawing (b : bool) (st : State) : State :=
  {| options := options st; isDrawing := isDrawing st;
     currentStroke := currentStroke st; allStrokes := allStrokes st;
     drawing := b; surface := surface st;
     emitted := emitted st; console := console st |}.

(** [#getCoordinates(event)]. *)
Definition getCoordinates (s : Session) (i : Input) : Point :=
  let opts := options (component s) in
  let x0 := clientX i - rectLeft i in
  let y0 := clientY i - rectTop i in
  let halfPenWidth := or_else (maxWidth opts) (dotSize opts) / 2 in
  let x1 := Rmax halfPenWidth (Rmin x0 (canvasWidth s - halfPenWidth)) in
  let y1 := Rmax halfPenWidth (Rmin y0 (canvasHeight s - halfPenWidth)) in
  let pressure :=
    if Rgt_dec (eventPressure i) 0 then eventPressure i else 5 / 10 in
  {| x := x1; y := y1; time := now i; pressure := Some pressure |}.

(** [#startDrawing(event)]. *)
Definition startDrawing (i : Input) (s : Session) : option Session :=
  if negb (button i =? 0)%Z then Some s else
  let st := setIsDrawing true (component s) in
  let st := setCurrentStroke [getCoordinates s i] st in
  Some (announce EvDrawStart (withComponent st s)).

(** [#draw(event)]. *)
Definition draw (i : Input) (s : Session) : option Session :=
  if negb (isDrawing (component s)) then Some s else
  if hasPointerCapture i then
    let st := setCurrentStroke
                (currentStroke (component s) ++ [getCoordinates s i])
                (component s) in
    if negb (drawing st)
    then Some (setFrames (Datatypes.S (frames s))
                         (withComponent (setDrawing true st) s))
    else Some (withComponent st s)
  else Some s.

(** The callback given to [requestAnimationFrame]; the browser runs it
    once, and only if it was given one. *)
Definition frame (s : Session) : option Session :=
  match frames s with
  | O => Some s
  | Datatypes.S n =>
      let* st := redrawCanvas (component s) in
      Some (setFrames n (withComponent (setDrawing false st) s))
  end.

(** [#stopDrawing(event)]. *)
Definition stopDrawing (i : Input) (s : Session) : option Session :=
  let st := component s in
  if negb (isDrawing st) then Some s else
  let st := setIsDrawing false st in
  let* added :=
    if (0 <? length (currentStroke st))%nat then
      let* strokePoints :=
        if (1 <? length (currentStroke st))%nat
        then simplifyStroke (options st) (currentStroke st)
        else Some (currentStroke st) in
      let newStroke :=
        {| points := strokePoints;
           color := penColor (options st);
           strokeMinWidth := minWidth (options st);
           strokeMaxWidth := maxWidth (options st) |} in
      Some (Some newStroke)
    else Some None in
  let st :=
    match added with
    | Some newStroke => setAllStrokes (allStrokes st ++ [newStroke]) st
    | None => st
    end in
  let s :=
    match added with
    | Some newStroke => announce (EvDrawEnd newStroke) s
    | None => s
    end in
  let st := setCurrentStroke [] st in
  let* st := redrawCanvas st in
  Some (withComponent st s).

(** What can happen to a component in use. *)
Inductive Action : Type :=
| PointerDown (i : Input)
| PointerMove (i : Input)
| PointerUp (i : Input)
| AnimationFrame
| CallUndo
| CallClear
| CallFromData (data : JsValue).

Definition perform (a : Action) (s : Session) : option Session :=
  match a with
  | PointerDown i => startDrawing i s
  | PointerMove i => draw i s
  | PointerUp i => stopDrawing i s
  | AnimationFrame => frame s
  | CallUndo =>
      let* r := undo (component s) in
      Some (withComponent (snd r) s)
  | CallClear =>
      let* st := clear (component s) in
      Some (withComponent st s)
  | CallFromData data =>
      let* st := fromData data (component s) in
      Some (withComponent st s)
  end.

Fixpoint run (actions : list Action) (s : Session) : option Session :=
  match actions with
  | [] => Some s
  | a :: rest =>
      match perform a s with
      | Some s' => run rest s'
      | None => None
      end
  end.

(** The component as the constructor leaves it: nothing drawn, nothing in
    progress, no frame requested. *)
Definition fresh (s : Session) : Prop :=
  isDrawing (component s) = false
  /\ currentStroke (component s) = []
  /\ allStrokes (component s) = []
  /\ drawing (component s) = false
  /\ frames s = 0%nat.

(** Neither [clear] nor [fromData]. *)
Definition keepsCollection (a : Action) : bool :=
  match a with
  | CallClear | CallFromData _ => false
  | _ => true
  end.

Definition isLoad (a : Action) : bool :=
  match a with
  | CallFromData _ => true
  | _ => false
  end.

End Pointer.

(** ** More sample inputs *)

Module Fixtures.

(** A pointer event at [(px, py)] on a canvas at the page origin, from a
    device that reports no pressure. *)
Definition press (px py : R) (t : Z) : Pointer.Input :=
  {| Pointer.clientX := px; Pointer.clientY := py;
     Pointer.eventPressure := 0; Pointer.button := 0;
     Pointer.rectLeft := 0; Pointer.rectTop := 0;
     Pointer.now := t; Pointer.hasPointerCapture := true |}.

(** A component just constructed on a 300 by 150 canvas. *)
Definition blank : Pointer.Session :=
  {| Pointer.component :=
       {| options := defaultOptions; isDrawing := false;
          currentStroke := []; allStrokes := []; drawing := false;
          surface := []; emitted := []; console := [] |};
     Pointer.canvasWidth := 300; Pointer.canvasHeight := 150;
     Pointer.drawEvents := []; Pointer.frames := 0 |}.

(** A component at rest with the given options. *)
Definition setOptionsOf (opts : Options) : State :=
  {| options := opts; isDrawing := false; currentStroke := [];
     allStrokes := []; drawing := false;
     surface := []; emitted := []; console := [] |}.

(** The default options with smoothing switched off, and a component just
    constructed with them on a 300 by 150 canvas. *)
Definition unsmoothedOptions : Options := {|
  penColor := penColor defaultOptions;
  backgroundColor := backgroundColor defaultOptions;
  minWidth := minWidth defaultOptions;
  maxWidth := maxWidth defaultOptions;
  velocityFilterWeight := velocityFilterWeight defaultOptions;
  dotSize := dotSize defaultOptions;
  minDistance := minDistance defaultOptions;
  smoothingRatio := 0;
  smoothingFadePoints := smoothingFadePoints defaultOptions;
  smoothingMode := smoothingMode defaultOptions;
  pressureSupport := pressureSupport defaultOptions
|}.

Definition unsmoothed : Pointer.Session :=
  {| Pointer.component := setOptionsOf unsmoothedOptions;
     Pointer.canvasWidth := 300; Pointer.canvasHeight := 150;
     Pointer.drawEvents := []; Pointer.frames := 0 |}.

(** The default options in the smoothing mode [live]. *)
Definition liveOptions : Options := {|
  penColor := penColor defaultOptions;
  backgroundColor := backgroundColor defaultOptions;
  minWidth := minWidth defaultOptions;
  maxWidth := maxWidth defaultOptions;
  velocityFilterWeight := velocityFilterWeight defaultOptions;
  dotSize := dotSize defaultOptions;
  minDistance := minDistance defaultOptions;
  smoothingRatio := smoothingRatio defaultOptions;
  smoothingFadePoints := smoothingFadePoints defaultOptions;
  smoothingMode := live;
  pressureSupport := pressureSupport defaultOptions
|}.

(** A component in the middle of the gesture [zigzag], in [live] mode. *)
Definition liveGesture : State :=
  {| options := liveOptions; isDrawing := true;
     currentStroke := Samples.zigzag; allStrokes := []; drawing := false;
     surface := []; emitted := []; console := [] |}.

(** Export of the whole canvas. *)
Definition whole : Svg.Export :=
  {| Svg.trimOutput := false; Svg.trimPadding := 16;
     Svg.outputPenColor := None; Svg.outputBackgroundColor := None;
     Svg.canvasWidth := 300; Svg.canvasHeight := 150 |}.

End Fixtures.

(** ** Predicates of the further properties *)

(** [l] is [l'] with some elements left out. *)
Inductive subsequence {A : Type} : list A -> list A -> Prop :=
| subsequence_nil : subsequence [] []
| subsequence_keep a l l' : subsequence l l' -> subsequence (a :: l) (a :: l')
| subsequence_drop a l l' : subsequence l l' -> subsequence l (a :: l').

(** What smoothing leaves on a point: its timestamp and its pressure. *)
Definition stamp (p : Point) : Z * option R := (time p, pressure p).

(** The point lies in the rectangle [[x0, x1] x [y0, y1]]. *)
Definition inRectangle (x0 x1 y0 y1 : R) (p : Point) : Prop :=
  x0 <= x p <= x1 /\ y0 <= y p <= y1.

(** Every width of the sequence is a number: pressure mode is off the
    table, or every point carries a pressure. *)
Definition numericWidths (opts : Options) (pts : list Point) : Prop :=
  pressureSupport opts = false \/ Forall (fun p => pressure p <> None) pts.



(** The extremes taken pairwise. *)
Definition merge (a b : BoundingBox.Extremes) : BoundingBox.Extremes :=
  {| BoundingBox.minX := Ext.xmin (BoundingBox.minX a) (BoundingBox.minX b);
     BoundingBox.minY := Ext.xmin (BoundingBox.minY a) (BoundingBox.minY b);
     BoundingBox.maxX := Ext.xmax (BoundingBox.maxX a) (BoundingBox.maxX b);
     BoundingBox.maxY := Ext.xmax (BoundingBox.maxY a) (BoundingBox.maxY b) |}.


(** A box of real numbers. *)
Definition finiteBox (l t r b : R) : BoundingBox.Box :=
  {| BoundingBox.extremes :=
       {| BoundingBox.minX := Ext.Fin l; BoundingBox.minY := Ext.Fin t;
          BoundingBox.maxX := Ext.Fin r; BoundingBox.maxY := Ext.Fin b |};
     BoundingBox.width := Ext.Fin (r - l);
     BoundingBox.height := Ext.Fin (b - t) |}.

(** [entry] is the [path] element that [toSVG] writes for [stroke]: the
    path data that the Outline Path Builder returns on the widths of the
    Width Modulator, filled with the output pen colour or else the colour
    of the stroke. *)
Definition pathOfStroke (opts : Options) (ex : Svg.Export) (stroke : Stroke)
    (entry : list PathCmd * string) : Prop :=
  exists widths,
    calculateWidths opts (points stroke)
      (strokeMinWidth stroke) (strokeMaxWidth stroke) = Some widths
    /\ generateSmoothSvgPathData opts (points stroke) widths = Some (fst entry)
    /\ snd entry = Svg.nullish (Svg.outputPenColor ex) (color stroke).

(** The strokes that have a point. *)
Definition strokesWithPoints (strokes : list Stroke) : list Stroke :=
  filter (fun s => negb (length (points s) =? 0)%nat) strokes.

(** A gesture in progress has a point, and so has every stored stroke. *)
Definition gestureSound (s : Pointer.Session) : Prop :=
  (isDrawing (Pointer.component s) = true ->
   currentStroke (Pointer.component s) <> [])
  /\ Forall (fun stroke => points stroke <> [])
            (allStrokes (Pointer.component s)).

(** The part of the canvas that [#getCoordinates] clamps to: half a pen
    width inside each edge. *)
Definition onCanvas (s : Pointer.Session) (p : Point) : Prop :=
  let half :=
    or_else (maxWidth (options (Pointer.component s)))
            (dotSize (options (Pointer.component s))) / 2 in
  inRectangle half (Pointer.canvasWidth s - half)
              half (Pointer.canvasHeight s - half) p.

(** Every point of the gesture and of the collection is on the canvas. *)
Definition allOnCanvas (s : Pointer.Session) : Prop :=
  Forall (onCanvas s) (currentStroke (Pointer.component s))
  /\ Forall (fun stroke => Forall (onCanvas s) (points stroke))
            (allStrokes (Pointer.component s)).

(** As many frame callbacks are waiting as the flag [#drawing] says:
    one or none. *)
Definition oneFrameAtMost (s : Pointer.Session) : Prop :=
  Pointer.frames s = if drawing (Pointer.component s) then 1%nat else 0%nat.

(** The fields that no action changes: the options and the canvas size. *)
Definition sameSetting (s s' : Pointer.Session) : Prop :=
  options (Pointer.component s') = options (Pointer.component s)
  /\ Pointer.canvasWidth s' = Pointer.canvasWidth s
  /\ Pointer.canvasHeight s' = Pointer.canvasHeight s.

(** The pen fits the canvas: the edges that [#getCoordinates] clamps to,
    half a pen width inside the canvas, are in order. *)
Definition penFits (s : Pointer.Session) : Prop :=
  let opts := options (Pointer.component s) in
  let half := or_else (maxWidth opts) (dotSize opts) / 2 in
  half <= Pointer.canvasWidth s - half
  /\ half <= Pointer.canvasHeight s - half.

(** Smoothing is switched off: the ratio is 0, over a fade length that is
    not 0. *)
Definition smoothingOff (s : Pointer.Session) : Prop :=
  let opts := options (Pointer.component s) in
  smoothingRatio opts = 0 /\ smoothingFadePoints opts <> 0.

(** No action of the series is a call of [fromData]. *)
Definition nothingLoaded (actions : list Pointer.Action) : Prop :=
  forallb (fun a => negb (Pointer.isLoad a)) actions = true.

(** ** The strokes of [#drawStroke], piece by piece *)






(** ** The collection as a shared array

    [#allStrokes] holds a reference to an array.  [pop] changes that array
    in place; [this.#allStrokes = []] and
    [this.#allStrokes = data] make the field refer to another array;
    [[...this.#allStrokes]] makes a new one.  The arrays live in a store,
    and a reference is an index into it. *)

Module Shared.

Record World : Type := mkWorld {
  arrays : list (list Stroke);   (* the store *)
  held : nat;                    (* the reference in [#allStrokes] *)
  private : State                (* the component, with the array's content *)
}.

(** The array at [n] replaced by [a]. *)
Fixpoint overwrite (l : list (list Stroke)) (n : nat) (a : list Stroke)
    : list (list Stroke) :=
  match l, n with
  | [], _ => []
  | _ :: l', O => a :: l'
  | b :: l', S n' => b :: overwrite l' n' a
  end.

(** The field refers to an array whose content is the collection. *)
Definition consistent (w : World) : Prop :=
  nth_error (arrays w) (held w) = Some (allStrokes (private w)).

(** [undo()]: [this.#allStrokes.pop()] changes the held array in place. *)
Definition undoShared (w : World) : option (bool * World) :=
  let* r := undo (private w) in
  Some (fst r,
        {| arrays := overwrite (arrays w) (held w) (allStrokes (snd r));
           held := held w;
           private := snd r |}).

(** [clear()]: [#resetState] makes the field refer to a new empty array. *)
Definition clearShared (w : World) : option World :=
  let* st := clear (private w) in
  Some {| arrays := arrays w ++ [[]];
          held := length (arrays w);
          private := st |}.

(** [fromData(data)], [data] being a reference to an array ([Some]) or
    anything else ([None]): after the [clear], the field refers to the
    array of the caller. *)
Definition fromDataShared (data : option nat) (w : World) : option World :=
  match data with
  | None =>
      let* st := fromData JsUndefined (private w) in
      Some {| arrays := arrays w; held := held w; private := st |}
  | Some reference =>
      let* content := nth_error (arrays w) reference in
      let* st := fromData (JsArray content) (private w) in
      Some {| arrays := arrays w ++ [[]];
              held := reference;
              private := st |}
  end.

(** [toData()]: the reference to a new array with the same strokes. *)
Definition toDataShared (w : World) : nat * World :=
  (length (arrays w),
   {| arrays := arrays w ++ [toData (private w)];
      held := held w;
      private := private w |}).

End Shared.

(** * Theorems *)

(** ** Arithmetic of the model *)

Lemma hypot_nonneg (a b : R) : 0 <= hypot a b.
Proof. unfold hypot. apply sqrt_pos. Qed.

Lemma hypot_0_r (a : R) : hypot a 0 = Rabs a.
Proof.
  unfold hypot. replace (a * a + 0 * 0) with (Rsqr a) by (unfold Rsqr; ring).
  apply sqrt_Rsqr_abs.
Qed.

Lemma hypot_0_0 : hypot 0 0 = 0.
Proof. rewrite hypot_0_r. apply Rabs_R0. Qed.

Lemma IZR_nat_fade (N i : nat) :
  IZR (Z.of_nat N - 2 - Z.of_nat i) = INR N - 2 - INR i.
Proof. rewrite !minus_IZR, <- !INR_IZR_INZ. reflexivity. Qed.

(** ** Loops *)

Lemma for_loop_from {S : Type} (lo hi : nat) (body : nat -> S -> option S) s :
  for_loop lo hi body s = for_from (hi - lo) lo body s.
Proof. reflexivity. Qed.

Lemma at_index_middle {A : Type} (pre : list A) (a : A) (post : list A) :
  at_index (pre ++ a :: post) (length pre) = Some a.
Proof.
  unfold at_index. rewrite nth_error_app2 by lia.
  rewrite Nat.sub_diag. reflexivity.
Qed.

Lemma app_cons_assoc {A : Type} (pre : list A) (a : A) (post : list A) :
  pre ++ a :: post = (pre ++ [a]) ++ post.
Proof. rewrite <- app_assoc. reflexivity. Qed.

(** ** The Point Simplifier *)

Section SimplifyFacts.

Variable opts : Options.

(** The distance-filter loop, started at index [length pre] with the kept
    points [acc] and the last kept point [lastKept], appends the filtered
    remainder. *)
Lemma filter_loop (rest pre acc : list Point) (lastKept : Point) :
  exists lastKept',
    for_from (length rest) (length pre)
             (filterBody opts (pre ++ rest)) (acc, lastKept)
    = Some (acc ++ Reference.distanceFilter (minDistance opts) lastKept rest,
            lastKept').
Proof.
  revert pre acc lastKept.
  induction rest as [|p rest IH]; intros pre acc lastKept; simpl.
  - exists lastKept. rewrite app_nil_r. reflexivity.
  - rewrite at_index_middle. simpl.
    unfold Reference.distance.
    destruct (Rgt_dec (hypot (x p - x lastKept) (y p - y lastKept))
                      (minDistance opts)) as [Hfar|Hnear].
    + destruct (IH (pre ++ [p]) (acc ++ [p]) p) as [l' Hl'].
      exists l'. rewrite (app_cons_assoc pre p rest).
      rewrite length_app, Nat.add_1_r in Hl'. rewrite Hl'.
      rewrite <- app_assoc. reflexivity.
    + destruct (IH (pre ++ [p]) acc lastKept) as [l' Hl'].
      exists l'. rewrite (app_cons_assoc pre p rest).
      rewrite length_app, Nat.add_1_r in Hl'. exact Hl'.
Qed.

Lemma smoothInterior_nonempty (N i : nat) (prev p : Point) (rest : list Point) :
  Reference.smoothInterior opts N i prev (p :: rest) <> [].
Proof. simpl. destruct rest; discriminate. Qed.

(** The smoothed tail ends with the last kept point, unmoved. *)
Lemma smoothInterior_last (N : nat) (rest : list Point) :
  forall (i : nat) (prev p d : Point),
    Reference.smoothInterior opts N i prev (p :: rest)
    = removelast (Reference.smoothInterior opts N i prev (p :: rest))
      ++ [last (p :: rest) d].
Proof.
  induction rest as [|q rest IH]; intros i prev p d.
  - reflexivity.
  - change (Reference.smoothInterior opts N i prev (p :: q :: rest))
      with (Reference.blend (Reference.fadeRatio opts N i) prev p q
            :: Reference.smoothInterior opts N (S i) p (q :: rest)).
    rewrite (IH (S i) p q d) at 1.
    remember (Reference.smoothInterior opts N (S i) p (q :: rest)) as tl eqn:Htl.
    assert (Hne : tl <> []) by (subst tl; apply smoothInterior_nonempty).
    destruct tl as [|t tl]; [congruence|].
    change (removelast (?b :: t :: tl)) with (b :: removelast (t :: tl)).
    reflexivity.
Qed.

Lemma smoothBody_step (pre : list Point) (prev current next : Point)
    (post acc : list Point) :
  smoothBody opts (pre ++ prev :: current :: next :: post)
             (S (length pre)) acc
  = Some (acc ++
          [Reference.blend
             (Reference.fadeRatio opts
                (length (pre ++ prev :: current :: next :: post))
                (S (length pre)))
             prev current next]).
Proof.
  set (kept := pre ++ prev :: current :: next :: post).
  assert (Hprev : at_index kept (S (length pre) - 1) = Some prev).
  { replace (S (length pre) - 1)%nat with (length pre) by lia.
    apply at_index_middle. }
  assert (Hcur : at_index kept (S (length pre)) = Some current).
  { unfold kept. rewrite (app_cons_assoc pre prev).
    replace (S (length pre)) with (length (pre ++ [prev]))
      by (rewrite length_app; simpl; lia).
    apply at_index_middle. }
  assert (Hnext : at_index kept (S (length pre) + 1) = Some next).
  { unfold kept.
    rewrite (app_cons_assoc pre prev), (app_cons_assoc (pre ++ [prev]) current).
    replace (S (length pre) + 1)%nat
      with (length ((pre ++ [prev]) ++ [current]))
      by (rewrite !length_app; simpl; lia).
    apply at_index_middle. }
  unfold smoothBody. rewrite Hprev, Hcur, Hnext. cbn [bind].
  unfold Reference.blend, Reference.fadeRatio.
  rewrite IZR_nat_fade.
  f_equal. f_equal. f_equal. f_equal; ring.
Qed.

(** The smoothing loop, started at the index of [current] with [prev] before
    it, appends the smoothed interior points. *)
Lemma smooth_loop (rest : list Point) :
  forall (pre : list Point) (prev : Point) (acc : list Point),
    for_from (length rest - 1) (S (length pre))
             (smoothBody opts (pre ++ prev :: rest)) acc
    = Some (acc ++ removelast
              (Reference.smoothInterior opts (length (pre ++ prev :: rest))
                 (S (length pre)) prev rest)).
Proof.
  induction rest as [|current rest IH]; intros pre prev acc.
  - simpl. rewrite app_nil_r. reflexivity.
  - destruct rest as [|next post].
    + simpl. rewrite app_nil_r. reflexivity.
    + replace (length (current :: next :: post) - 1)%nat
        with (S (length (next :: post) - 1)) by (simpl; lia).
      cbn [for_from].
      rewrite smoothBody_step.
      specialize (IH (pre ++ [prev]) current
                     (acc ++ [Reference.blend
                       (Reference.fadeRatio opts
                          (length (pre ++ prev :: current :: next :: post))
                          (S (length pre))) prev current next])).
      rewrite <- (app_cons_assoc pre prev) in IH.
      replace (S (length (pre ++ [prev]))) with (S (S (length pre))) in IH
        by (rewrite length_app; simpl; lia).
      rewrite IH. f_equal. rewrite <- app_assoc. f_equal.
      change (Reference.smoothInterior opts ?N ?i prev (current :: next :: post))
        with (Reference.blend (Reference.fadeRatio opts N i) prev current next
              :: Reference.smoothInterior opts N (S i) current (next :: post)).
      remember (Reference.smoothInterior opts
                  (length (pre ++ prev :: current :: next :: post))
                  (S (S (length pre))) current (next :: post)) as tl eqn:Htl.
      assert (Hne : tl <> []) by (subst tl; apply smoothInterior_nonempty).
      destruct tl as [|t tl]; [congruence|]. reflexivity.
Qed.

End SimplifyFacts.

Lemma at_index_last {A : Type} (l : list A) (a d : A) :
  at_index (a :: l) (length (a :: l) - 1) = Some (last (a :: l) d).
Proof.
  revert a. induction l as [|b l IH]; intros a.
  - reflexivity.
  - specialize (IH b).
    replace (length (a :: b :: l) - 1)%nat with (S (length (b :: l) - 1))
      by (simpl; lia).
    change (last (a :: b :: l) d) with (last (b :: l) d).
    exact IH.
Qed.

(** The source's simplifier computes the two-stage reference algorithm, and
    always returns. *)
Lemma simplifyStroke_reference (opts : Options) (pts : list Point) :
  simplifyStroke opts pts = Some (Reference.simplify opts pts).
Proof.
  unfold simplifyStroke, Reference.simplify.
  destruct (length pts <? 3)%nat eqn:Hshort; [reflexivity|].
  apply Nat.ltb_ge in Hshort.
  destruct pts as [|p0 rest]; [simpl in Hshort; lia|].
  cbn [at_index nth_error bind].
  rewrite for_loop_from.
  replace (length (p0 :: rest) - 1)%nat with (length rest) by (simpl; lia).
  destruct (filter_loop opts rest [p0] [p0] p0) as [l' Hloop].
  change (length [p0]) with 1%nat in Hloop.
  change ([p0] ++ rest) with (p0 :: rest) in Hloop.
  rewrite Hloop. cbn [bind fst].
  change ([p0] ++ Reference.distanceFilter (minDistance opts) p0 rest)
    with (Reference.keptPoints (minDistance opts) (p0 :: rest)).
  set (kept := Reference.keptPoints (minDistance opts) (p0 :: rest)).
  destruct (length kept <? 3)%nat eqn:Hfew; [reflexivity|].
  apply Nat.ltb_ge in Hfew.
  assert (Hkept : kept = p0 :: Reference.distanceFilter (minDistance opts) p0 rest)
    by reflexivity.
  remember (Reference.distanceFilter (minDistance opts) p0 rest) as tl eqn:Htl.
  clear Htl Hloop. rewrite Hkept in *. clear Hkept kept.
  cbn [at_index nth_error bind].
  rewrite for_loop_from.
  replace (length (p0 :: tl) - 1 - 1)%nat with (length tl - 1)%nat
    by (simpl; lia).
  pose proof (smooth_loop opts tl [] p0 [p0]) as Hsmooth.
  change (length (@nil Point)) with 0%nat in Hsmooth.
  change ([] ++ p0 :: tl) with (p0 :: tl) in Hsmooth.
  rewrite Hsmooth. cbn [bind].
  rewrite (at_index_last tl p0 p0). cbn [bind].
  unfold Reference.smoothKept.
  destruct tl as [|q tl]; [simpl in Hfew; lia|].
  rewrite (smoothInterior_last opts (length (p0 :: q :: tl)) tl 1 p0 q p0) at 2.
  change (last (p0 :: q :: tl) p0) with (last (q :: tl) p0).
  rewrite <- app_assoc. reflexivity.
Qed.

(** *** The first revision *)

Lemma for_from_ext {S : Type} (body body' : nat -> S -> option S) :
  (forall i s, body i s = body' i s) ->
  forall fuel i s, for_from fuel i body s = for_from fuel i body' s.
Proof.
  intros Hext fuel. induction fuel as [|fuel IH]; intros i s; simpl.
  - reflexivity.
  - rewrite Hext. destruct (body' i s); [apply IH|reflexivity].
Qed.

Lemma distanceFilter_Forall (P : Point -> Prop) (minD : R) (rest : list Point) :
  Forall P rest ->
  forall lastKept, Forall P (Reference.distanceFilter minD lastKept rest).
Proof.
  induction 1 as [|p rest Hp Hrest IH]; intros lastKept; simpl.
  - constructor.
  - destruct (Rgt_dec _ _); [constructor; [exact Hp|]|]; apply IH.
Qed.

Lemma keptPoints_Forall (P : Point -> Prop) (minD : R) (pts : list Point) :
  Forall P pts -> Forall P (Reference.keptPoints minD pts).
Proof.
  intros H. destruct H as [|p rest Hp Hrest]; simpl.
  - constructor.
  - constructor; [exact Hp|]. apply distanceFilter_Forall. exact Hrest.
Qed.

Lemma V1_0_smoothBody_bare (opts : Options) (kept : list Point) :
  Forall (fun p => pressure p = None) kept ->
  forall i acc, V1_0.smoothBody opts kept i acc = smoothBody opts kept i acc.
Proof.
  intros Hbare i acc. unfold V1_0.smoothBody, smoothBody.
  destruct (at_index kept (i - 1)) as [prev|]; [|reflexivity].
  destruct (at_index kept i) as [current|] eqn:Hcur; [|reflexivity].
  destruct (at_index kept (i + 1)) as [next|]; [|reflexivity].
  cbn [bind].
  apply nth_error_In in Hcur.
  rewrite Forall_forall in Hbare. rewrite (Hbare current Hcur).
  reflexivity.
Qed.

Lemma V1_0_simplifyStroke_bare (opts : Options) (pts : list Point) :
  Forall (fun p => pressure p = None) pts ->
  V1_0.simplifyStroke opts pts = simplifyStroke opts pts.
Proof.
  intros Hbare.
  unfold V1_0.simplifyStroke, simplifyStroke.
  destruct (length pts <? 3)%nat eqn:Hshort; [reflexivity|].
  apply Nat.ltb_ge in Hshort.
  destruct pts as [|p0 rest]; [simpl in Hshort; lia|].
  cbn [at_index nth_error bind].
  rewrite for_loop_from.
  replace (length (p0 :: rest) - 1)%nat with (length rest) by (simpl; lia).
  destruct (filter_loop opts rest [p0] [p0] p0) as [l' Hloop].
  change (length [p0]) with 1%nat in Hloop.
  change ([p0] ++ rest) with (p0 :: rest) in Hloop.
  rewrite Hloop. cbn [bind fst].
  change ([p0] ++ Reference.distanceFilter (minDistance opts) p0 rest)
    with (Reference.keptPoints (minDistance opts) (p0 :: rest)).
  pose proof (keptPoints_Forall _ (minDistance opts) _ Hbare) as Hkept.
  set (kept := Reference.keptPoints (minDistance opts) (p0 :: rest)) in *.
  clearbody kept. clear Hloop.
  destruct (length kept <? 3)%nat; [reflexivity|].
  destruct kept as [|s0 kept']; [reflexivity|]. cbn [bind].
  rewrite !for_loop_from.
  rewrite (for_from_ext _ _
             (V1_0_smoothBody_bare opts (s0 :: kept') Hkept)).
  reflexivity.
Qed.

Lemma bare_Forall (pts : list Point) :
  Forall (fun p => pressure p = None) (map V1_0.bare pts).
Proof. apply Forall_forall. intros p Hin. apply in_map_iff in Hin.
  destruct Hin as [q [<- _]]. reflexivity. Qed.

(** C1.  For every input sequence and every fade length other than 0,
    [simplifyStroke] returns, and what it returns is the two-stage
    reference algorithm: an input of fewer than 3 points as it is; otherwise
    the distance filter (first point kept, a later point kept exactly when
    it lies further than [minDistance] from the last kept point), returned
    unchanged when fewer than 3 points remain, and otherwise with every
    interior point blended towards the midpoint of its kept neighbours by
    the fade-weighted ratio and both endpoints unmoved.  The same holds of
    the first revision on its points, which carry no pressure.  (With the
    fade length 0 the quotients [i / fadeLength] of the fade ratio are no
    real numbers, and the smoothing stage is outside this statement.) *)
Theorem simplifyStroke_two_stage :
  forall (opts : Options) (pts : list Point),
    smoothingFadePoints opts <> 0 ->
    simplifyStroke opts pts = Some (Reference.simplify opts pts)
    /\ V1_0.simplifyStroke opts (map V1_0.bare pts)
       = Some (Reference.simplify opts (map V1_0.bare pts)).
Proof.
  intros opts pts _. split.
  - apply simplifyStroke_reference.
  - rewrite (V1_0_simplifyStroke_bare opts _ (bare_Forall pts)).
    apply simplifyStroke_reference.
Qed.

Lemma simplifyStroke_two_stage_witness :
  simplifyStroke defaultOptions Samples.zigzag
  = Some (Reference.simplify defaultOptions Samples.zigzag)
  /\ V1_0.simplifyStroke defaultOptions (map V1_0.bare Samples.zigzag)
     = Some (Reference.simplify defaultOptions
               (map V1_0.bare Samples.zigzag)).
Proof.
  apply (simplifyStroke_two_stage defaultOptions Samples.zigzag).
  simpl. lra.
Defined.

(** *** Re-simplification *)

Section Resimplify.

Variable opts : Options.

Lemma distanceFilter_length (minD : R) (rest : list Point) :
  forall lastKept,
    (length (Reference.distanceFilter minD lastKept rest) <= length rest)%nat.
Proof.
  induction rest as [|p rest IH]; intros lastKept; simpl.
  - lia.
  - destruct (Rgt_dec _ _); simpl.
    + specialize (IH p). lia.
    + specialize (IH lastKept). lia.
Qed.

Lemma keptPoints_length (minD : R) (pts : list Point) :
  (length (Reference.keptPoints minD pts) <= length pts)%nat.
Proof.
  destruct pts as [|p rest]; simpl; [lia|].
  pose proof (distanceFilter_length minD rest p). lia.
Qed.

(** Filtering a filtered sequence keeps all of it. *)
Lemma distanceFilter_idempotent (minD : R) (rest : list Point) :
  forall lastKept,
    Reference.distanceFilter minD lastKept
      (Reference.distanceFilter minD lastKept rest)
    = Reference.distanceFilter minD lastKept rest.
Proof.
  induction rest as [|p rest IH]; intros lastKept; simpl.
  - reflexivity.
  - destruct (Rgt_dec (Reference.distance lastKept p) minD) as [Hfar|Hnear].
    + simpl. destruct (Rgt_dec (Reference.distance lastKept p) minD);
        [|contradiction].
      rewrite IH. reflexivity.
    + apply IH.
Qed.

Lemma keptPoints_idempotent (minD : R) (pts : list Point) :
  Reference.keptPoints minD (Reference.keptPoints minD pts)
  = Reference.keptPoints minD pts.
Proof.
  destruct pts as [|p rest]; simpl; [reflexivity|].
  rewrite distanceFilter_idempotent. reflexivity.
Qed.

Lemma smoothInterior_length (N : nat) (rest : list Point) :
  forall i prev,
    length (Reference.smoothInterior opts N i prev rest) = length rest.
Proof.
  induction rest as [|p rest IH]; intros i prev.
  - reflexivity.
  - destruct rest as [|q rest]; [reflexivity|].
    change (Reference.smoothInterior opts N i prev (p :: q :: rest))
      with (Reference.blend (Reference.fadeRatio opts N i) prev p q
            :: Reference.smoothInterior opts N (S i) p (q :: rest)).
    cbn [length]. rewrite (IH (S i) p). reflexivity.
Qed.

Lemma smoothKept_length (kept : list Point) :
  length (Reference.smoothKept opts kept) = length kept.
Proof.
  destruct kept as [|p rest]; simpl; [reflexivity|].
  rewrite smoothInterior_length. reflexivity.
Qed.

Lemma simplify_length (pts : list Point) :
  (length (Reference.simplify opts pts) <= length pts)%nat.
Proof.
  unfold Reference.simplify.
  destruct (length pts <? 3)%nat; [lia|].
  pose proof (keptPoints_length (minDistance opts) pts).
  destruct (length _ <? 3)%nat; [assumption|].
  rewrite smoothKept_length. assumption.
Qed.

Lemma blend_0 (prev current next : Point) :
  Reference.blend 0 prev current next = current.
Proof.
  destruct current as [cx cy ct cp]. unfold Reference.blend. simpl.
  f_equal; lra.
Qed.

Hypothesis ratio_0 : smoothingRatio opts = 0.

Lemma fadeRatio_0 (N i : nat) : Reference.fadeRatio opts N i = 0.
Proof. unfold Reference.fadeRatio. rewrite ratio_0. lra. Qed.

Lemma smoothInterior_0 (N : nat) (rest : list Point) :
  forall i prev, Reference.smoothInterior opts N i prev rest = rest.
Proof.
  induction rest as [|p rest IH]; intros i prev.
  - reflexivity.
  - destruct rest as [|q rest]; [reflexivity|].
    change (Reference.smoothInterior opts N i prev (p :: q :: rest))
      with (Reference.blend (Reference.fadeRatio opts N i) prev p q
            :: Reference.smoothInterior opts N (S i) p (q :: rest)).
    rewrite IH, fadeRatio_0, blend_0. reflexivity.
Qed.

Lemma smoothKept_0 (kept : list Point) : Reference.smoothKept opts kept = kept.
Proof.
  destruct kept as [|p rest]; simpl; [reflexivity|].
  rewrite smoothInterior_0. reflexivity.
Qed.

(** Without smoothing the simplifier is the distance filter, a projection. *)
Lemma simplify_fixed_0 (pts : list Point) :
  Reference.simplify opts (Reference.simplify opts pts)
  = Reference.simplify opts pts.
Proof.
  destruct (length pts <? 3)%nat eqn:Hshort.
  - assert (Hpts : Reference.simplify opts pts = pts)
      by (unfold Reference.simplify; rewrite Hshort; reflexivity).
    rewrite !Hpts. reflexivity.
  - set (kept := Reference.keptPoints (minDistance opts) pts).
    assert (Hpts : Reference.simplify opts pts = kept).
    { unfold Reference.simplify. rewrite Hshort. fold kept.
      destruct (length kept <? 3)%nat; [reflexivity|apply smoothKept_0]. }
    rewrite !Hpts. unfold Reference.simplify.
    destruct (length kept <? 3)%nat eqn:Hfew; [reflexivity|].
    assert (Hidem : Reference.keptPoints (minDistance opts) kept = kept)
      by apply keptPoints_idempotent.
    rewrite Hidem, Hfew. apply smoothKept_0.
Qed.

End Resimplify.

Lemma simplify_fixed_short (opts : Options) (once : list Point) :
  (length once < 3)%nat -> Reference.simplify opts once = once.
Proof.
  intros Hshort. unfold Reference.simplify.
  apply Nat.ltb_lt in Hshort. rewrite Hshort. reflexivity.
Qed.

(** C7, as amended.  For a fade length other than 0, simplifying the output
    of the simplifier again never keeps more points than the first pass
    kept, and returns that output unchanged whenever smoothing did not act
    on it: when [smoothingRatio] is 0, or when the output has fewer than 3
    points. *)
Theorem simplifyStroke_again :
  forall (opts : Options) (pts once : list Point),
    smoothingFadePoints opts <> 0 ->
    simplifyStroke opts pts = Some once ->
    exists twice,
      simplifyStroke opts once = Some twice
      /\ (length twice <= length once)%nat
      /\ (smoothingRatio opts = 0 \/ (length once < 3)%nat -> twice = once).
Proof.
  intros opts pts once _ Honce.
  rewrite simplifyStroke_reference in Honce. injection Honce as <-.
  exists (Reference.simplify opts (Reference.simplify opts pts)).
  split; [apply simplifyStroke_reference|].
  split; [apply simplify_length|].
  intros [Hratio|Hshort].
  - apply simplify_fixed_0. exact Hratio.
  - apply simplify_fixed_short. exact Hshort.
Qed.

(** *** A second pass that moves and drops points *)

Lemma distance_level (p q : Point) :
  y q - y p = 0 -> Reference.distance p q = Rabs (x q - x p).
Proof.
  intros Hlevel. unfold Reference.distance. rewrite Hlevel. apply hypot_0_r.
Qed.

Lemma distanceFilter_far (minD : R) (lastKept p : Point) (rest : list Point) :
  Reference.distance lastKept p > minD ->
  Reference.distanceFilter minD lastKept (p :: rest)
  = p :: Reference.distanceFilter minD p rest.
Proof. intros Hfar. simpl. destruct (Rgt_dec _ _); [reflexivity|contradiction]. Qed.

Lemma distanceFilter_near (minD : R) (lastKept p : Point) (rest : list Point) :
  Reference.distance lastKept p <= minD ->
  Reference.distanceFilter minD lastKept (p :: rest)
  = Reference.distanceFilter minD lastKept rest.
Proof. intros Hnear. simpl. destruct (Rgt_dec _ _); [lra|reflexivity]. Qed.

Ltac level_distance :=
  rewrite distance_level by (simpl; lra);
  simpl; unfold Rabs; destruct (Rcase_abs _); lra.

Lemma fadeRatio_default_4_1 : Reference.fadeRatio defaultOptions 4 1 = 1 / 8.
Proof.
  unfold Reference.fadeRatio. simpl.
  unfold Rmin; repeat destruct (Rle_dec _ _); lra.
Qed.

Lemma fadeRatio_default_4_2 : Reference.fadeRatio defaultOptions 4 2 = 0.
Proof.
  unfold Reference.fadeRatio. simpl.
  unfold Rmin; repeat destruct (Rle_dec _ _); lra.
Qed.

Lemma zigzag_once :
  Reference.simplify defaultOptions Samples.zigzag
  = [Samples.onAxis 0 0;
     Reference.blend (1 / 8) (Samples.onAxis 0 0) (Samples.onAxis (85 / 100) 10)
                     (Samples.onAxis (-1) 20);
     Reference.blend 0 (Samples.onAxis (85 / 100) 10) (Samples.onAxis (-1) 20)
                     (Samples.onAxis 5 30);
     Samples.onAxis 5 30].
Proof.
  unfold Reference.simplify, Samples.zigzag. cbn [length Nat.ltb Nat.leb].
  unfold Reference.keptPoints.
  rewrite distanceFilter_far by level_distance.
  rewrite distanceFilter_far by level_distance.
  rewrite distanceFilter_far by level_distance.
  cbn [Reference.distanceFilter length Nat.ltb Nat.leb].
  cbn [Reference.smoothKept Reference.smoothInterior length].
  rewrite fadeRatio_default_4_1, fadeRatio_default_4_2. reflexivity.
Qed.

Lemma zigzag_twice_length :
  length (Reference.simplify defaultOptions
            (Reference.simplify defaultOptions Samples.zigzag)) = 3%nat.
Proof.
  rewrite zigzag_once.
  unfold Reference.simplify. cbn [length Nat.ltb Nat.leb].
  unfold Reference.keptPoints.
  rewrite distanceFilter_near by level_distance.
  rewrite distanceFilter_far by level_distance.
  rewrite distanceFilter_far by level_distance.
  cbn [Reference.distanceFilter length Nat.ltb Nat.leb].
  rewrite smoothKept_length. reflexivity.
Qed.

(** C7, as stated, fails: with the default options the simplifier maps the
    four-point stroke [zigzag] to four points, and maps those four points to
    three other points. *)
Lemma simplifyStroke_second_pass_differs :
  exists once twice,
    simplifyStroke defaultOptions Samples.zigzag = Some once
    /\ simplifyStroke defaultOptions once = Some twice
    /\ twice <> once
    /\ (length twice < length once)%nat.
Proof.
  exists (Reference.simplify defaultOptions Samples.zigzag),
         (Reference.simplify defaultOptions
            (Reference.simplify defaultOptions Samples.zigzag)).
  assert (Honce : length (Reference.simplify defaultOptions Samples.zigzag)
                  = 4%nat) by (rewrite zigzag_once; reflexivity).
  pose proof zigzag_twice_length as Htwice.
  repeat split; try apply simplifyStroke_reference.
  - intros Heq. rewrite Heq in Htwice. lia.
  - lia.
Qed.

Lemma simplifyStroke_again_witness :
  let once :=
    [Samples.onAxis 0 0;
     Reference.blend (1 / 8) (Samples.onAxis 0 0) (Samples.onAxis (85 / 100) 10)
                     (Samples.onAxis (-1) 20);
     Reference.blend 0 (Samples.onAxis (85 / 100) 10) (Samples.onAxis (-1) 20)
                     (Samples.onAxis 5 30);
     Samples.onAxis 5 30] in
  simplifyStroke defaultOptions Samples.zigzag = Some once
  /\ exists twice,
       simplifyStroke defaultOptions once = Some twice
       /\ (length twice <= 4)%nat.
Proof.
  intros once.
  assert (Honce : simplifyStroke defaultOptions Samples.zigzag = Some once)
    by (rewrite simplifyStroke_reference, zigzag_once; reflexivity).
  split; [exact Honce|].
  assert (Hfade : smoothingFadePoints defaultOptions <> 0) by (simpl; lra).
  destruct (simplifyStroke_again defaultOptions Samples.zigzag once
              Hfade Honce)
    as [twice [Htwice [Hlength _]]].
  exists twice. split; [exact Htwice|exact Hlength].
Defined.

(** ** The Width Modulator *)

Section WidthFacts.

Variable opts : Options.
Variables minW maxW : R.

Lemma pressureBetween_spec (p : Point) :
  pressureBetween p = true
  <-> exists pr, pressure p = Some pr /\ 0 < pr < 1.
Proof.
  unfold pressureBetween. destruct (pressure p) as [pr|].
  - destruct (Rgt_dec pr 0) as [Hpos|Hneg]; [destruct (Rlt_dec pr 1) as [Hlt|Hge]|].
    + split; [intros _; exists pr; split; [reflexivity|lra]|reflexivity].
    + split; [discriminate|]. intros [q [Hq Hrange]]. injection Hq as <-. lra.
    + split; [discriminate|]. intros [q [Hq Hrange]]. injection Hq as <-. lra.
  - split; [discriminate|]. intros [q [Hq _]]. discriminate.
Qed.

Lemma usePressure_spec (pts : list Point) :
  usePressure opts pts = true
  <-> pressureSupport opts = true
      /\ exists p pr, In p pts /\ pressure p = Some pr /\ 0 < pr < 1.
Proof.
  unfold usePressure. rewrite andb_true_iff, existsb_exists.
  split; intros [Hsupport Hsome]; (split; [exact Hsupport|]).
  - destruct Hsome as [p [Hin Hbetween]].
    apply pressureBetween_spec in Hbetween. destruct Hbetween as [pr Hpr].
    exists p, pr. tauto.
  - destruct Hsome as [p [pr [Hin Hpr]]].
    exists p. split; [exact Hin|]. apply pressureBetween_spec. exists pr. exact Hpr.
Qed.

(** The loop in pressure mode. *)
Lemma pressure_loop (quot : R -> R -> R) (rest : list Point) :
  forall (pre : list Point) (acc : list jsnum) (v : R),
    for_from (length rest) (length pre)
             (widthBody opts quot (pre ++ rest) minW maxW true) (acc, v)
    = Some (acc ++ map (Reference.pressureWidth minW maxW) rest, v).
Proof.
  induction rest as [|p rest IH]; intros pre acc v; simpl.
  - rewrite app_nil_r. reflexivity.
  - rewrite at_index_middle. cbn [bind].
    specialize (IH (pre ++ [p])
                   (acc ++ [Reference.pressureWidth minW maxW p]) v).
    rewrite length_app, Nat.add_1_r, <- app_cons_assoc in IH.
    unfold Reference.pressureWidth in IH at 1. rewrite IH.
    rewrite <- app_assoc. reflexivity.
Qed.

Lemma calculateWidths_pressure (quot : R -> R -> R) (pts : list Point) :
  usePressure opts pts = true ->
  calculateWidthsWith opts quot pts minW maxW
  = Some (map (Reference.pressureWidth minW maxW) pts).
Proof.
  intros Hmode. unfold calculateWidthsWith. rewrite Hmode, for_loop_from.
  rewrite Nat.sub_0_r.
  pose proof (pressure_loop quot pts [] [] 0) as Hloop. simpl in Hloop.
  rewrite Hloop. reflexivity.
Qed.

(** The velocity block at an index after the first. *)
Lemma instantVelocity_step (quot : R -> R -> R) (pre : list Point)
    (prev p : Point) (rest : list Point) (v : R) :
  instantVelocity quot (pre ++ prev :: p :: rest) (S (length pre)) v
  = Some (if (0 <? time p - time prev)%Z
          then quot (Reference.distance prev p) (IZR (time p - time prev))
          else v).
Proof.
  unfold instantVelocity. cbn [Nat.ltb Nat.leb].
  assert (Hp : at_index (pre ++ prev :: p :: rest) (S (length pre)) = Some p).
  { rewrite (app_cons_assoc pre prev).
    replace (S (length pre)) with (length (pre ++ [prev]))
      by (rewrite length_app; simpl; lia).
    apply at_index_middle. }
  assert (Hprev : at_index (pre ++ prev :: p :: rest) (S (length pre) - 1)
                  = Some prev).
  { replace (S (length pre) - 1)%nat with (length pre) by lia.
    apply at_index_middle. }
  rewrite Hp, Hprev. reflexivity.
Qed.

(** The loop in velocity mode, from an index after the first. *)
Lemma velocity_loop (rest : list Point) :
  forall (pre : list Point) (prev : Point) (acc : list jsnum) (v : R),
  exists v',
    for_from (length rest) (S (length pre))
             (widthBody opts Rdiv (pre ++ prev :: rest) minW maxW false)
             (acc, v)
    = Some (acc ++ map Num
              (Reference.velocityWidthsFrom Reference.whenNotPositive
                 (velocityFilterWeight opts) minW maxW prev v rest),
            v').
Proof.
  induction rest as [|p rest IH]; intros pre prev acc v.
  - exists v. simpl. rewrite app_nil_r. reflexivity.
  - cbn [length for_from widthBody].
    rewrite instantVelocity_step. cbn [bind].
    set (dt := (time p - time prev)%Z).
    set (vInstant := if (0 <? dt)%Z
                     then Reference.distance prev p / IZR dt else v).
    set (v1 := vInstant * (1 - velocityFilterWeight opts)
               + v * velocityFilterWeight opts).
    destruct (IH (pre ++ [prev]) p
                 (acc ++ [Num (Rmax minW (Rmin maxW (maxW - v1 * (15 / 10))))])
                 v1) as [v' Hloop].
    rewrite length_app, Nat.add_1_r, <- app_cons_assoc in Hloop.
    exists v'. rewrite Hloop. f_equal. f_equal.
    rewrite <- app_assoc. f_equal.
    cbn [Reference.velocityWidthsFrom map app]. fold dt.
    assert (Hinst : (if Reference.whenNotPositive dt then v
                     else Reference.distance prev p / IZR dt) = vInstant).
    { unfold vInstant, Reference.whenNotPositive.
      destruct (Z.leb_spec dt 0), (Z.ltb_spec 0 dt); try reflexivity; lia. }
    rewrite Hinst. reflexivity.
Qed.

Lemma calculateWidths_velocity (pts : list Point) :
  usePressure opts pts = false ->
  calculateWidths opts pts minW maxW
  = Some (map Num (Reference.velocityWidths Reference.whenNotPositive
                     (velocityFilterWeight opts) minW maxW pts)).
Proof.
  intros Hmode. unfold calculateWidths, calculateWidthsWith.
  rewrite Hmode, for_loop_from, Nat.sub_0_r.
  destruct pts as [|first rest]; [reflexivity|].
  cbn [length for_from widthBody instantVelocity Nat.ltb Nat.leb bind].
  set (v0 := 0 * (1 - velocityFilterWeight opts)
             + 0 * velocityFilterWeight opts).
  destruct (velocity_loop rest [] first
              ([] ++ [Num (Rmax minW (Rmin maxW (maxW - v0 * (15 / 10))))]) v0)
    as [v' Hloop].
  cbn [length app] in Hloop. cbn [app]. rewrite Hloop. reflexivity.
Qed.

(** The first revision always runs the velocity branch. *)
Lemma V1_0_calculateWidths_velocity (pts : list Point) :
  V1_0.calculateWidths opts pts minW maxW
  = Some (map Num (Reference.velocityWidths Reference.whenNotPositive
                     (velocityFilterWeight opts) minW maxW pts)).
Proof.
  unfold V1_0.calculateWidths. rewrite for_loop_from, Nat.sub_0_r.
  rewrite (for_from_ext _ (widthBody opts Rdiv pts minW maxW false))
    by (intros i [ws v]; reflexivity).
  destruct pts as [|first rest]; [reflexivity|].
  cbn [length for_from widthBody instantVelocity Nat.ltb Nat.leb bind].
  set (v0 := 0 * (1 - velocityFilterWeight opts)
             + 0 * velocityFilterWeight opts).
  destruct (velocity_loop rest [] first
              ([] ++ [Num (Rmax minW (Rmin maxW (maxW - v0 * (15 / 10))))]) v0)
    as [v' Hloop].
  cbn [length app] in Hloop. cbn [app]. rewrite Hloop. reflexivity.
Qed.

(** The first point is drawn at [maxWidth] clamped against [minWidth]. *)
Lemma velocityWidths_first (fallsBack : Z -> bool) (weight : R)
    (first : Point) (rest : list Point) :
  hd_error (Reference.velocityWidths fallsBack weight minW maxW (first :: rest))
  = Some (Rmax minW maxW).
Proof.
  simpl. unfold Reference.clamp. f_equal. f_equal.
  replace (maxW - (0 * (1 - weight) + 0 * weight) * (15 / 10)) with maxW by lra.
  apply Rmin_left. lra.
Qed.

End WidthFacts.

(** *** Which quotients the velocity loop takes *)

Section Quotients.

Variable quot : R -> R -> R.
Hypothesis quot_positive : forall a b : R, 0 < b -> quot a b = a / b.



End Quotients.


(** *** Length and range of the widths *)

Section WidthRange.

Variables minW maxW : R.

Lemma velocityWidthsFrom_length (fallsBack : Z -> bool) (weight : R)
    (rest : list Point) :
  forall prev v,
    length (Reference.velocityWidthsFrom fallsBack weight minW maxW prev v rest)
    = length rest.
Proof.
  induction rest as [|p rest IH]; intros prev v; simpl; [reflexivity|].
  rewrite IH. reflexivity.
Qed.

Lemma velocityWidths_length (fallsBack : Z -> bool) (weight : R)
    (pts : list Point) :
  length (Reference.velocityWidths fallsBack weight minW maxW pts) = length pts.
Proof.
  destruct pts as [|first rest]; simpl; [reflexivity|].
  rewrite velocityWidthsFrom_length. reflexivity.
Qed.

Hypothesis ordered : minW <= maxW.




End WidthRange.

(** C2, as amended.  In velocity mode the Width Modulator returns, for every
    point sequence, the widths of the filtered-velocity recurrence: the
    instantaneous velocity is 0 at the first point and otherwise the
    distance from the previous point divided by the time delta, or the
    previous filtered velocity when the time delta is zero or negative; the
    filtered velocity becomes
    [v_instant * (1 - weight) + v_filtered * weight]; the width is
    [clamp(maxWidth - v_filtered * 1.5, minWidth, maxWidth)].  The first
    width is [maxWidth] clamped against [minWidth].  The first revision,
    which has the velocity branch only, returns the same widths. *)
Theorem calculateWidths_velocity_mode :
  forall (opts : Options) (pts : list Point) (minW maxW : R),
    let widths :=
      Reference.velocityWidths Reference.whenNotPositive
        (velocityFilterWeight opts) minW maxW pts in
    (usePressure opts pts = false ->
     calculateWidths opts pts minW maxW = Some (map Num widths))
    /\ V1_0.calculateWidths opts pts minW maxW = Some (map Num widths)
    /\ (pts <> [] -> hd_error widths = Some (Rmax minW maxW)).
Proof.
  intros opts pts minW maxW widths. repeat split.
  - apply calculateWidths_velocity.
  - apply V1_0_calculateWidths_velocity.
  - intros Hne. destruct pts as [|first rest]; [congruence|].
    apply velocityWidths_first.
Qed.


(** *** A stroke whose clock runs backwards *)

Lemma rewound_step : Reference.distance (Samples.onAxis 0 0) (Samples.onAxis 1 1) = 1.
Proof. rewrite distance_level by (simpl; lra). simpl. rewrite Rabs_pos_eq; lra. Qed.

Lemma rewound_rest : Reference.distance (Samples.onAxis 1 1) (Samples.onAxis 1 0) = 0.
Proof.
  rewrite distance_level by (simpl; lra). simpl.
  replace (1 - 1) with 0 by lra. apply Rabs_R0.
Qed.

Ltac eval_clamp :=
  unfold Reference.clamp, Rmax, Rmin; repeat destruct (Rle_dec _ _); lra.

(** The code gives the third point of [rewound] the width 2.05. *)
Lemma rewound_third_code :
  nth 2 (Reference.velocityWidths Reference.whenNotPositive
           (7 / 10) (5 / 10) (25 / 10) Samples.rewound) 0
  = 205 / 100.
Proof.
  unfold Samples.rewound, Reference.velocityWidths.
  cbn [Reference.velocityWidthsFrom nth]. simpl.
  rewrite rewound_step. eval_clamp.
Qed.

(** Dividing by the negative time delta would give it the width 2.185. *)
Lemma rewound_third_stated :
  nth 2 (Reference.velocityWidths Reference.whenZero
           (7 / 10) (5 / 10) (25 / 10) Samples.rewound) 0
  = 2185 / 1000.
Proof.
  unfold Samples.rewound, Reference.velocityWidths.
  cbn [Reference.velocityWidthsFrom nth]. simpl.
  rewrite rewound_step, rewound_rest. eval_clamp.
Qed.

Lemma map_Num_injective (l l' : list R) : map Num l = map Num l' -> l = l'.
Proof.
  revert l'. induction l as [|a l IH]; intros [|a' l'] H; simpl in H;
    try discriminate; [reflexivity|].
  injection H as Ha Hl. f_equal; [exact Ha|apply IH; exact Hl].
Qed.

(** C2, as stated, fails: on the stroke [rewound], whose third time delta is
    -1 ms, the code falls back to the previous filtered velocity, and its
    widths are not those of the recurrence that falls back at a zero time
    delta only. *)
Lemma calculateWidths_rewound_differs :
  calculateWidths defaultOptions Samples.rewound (5 / 10) (25 / 10)
  <> Some (map Num
             (Reference.velocityWidths Reference.whenZero
                (velocityFilterWeight defaultOptions) (5 / 10) (25 / 10)
                Samples.rewound)).
Proof.
  rewrite calculateWidths_velocity by reflexivity.
  intros Heq.
  apply (f_equal (fun o => match o with Some l => l | None => [] end)) in Heq.
  apply map_Num_injective in Heq.
  pose proof rewound_third_code as Hcode.
  pose proof rewound_third_stated as Hstated.
  change (velocityFilterWeight defaultOptions) with (7 / 10) in Heq.
  rewrite Heq, Hstated in Hcode. lra.
Qed.

Lemma calculateWidths_velocity_mode_witness :
  calculateWidths defaultOptions Samples.rewound (5 / 10) (25 / 10)
  = Some (map Num
            (Reference.velocityWidths Reference.whenNotPositive
               (velocityFilterWeight defaultOptions) (5 / 10) (25 / 10)
               Samples.rewound))
  /\ hd_error
       (Reference.velocityWidths Reference.whenNotPositive
          (velocityFilterWeight defaultOptions) (5 / 10) (25 / 10)
          Samples.rewound)
     = Some (Rmax (5 / 10) (25 / 10)).
Proof.
  destruct (calculateWidths_velocity_mode defaultOptions Samples.rewound
              (5 / 10) (25 / 10)) as [Hcode [_ Hfirst]].
  split.
  - apply Hcode. reflexivity.
  - apply Hfirst. discriminate.
Defined.










(** ** The stroke collection *)

(** A redraw paints and changes nothing else. *)
Lemma redrawCanvas_paints (st : State) :
  exists ps, redrawCanvas st = Some (paint ps st).
Proof.
  unfold redrawCanvas.
  destruct (isDrawing st && (0 <? length (currentStroke st))%nat).
  - destruct (isLive (smoothingMode (options st))
              && (1 <? length (currentStroke st))%nat).
    + rewrite simplifyStroke_reference. cbn [bind]. eexists. reflexivity.
    + cbn [bind]. eexists. reflexivity.
  - eexists. reflexivity.
Qed.

Lemma removelast_prefix {A : Type} (l : list A) (i : nat) :
  (i < length (removelast l))%nat ->
  nth_error (removelast l) i = nth_error l i.
Proof.
  intros Hi. destruct l as [|a l]; [simpl in Hi; lia|].
  assert (Hne : a :: l <> []) by discriminate.
  rewrite (app_removelast_last a Hne) at 2.
  rewrite nth_error_app1 by exact Hi. reflexivity.
Qed.

(** C8.  On an empty collection [undo] returns [false] and the state it was
    given.  On a non-empty collection it returns [true]; the collection
    before the call is the collection after it followed by one more stroke,
    so exactly the last stroke is gone and every earlier stroke is where and
    what it was; the other private fields and the options are untouched,
    and the listeners are told how many strokes are left. *)
Theorem undo_removes_last_stroke :
  forall st : State,
    (allStrokes st = [] -> undo st = Some (false, st))
    /\ (allStrokes st <> [] ->
        exists st',
          undo st = Some (true, st')
          /\ (exists removed, allStrokes st = allStrokes st' ++ [removed])
          /\ (forall i, (i < length (allStrokes st'))%nat ->
                        nth_error (allStrokes st') i = nth_error (allStrokes st) i)
          /\ options st' = options st
          /\ isDrawing st' = isDrawing st
          /\ currentStroke st' = currentStroke st
          /\ drawing st' = drawing st
          /\ console st' = console st
          /\ emitted st' = emitted st ++ [EvUndo (length (allStrokes st'))]).
Proof.
  intros st. split.
  - intros Hempty. unfold undo. rewrite Hempty. reflexivity.
  - intros Hsome. unfold undo.
    destruct (allStrokes st) as [|s strokes] eqn:Hall; [congruence|].
    cbn [length Nat.ltb Nat.leb].
    destruct (redrawCanvas_paints
                (setAllStrokes (removelast (s :: strokes)) st)) as [ps Hps].
    rewrite Hps. cbn [bind]. eexists. split; [reflexivity|].
    cbn [emit paint setAllStrokes allStrokes options isDrawing currentStroke
         drawing console emitted].
    split; [|split; [|repeat split]].
    + exists (last (s :: strokes) s). apply app_removelast_last. discriminate.
    + intros i Hi. apply removelast_prefix. exact Hi.
Qed.

Lemma undo_removes_last_stroke_witness :
  undo (setAllStrokes [] Samples.signed)
  = Some (false, setAllStrokes [] Samples.signed)
  /\ exists st',
       undo Samples.signed = Some (true, st')
       /\ allStrokes st' = [Samples.dash].
Proof.
  split.
  - apply (proj1 (undo_removes_last_stroke (setAllStrokes [] Samples.signed))).
    reflexivity.
  - destruct (proj2 (undo_removes_last_stroke Samples.signed))
      as [st' [Hundo [[removed Hall] _]]]; [discriminate|].
    exists st'. split; [exact Hundo|].
    change (allStrokes Samples.signed) with ([Samples.dash] ++ [Samples.dash])
      in Hall.
    apply app_inj_tail in Hall. symmetry. apply Hall.
Defined.

(** C9.  Given anything but an array, [fromData] writes one line to the
    console, completes normally, and leaves the collection, the other
    private fields, the options, the canvas and the listeners as they were.
    Given an array, it makes that array the collection, after a [clear]. *)
Theorem fromData_array_or_nothing :
  forall (data : JsValue) (st : State),
    ((forall elements, data <> JsArray elements) ->
     exists st',
       fromData data st = Some st'
       /\ console st' = console st ++ ["Data to load must be an array."%string]
       /\ allStrokes st' = allStrokes st
       /\ options st' = options st
       /\ isDrawing st' = isDrawing st
       /\ currentStroke st' = currentStroke st
       /\ drawing st' = drawing st
       /\ surface st' = surface st
       /\ emitted st' = emitted st)
    /\ (forall elements,
          data = JsArray elements ->
          exists st',
            fromData data st = Some st'
            /\ allStrokes st' = elements
            /\ isDrawing st' = false
            /\ currentStroke st' = []
            /\ console st' = console st
            /\ emitted st' = emitted st ++ [EvClear; EvLoad (length elements)]).
Proof.
  intros data st. split.
  - intros Hother. exists (console_error "Data to load must be an array." st).
    split; [|repeat split].
    destruct data; try reflexivity. exfalso. apply (Hother elements). reflexivity.
  - intros elements ->. unfold fromData, clear. cbn [isArray].
    destruct (redrawCanvas_paints (resetState st)) as [ps Hps].
    rewrite Hps. cbn [bind].
    destruct (redrawCanvas_paints
                (setAllStrokes elements (emit EvClear (paint ps (resetState st)))))
      as [ps' Hps'].
    rewrite Hps'. cbn [bind]. eexists. split; [reflexivity|].
    cbn [emit paint setAllStrokes resetState allStrokes isDrawing
         currentStroke console emitted].
    repeat split. rewrite <- app_assoc. reflexivity.
Qed.

Lemma fromData_array_or_nothing_witness :
  (exists st',
      fromData JsNull Samples.signed = Some st'
      /\ allStrokes st' = [Samples.dash; Samples.dash])
  /\ (exists st',
         fromData (JsArray [Samples.dash]) Samples.signed = Some st'
         /\ allStrokes st' = [Samples.dash]).
Proof.
  split.
  - destruct (proj1 (fromData_array_or_nothing JsNull Samples.signed))
      as [st' [Hload [_ [Hall _]]]]; [discriminate|].
    exists st'. split; [exact Hload|exact Hall].
  - destruct (proj2 (fromData_array_or_nothing (JsArray [Samples.dash])
                       Samples.signed) [Samples.dash] eq_refl)
      as [st' [Hload [Hall _]]].
    exists st'. split; [exact Hload|exact Hall].
Defined.

(** ** The dot of a single point *)

Lemma round_half_up_eq (r : R) (n : Z) :
  IZR n - 1 / 2 <= r < IZR n + 1 / 2 -> round_half_up r = n.
Proof.
  intros [Hlo Hhi]. unfold round_half_up.
  rewrite <- (tech_up (r + 1 / 2) (n + 1)).
  - lia.
  - rewrite plus_IZR. lra.
  - rewrite plus_IZR. lra.
Qed.

Lemma round_half_up_near (r : R) :
  r - 1 / 2 < IZR (round_half_up r) <= r + 1 / 2.
Proof.
  unfold round_half_up. rewrite minus_IZR.
  destruct (archimed (r + 1 / 2)) as [Hup Hdown]. lra.
Qed.

(** [toFixed(2)] writes a number within half a hundredth of its argument. *)
Lemma toFixed2_near (v : R) : Rabs (IZR (toFixed2 v) / 100 - v) <= 1 / 200.
Proof.
  unfold toFixed2. destruct (Rlt_dec v 0) as [Hneg|Hpos].
  - rewrite opp_IZR. pose proof (round_half_up_near (- v * 100)) as Hnear.
    apply Rabs_le. lra.
  - pose proof (round_half_up_near (v * 100)) as Hnear.
    apply Rabs_le. lra.
Qed.

Lemma toFixed2_0 : toFixed2 0 = 0%Z.
Proof.
  unfold toFixed2. destruct (Rlt_dec 0 0); [lra|].
  apply round_half_up_eq. simpl. lra.
Qed.

Lemma toFixed2_offGrid : toFixed2 (1 / 1000) = 0%Z.
Proof.
  unfold toFixed2. destruct (Rlt_dec (1 / 1000) 0); [lra|].
  apply round_half_up_eq. simpl. lra.
Qed.

Section Dot.

Import Geometry.

Variables (c : R * R) (r : R).
Hypothesis r_positive : 0 < r.

Lemma circle_boundingBox :
  boundingBox (onCircle c r) (fst c - r) (fst c + r) (snd c - r) (snd c + r).
Proof.
  unfold boundingBox, onCircle, sqdist. split; [|repeat split].
  - intros [zx zy]. destruct c as [cx cy]. simpl. intros Hon.
    pose proof (Rle_0_sqr (zx - cx)) as Hx. pose proof (Rle_0_sqr (zy - cy)) as Hy.
    unfold Rsqr in Hx, Hy.
    split; split; apply Rnot_lt_le; intros Hout.
    + assert (0 < (cx - r - zx) * (cx + r - zx)) by (apply Rmult_lt_0_compat; lra).
      nra.
    + assert (0 < (zx - (cx + r)) * (zx - (cx - r))) by (apply Rmult_lt_0_compat; lra).
      nra.
    + assert (0 < (cy - r - zy) * (cy + r - zy)) by (apply Rmult_lt_0_compat; lra).
      nra.
    + assert (0 < (zy - (cy + r)) * (zy - (cy - r))) by (apply Rmult_lt_0_compat; lra).
      nra.
  - exists (fst c - r, snd c). simpl. split; [ring|reflexivity].
  - exists (fst c + r, snd c). simpl. split; [ring|reflexivity].
  - exists (fst c, snd c - r). simpl. split; [ring|reflexivity].
  - exists (fst c, snd c + r). simpl. split; [ring|reflexivity].
Qed.

(** The two arcs of the dot, drawn with the pen at the left end of the
    horizontal diameter, are the circle of radius [r] about [c]. *)
Lemma dot_arcs_circle (z : R * R) :
  inked (fst c + - r, snd c + 0)
        [ArcBy (Plain r) (Plain r) 0 true false (Plain (r * 2)) (Plain 0);
         ArcBy (Plain r) (Plain r) 0 true false (Minus (r * 2)) (Plain 0)] z
  <-> onCircle c r z.
Proof.
  destruct c as [cx cy], z as [zx zy]. simpl fst. simpl snd.
  unfold onCircle, sqdist. simpl fst. simpl snd. split.
  - intros Hink.
    inversion Hink as [| |pen r0 ? ? ? ? ? ? ? Hr Hchord [Hon _]
                          |pen r0 ? ? ? ? ? ? ? Hlater]; subst.
    + unfold sqdist, midpoint in Hon. simpl in Hon. nra.
    + simpl in Hlater.
      inversion Hlater as [| |pen' r1 ? ? ? ? ? ? ? Hr Hchord [Hon _]
                              |pen' r1 ? ? ? ? ? ? ? Hnone]; subst.
      * unfold sqdist, midpoint in Hon. simpl in Hon. nra.
      * inversion Hnone.
  - intros Hon. destruct (Rle_dec cy zy) as [Hbelow|Habove].
    + apply inked_arc_here.
      * simpl. exact r_positive.
      * unfold sqdist. simpl. ring.
      * split.
        -- unfold sqdist, midpoint. simpl. nra.
        -- unfold cross. simpl. nra.
    + apply inked_arc_later, inked_arc_here.
      * simpl. exact r_positive.
      * unfold sqdist. simpl. ring.
      * split.
        -- unfold sqdist, midpoint. simpl. nra.
        -- unfold cross. simpl. nra.
Qed.

End Dot.

Lemma dot_circle (p : Point) (r : R) (start z : R * R) :
  0 < r ->
  Geometry.inked start (Reference.dotPath p r) z
  <-> Geometry.onCircle
        (IZR (toFixed2 (x p)) / 100, IZR (toFixed2 (y p)) / 100) r z.
Proof.
  intros Hr. unfold Reference.dotPath.
  rewrite <- (dot_arcs_circle _ r Hr z). simpl fst. simpl snd. split.
  - intros Hink. inversion Hink as [? ? ? ? ? Hmoved| | |]; subst.
    inversion Hmoved as [|? ? ? ? ? Hby| |]; subst. exact Hby.
  - intros Hink. apply Geometry.inked_moveTo, Geometry.inked_moveBy. exact Hink.
Qed.

Lemma boundingBox_iff (S S' : R * R -> Prop) (xmin xmax ymin ymax : R) :
  (forall z, S z <-> S' z) ->
  Geometry.boundingBox S' xmin xmax ymin ymax ->
  Geometry.boundingBox S xmin xmax ymin ymax.
Proof.
  intros Hiff [Hin [[z1 [H1 E1]] [[z2 [H2 E2]] [[z3 [H3 E3]] [z4 [H4 E4]]]]]].
  split; [intros z Hz; apply Hin, Hiff, Hz|].
  repeat split; [exists z1|exists z2|exists z3|exists z4];
    (split; [apply Hiff; assumption|assumption]).
Qed.

Lemma dot_path (opts : Options) (p : Point) (widths : list jsnum) :
  generateSmoothSvgPathData opts [p] widths
  = Some (Reference.dotPath p (or_else (maxWidth opts) (dotSize opts) / 2)).
Proof. reflexivity. Qed.

(** C5, as amended.  For every single-point input the Outline Path Builder
    emits the dot path: a move to the point written with two decimals, and
    two relative arcs of half a turn of radius
    [r = (options.maxWidth || options.dotSize) / 2], which is
    [options.maxWidth / 2] when that option is not zero, whatever the widths
    array holds.  The written centre lies within 0.005 of the point in each
    coordinate.  For [r > 0] the path is the full circle of radius [r] about
    the written centre [(cx, cy)], and its axis-aligned bounding box is
    exactly [cx - r, cx + r] x [cy - r, cy + r]. *)
Theorem single_point_dot :
  forall (opts : Options) (p : Point) (widths : list jsnum),
    let r := or_else (maxWidth opts) (dotSize opts) / 2 in
    let cx := IZR (toFixed2 (x p)) / 100 in
    let cy := IZR (toFixed2 (y p)) / 100 in
    generateSmoothSvgPathData opts [p] widths = Some (Reference.dotPath p r)
    /\ (maxWidth opts <> 0 -> r = maxWidth opts / 2)
    /\ Rabs (cx - x p) <= 1 / 200
    /\ Rabs (cy - y p) <= 1 / 200
    /\ (0 < r ->
        forall start,
          (forall z, Geometry.inked start (Reference.dotPath p r) z
                     <-> Geometry.onCircle (cx, cy) r z)
          /\ Geometry.boundingBox
               (Geometry.inked start (Reference.dotPath p r))
               (cx - r) (cx + r) (cy - r) (cy + r)).
Proof.
  intros opts p widths r cx cy.
  split; [apply dot_path|].
  split; [intros Hmax; unfold r, or_else;
          destruct (Req_dec_T (maxWidth opts) 0); [contradiction|reflexivity]|].
  split; [apply toFixed2_near|]. split; [apply toFixed2_near|].
  intros Hr start. split.
  - intros z. apply dot_circle. exact Hr.
  - apply (boundingBox_iff _ (Geometry.onCircle (cx, cy) r)).
    + intros z. apply dot_circle. exact Hr.
    + apply (circle_boundingBox (cx, cy) r Hr).
Qed.

Lemma default_radius :
  or_else (maxWidth defaultOptions) (dotSize defaultOptions) / 2 = 125 / 100.
Proof.
  unfold or_else. simpl. destruct (Req_dec_T (25 / 10) 0); lra.
Qed.

(** C5, as stated, fails twice.  The radius is not [width[0] / 2]: with the
    default options and the width 1 the arcs have radius 1.25.  And the box
    is not centred on the point itself: the point at x = 0.001 is written as
    0.00, so the circle reaches left of [x - r]. *)
Lemma single_point_dot_not_as_stated :
  generateSmoothSvgPathData defaultOptions [Samples.onAxis 0 0] [Num 1]
  <> Some (Reference.dotPathStated (Samples.onAxis 0 0) [1])
  /\ (exists path,
         generateSmoothSvgPathData defaultOptions [Samples.offGrid]
                                   [Num (25 / 10)] = Some path
         /\ ~ Geometry.boundingBox (Geometry.inked (0, 0) path)
                (x Samples.offGrid - 125 / 100) (x Samples.offGrid + 125 / 100)
                (y Samples.offGrid - 125 / 100) (y Samples.offGrid + 125 / 100)).
Proof.
  split.
  - rewrite dot_path, default_radius. intros Heq.
    apply (f_equal (fun o => match o with
                             | Some (_ :: MoveBy (Minus r) _ :: _) => r
                             | _ => 0
                             end)) in Heq.
    simpl in Heq. lra.
  - eexists. split; [apply dot_path|].
    rewrite default_radius. intros [Hinside _].
    assert (Hon : Geometry.inked (0, 0)
                    (Reference.dotPath Samples.offGrid (125 / 100))
                    (0 - 125 / 100, 0)).
    { apply dot_circle; [lra|].
      simpl x. simpl y. rewrite toFixed2_offGrid, toFixed2_0.
      unfold Geometry.onCircle, Geometry.sqdist. simpl. lra. }
    apply Hinside in Hon. simpl in Hon. lra.
Qed.

Lemma single_point_dot_witness :
  let r := or_else (maxWidth defaultOptions) (dotSize defaultOptions) / 2 in
  let cx := IZR (toFixed2 (x Samples.offGrid)) / 100 in
  let cy := IZR (toFixed2 (y Samples.offGrid)) / 100 in
  r = maxWidth defaultOptions / 2
  /\ Geometry.boundingBox
       (Geometry.inked (0, 0) (Reference.dotPath Samples.offGrid r))
       (cx - r) (cx + r) (cy - r) (cy + r).
Proof.
  intros r cx cy.
  destruct (single_point_dot defaultOptions Samples.offGrid [Num 1])
    as [_ [Hradius [_ [_ Hcircle]]]].
  split.
  - apply Hradius. simpl. lra.
  - apply Hcircle. unfold r. rewrite default_radius. lra.
Defined.

(** ** The outline of a stroke *)

Lemma at_index_nth {A : Type} (l : list A) (i : nat) (d : A) :
  (i < length l)%nat -> at_index l i = Some (nth i l d).
Proof. intros Hi. apply nth_error_nth'. exact Hi. Qed.

Lemma halfWidthOf_Num (ws : list R) (i : nat) :
  (i < length ws)%nat ->
  halfWidthOf (map Num ws) i = Ext.Fin (nth i ws 0 / 2).
Proof.
  intros Hi. unfold halfWidthOf.
  rewrite nth_error_map, (nth_error_nth' ws 0 Hi). reflexivity.
Qed.

(** The length that divides the tangent is never zero: that is what
    [|| 1] is for. *)
Lemma tangent_length_nonzero (a b : R) : or_else (hypot a b) 1 <> 0.
Proof.
  unfold or_else. destruct (Req_dec_T (hypot a b) 0) as [Hzero|Hpos];
    [lra|exact Hpos].
Qed.

Lemma xquot_number (a b : R) : b <> 0 -> Ext.xquot a b = Ext.Fin (a / b).
Proof.
  intros Hb. unfold Ext.xquot.
  destruct (Req_dec_T b 0); [contradiction|reflexivity].
Qed.

(** Without the guard a zero tangent has no normal. *)
Lemma xquot_0_0 : Ext.xquot 0 0 = Ext.Nan.
Proof.
  unfold Ext.xquot. destruct (Req_dec_T 0 0) as [_|Hne]; [|contradiction].
  destruct (Rlt_dec 0 0); [lra|reflexivity].
Qed.

Lemma outline_step_eq (acc1 acc2 : list (Ext.xnum * Ext.xnum))
    (a b c d a' b' c' d' : R) :
  a = a' -> b = b' -> c = c' -> d = d' ->
  Some (acc1 ++ [(Ext.Fin a, Ext.Fin b)], acc2 ++ [(Ext.Fin c, Ext.Fin d)])
  = Some (acc1 ++ [finite (a', b')], acc2 ++ [finite (c', d')]).
Proof. intros -> -> -> ->. reflexivity. Qed.

Section OutlineFacts.

Variable pts : list Point.
Variable widths : list jsnum.
Hypothesis several : (2 <= length pts)%nat.

Ltac outline_point :=
  rewrite !xquot_number by apply tangent_length_nonzero;
  unfold halfWidthOf;
  destruct (nth_error widths _) as [[w|]|];
  cbn [Ext.xmul Ext.xadd Ext.xsub]; [|reflexivity|reflexivity];
  unfold or_else; apply outline_step_eq; unfold Rdiv; ring.

Lemma outlineBody_step (i : nat) (acc1 acc2 : list (Ext.xnum * Ext.xnum)) :
  (i < length pts)%nat ->
  outlineBody pts widths i (acc1, acc2)
  = Some (acc1 ++ [outlinePointAt 1 pts widths i],
          acc2 ++ [outlinePointAt (-1) pts widths i]).
Proof.
  intros Hi. unfold outlineBody.
  rewrite (at_index_nth pts i Reference.origin Hi). cbn [bind].
  unfold outlinePointAt, nowhere, Reference.normalAt, Reference.tangentAt.
  destruct (Nat.eqb_spec i 0) as [Hfirst|Hlater].
  - subst i. destruct (Nat.ltb_spec 0 (length pts - 1)) as [_|Hone]; [|lia].
    rewrite (at_index_nth pts (0 + 1) Reference.origin) by lia.
    cbn [Nat.ltb Nat.leb bind fst snd]. outline_point.
  - destruct (Nat.ltb_spec 0 i) as [_|Hzero]; [|lia].
    rewrite (at_index_nth pts (i - 1) Reference.origin) by lia.
    destruct (Nat.eqb_spec i (length pts - 1)) as [Hlast|Hinner].
    + destruct (Nat.ltb_spec i (length pts - 1)) as [Hlt|_]; [lia|].
      cbn [bind fst snd]. outline_point.
    + destruct (Nat.ltb_spec i (length pts - 1)) as [_|Hge]; [|lia].
      rewrite (at_index_nth pts (i + 1) Reference.origin) by lia.
      cbn [bind fst snd]. outline_point.
Qed.

Lemma outline_loop (fuel : nat) :
  forall (i : nat) (acc1 acc2 : list (Ext.xnum * Ext.xnum)),
    (i + fuel <= length pts)%nat ->
    for_from fuel i (outlineBody pts widths) (acc1, acc2)
    = Some (acc1 ++ map (outlinePointAt 1 pts widths) (seq i fuel),
            acc2 ++ map (outlinePointAt (-1) pts widths) (seq i fuel)).
Proof.
  induction fuel as [|fuel IH]; intros i acc1 acc2 Hbound.
  - simpl. rewrite !app_nil_r. reflexivity.
  - cbn [for_from]. rewrite outlineBody_step by lia.
    rewrite IH by lia. cbn [seq map]. rewrite <- !app_assoc. reflexivity.
Qed.

End OutlineFacts.

(** The forward walk: one curve per consecutive pair. *)
Lemma quads_forward (rest : list (Ext.xnum * Ext.xnum)) :
  forall (pre : list (Ext.xnum * Ext.xnum)) (acc : list PathCmd),
    for_from (length rest - 1) (length pre)
             (fun i => quadBody (pre ++ rest) i (i + 1)) acc
    = Some (acc ++ midpointCurves rest).
Proof.
  induction rest as [|p1 rest IH]; intros pre acc.
  - simpl. rewrite app_nil_r. reflexivity.
  - destruct rest as [|p2 rest].
    + simpl. rewrite app_nil_r. reflexivity.
    + replace (length (p1 :: p2 :: rest) - 1)%nat
        with (S (length (p2 :: rest) - 1)) by (simpl; lia).
      cbn [for_from]. unfold quadBody at 1.
      rewrite at_index_middle. cbn [bind].
      assert (Hp2 : at_index (pre ++ p1 :: p2 :: rest) (length pre + 1)
                    = Some p2).
      { rewrite (app_cons_assoc pre p1).
        replace (length pre + 1)%nat with (length (pre ++ [p1]))
          by (rewrite length_app; reflexivity).
        apply at_index_middle. }
      rewrite Hp2. cbn [bind].
      specialize (IH (pre ++ [p1])).
      rewrite length_app, Nat.add_1_r, <- app_cons_assoc in IH.
      rewrite IH. rewrite <- app_assoc. reflexivity.
Qed.

(** The backward walk, told on the reversed outline. *)
Lemma quads_backward (rest : list (Ext.xnum * Ext.xnum)) :
  forall (walked : list (Ext.xnum * Ext.xnum)) (acc : list PathCmd),
    for_down (length rest - 1)
             (fun i => quadBody (rev (walked ++ rest)) (i + 1) i) acc
    = Some (acc ++ midpointCurves rest).
Proof.
  induction rest as [|q1 rest IH]; intros walked acc.
  - simpl. rewrite app_nil_r. reflexivity.
  - destruct rest as [|q2 rest].
    + simpl. rewrite app_nil_r. reflexivity.
    + replace (length (q1 :: q2 :: rest) - 1)%nat
        with (S (length rest)) by (simpl; lia).
      cbn [for_down]. unfold quadBody at 1.
      assert (Hrev : rev (walked ++ q1 :: q2 :: rest)
                     = rev rest ++ q2 :: q1 :: rev walked).
      { rewrite rev_app_distr. cbn [rev]. rewrite <- !app_assoc. reflexivity. }
      assert (Hq1 : at_index (rev (walked ++ q1 :: q2 :: rest)) (length rest + 1)
                    = Some q1).
      { rewrite Hrev, (app_cons_assoc (rev rest) q2).
        replace (length rest + 1)%nat with (length (rev rest ++ [q2]))
          by (rewrite length_app, length_rev; reflexivity).
        apply at_index_middle. }
      assert (Hq2 : at_index (rev (walked ++ q1 :: q2 :: rest)) (length rest)
                    = Some q2).
      { rewrite Hrev, <- (length_rev rest). apply at_index_middle. }
      rewrite Hq1, Hq2. cbn [bind].
      specialize (IH (walked ++ [q1])).
      rewrite <- app_cons_assoc in IH.
      replace (length (q2 :: rest) - 1)%nat with (length rest) in IH
        by (simpl; lia).
      rewrite IH. rewrite <- app_assoc. reflexivity.
Qed.

Lemma outlineOf_length (side : R) (pts : list Point) (widths : list jsnum) :
  length (outlineOf side pts widths) = length pts.
Proof. unfold outlineOf. rewrite length_map, length_seq. reflexivity. Qed.

(** The three loops of the source write the closed path, whatever the
    widths are. *)
Lemma outlineText_code (opts : Options) (pts : list Point)
    (widths : list jsnum) :
  (2 <= length pts)%nat ->
  generateSmoothSvgPathData opts pts widths = Some (outlineText pts widths).
Proof.
  intros Hseveral. unfold generateSmoothSvgPathData.
  destruct (Nat.ltb_spec (length pts) 2) as [Hfew|_]; [lia|].
  rewrite for_loop_from, Nat.sub_0_r.
  rewrite (outline_loop pts widths Hseveral) by lia.
  cbn [bind fst snd app].
  fold (outlineOf 1 pts widths). fold (outlineOf (-1) pts widths).
  set (outline1 := outlineOf 1 pts widths).
  set (outline2 := outlineOf (-1) pts widths).
  assert (Hlen1 : length outline1 = length pts) by apply outlineOf_length.
  assert (Hlen2 : length outline2 = length pts) by apply outlineOf_length.
  rewrite (at_index_nth outline1 0 nowhere) by lia. cbn [bind].
  rewrite (at_index_nth outline2 0 nowhere) by lia. cbn [bind].
  rewrite for_loop_from, Nat.sub_0_r.
  pose proof (quads_forward outline2 []) as Hforward.
  cbn [length app] in Hforward. rewrite Hforward. cbn [bind].
  rewrite (at_index_nth outline2 (length outline2 - 1) nowhere) by lia.
  cbn [bind].
  rewrite (at_index_nth outline1 (length outline1 - 1) nowhere) by lia.
  cbn [bind].
  pose proof (quads_backward (rev outline1) []) as Hbackward.
  cbn [app] in Hbackward. rewrite rev_involutive, length_rev in Hbackward.
  rewrite Hbackward. cbn [bind].
  unfold outlineText. fold outline1. fold outline2.
  rewrite Hlen1, Hlen2.
  unfold capAt, fixedXY.
  cbn [fst snd]. rewrite <- !app_assoc. reflexivity.
Qed.

(** *** Widths that are numbers *)

Lemma outlinePointAt_Num (side : R) (pts : list Point) (ws : list R)
    (i : nat) :
  (i < length ws)%nat ->
  outlinePointAt side pts (map Num ws) i
  = finite (Reference.offsetAt side pts ws i).
Proof.
  intros Hi. unfold outlinePointAt, Reference.offsetAt.
  rewrite nth_error_map, (nth_error_nth' ws 0 Hi). reflexivity.
Qed.

Lemma outlineOf_Num (side : R) (pts : list Point) (ws : list R) :
  length ws = length pts ->
  outlineOf side pts (map Num ws) = map finite (Reference.outline side pts ws).
Proof.
  intros Hmatching. unfold outlineOf, Reference.outline. rewrite map_map.
  apply map_ext_in. intros i Hi. apply in_seq in Hi.
  apply outlinePointAt_Num. lia.
Qed.

Lemma midpointCurves_finite (walk : list (R * R)) :
  midpointCurves (map finite walk) = Reference.midpointQuads walk.
Proof.
  induction walk as [|p1 walk IH]; [reflexivity|].
  destruct walk as [|p2 walk]; [reflexivity|].
  change (map finite (p1 :: p2 :: walk))
    with (finite p1 :: map finite (p2 :: walk)).
  change (midpointCurves (finite p1 :: map finite (p2 :: walk)))
    with (QuadTo (toFixedText (fst (finite p1))) (toFixedText (snd (finite p1)))
            (toFixedText (Ext.xhalf (Ext.xadd (fst (finite p1))
                                              (fst (finite p2)))))
            (toFixedText (Ext.xhalf (Ext.xadd (snd (finite p1))
                                              (snd (finite p2)))))
          :: midpointCurves (map finite (p2 :: walk))).
  rewrite IH. reflexivity.
Qed.

Lemma nth_finite (l : list (R * R)) (i : nat) :
  (i < length l)%nat ->
  nth i (map finite l) nowhere = finite (nth i l (0, 0)).
Proof.
  intros Hi.
  rewrite (nth_indep (map finite l) nowhere (finite (0, 0)))
    by (rewrite length_map; exact Hi).
  apply map_nth.
Qed.

Lemma outline_length (side : R) (pts : list Point) (ws : list R) :
  length (Reference.outline side pts ws) = length pts.
Proof. unfold Reference.outline. rewrite length_map, length_seq. reflexivity. Qed.

Lemma outlineText_Num (pts : list Point) (ws : list R) :
  (2 <= length pts)%nat ->
  length ws = length pts ->
  outlineText pts (map Num ws) = Reference.outlinePath pts ws.
Proof.
  intros Hseveral Hmatching. unfold outlineText, Reference.outlinePath.
  rewrite !(outlineOf_Num _ pts ws Hmatching).
  pose proof (outline_length 1 pts ws) as Hlen1.
  pose proof (outline_length (-1) pts ws) as Hlen2.
  rewrite !nth_finite by lia.
  rewrite <- map_rev, !midpointCurves_finite.
  unfold capAt. rewrite length_map.
  rewrite !halfWidthOf_Num by lia.
  rewrite Hmatching. reflexivity.
Qed.

Lemma outlinePath_code (opts : Options) (pts : list Point) (ws : list R) :
  (2 <= length pts)%nat ->
  length ws = length pts ->
  generateSmoothSvgPathData opts pts (map Num ws)
  = Some (Reference.outlinePath pts ws).
Proof.
  intros Hseveral Hmatching.
  rewrite (outlineText_code opts pts (map Num ws) Hseveral).
  rewrite (outlineText_Num pts ws Hseveral Hmatching). reflexivity.
Qed.

(** C4.  For every sequence of at least 2 points with one width per point
    the Outline Path Builder returns the closed outline path: [outline1] and
    [outline2] are the points displaced by plus and minus
    [normal * width[i] / 2], the normal being [(-tangentY, tangentX) / length]
    of the forward, backward or centred difference with length 1 in place of
    a zero length; the path moves to [outline1[0]], arcs with radius
    [width[0] / 2] to [outline2[0]], walks [outline2] forward by quadratic
    curves through the consecutive midpoints up to its last point, arcs with
    radius [width[last] / 2] to the last point of [outline1], walks
    [outline1] backward by the same curves, and closes.  Every number of
    the path is written with two decimals: the quotient by the length is
    that of the source, which is [NaN] for a zero tangent over a zero
    length, and the substitution of 1 is what keeps it a number. *)
Theorem outline_of_stroke :
  forall (opts : Options) (pts : list Point) (widths : list R),
    (2 <= length pts)%nat ->
    length widths = length pts ->
    generateSmoothSvgPathData opts pts (map Num widths)
    = Some (Reference.outlinePath pts widths).
Proof. intros opts pts widths. apply outlinePath_code. Qed.

Lemma outline_of_stroke_witness :
  generateSmoothSvgPathData defaultOptions
    [Samples.onAxis 0 0; Samples.onAxis 5 30] (map Num [25 / 10; 1])
  = Some (Reference.outlinePath
            [Samples.onAxis 0 0; Samples.onAxis 5 30] [25 / 10; 1]).
Proof.
  apply (outline_of_stroke defaultOptions
           [Samples.onAxis 0 0; Samples.onAxis 5 30] [25 / 10; 1]).
  - simpl. lia.
  - reflexivity.
Defined.

(** *** A pen held still

    Both tangents of the stroke [still] are zero.  Their length is replaced
    by 1, the normals are zero, and the four outline points are the origin:
    with the widths 2 and 2 the path is
    [M0.00,0.00 A1.00,1.00 0 0 1 0.00,0.00 Q0.00,0.00 0.00,0.00 L0.00,0.00
     A1.00,1.00 0 0 1 0.00,0.00 Q0.00,0.00 0.00,0.00 Z]. *)

Lemma toFixed2_1 : toFixed2 1 = 100%Z.
Proof.
  unfold toFixed2. destruct (Rlt_dec 1 0); [lra|].
  apply round_half_up_eq. simpl. lra.
Qed.

Lemma still_offsets (side : R) (i : nat) :
  (i < 2)%nat -> Reference.offsetAt side Samples.still [2; 2] i = (0, 0).
Proof.
  intros Hi.
  assert (Hcases : i = 0%nat \/ i = 1%nat) by lia.
  destruct Hcases as [-> | ->];
    unfold Reference.offsetAt, Reference.normalAt, Reference.tangentAt;
    cbn [Samples.still Samples.onAxis nth Nat.eqb Nat.add Nat.sub length
         x y fst snd];
    f_equal; unfold Rdiv; ring.
Qed.

Example still_outline :
  generateSmoothSvgPathData defaultOptions Samples.still (map Num [2; 2])
  = Some [MoveTo (Fixed 0) (Fixed 0);
          ArcTo (Fixed 100) (Fixed 100) 0 false true (Fixed 0) (Fixed 0);
          QuadTo (Fixed 0) (Fixed 0) (Fixed 0) (Fixed 0);
          LineTo (Fixed 0) (Fixed 0);
          ArcTo (Fixed 100) (Fixed 100) 0 false true (Fixed 0) (Fixed 0);
          QuadTo (Fixed 0) (Fixed 0) (Fixed 0) (Fixed 0);
          ClosePath].
Proof.
  rewrite outlinePath_code by (simpl; lia || reflexivity).
  unfold Reference.outlinePath, Reference.outline.
  change (length Samples.still) with 2%nat.
  cbn [length seq map Nat.sub nth rev app Reference.midpointQuads].
  rewrite !still_offsets by lia.
  unfold Reference.moveTo, Reference.lineTo, Reference.capTo.
  cbn [fst snd nth].
  replace ((0 + 0) / 2) with 0 by lra.
  replace (2 / 2) with 1 by lra.
  rewrite toFixed2_0, toFixed2_1. reflexivity.
Qed.

(** ** A scenario of the specification

    Three points ten pixels apart all survive the filter, and with three
    points the only interior point has fade ratio 0: the stroke is returned
    as it was drawn. *)
Example three_points_unchanged :
  let stroke :=
    [Samples.onAxis 0 0; Samples.onAxis 10 10; Samples.onAxis 20 20] in
  simplifyStroke defaultOptions stroke = Some stroke.
Proof.
  intros stroke. rewrite simplifyStroke_reference.
  unfold Reference.simplify, stroke. cbn [length Nat.ltb Nat.leb].
  unfold Reference.keptPoints.
  rewrite distanceFilter_far by level_distance.
  rewrite distanceFilter_far by level_distance.
  cbn [Reference.distanceFilter length Nat.ltb Nat.leb].
  cbn [Reference.smoothKept Reference.smoothInterior length].
  assert (Hratio : Reference.fadeRatio defaultOptions 3 1 = 0).
  { unfold Reference.fadeRatio. simpl.
    unfold Rmin; repeat destruct (Rle_dec _ _); lra. }
  rewrite Hratio, blend_0. reflexivity.
Qed.

(** * Further properties of the code *)

(** ** The Point Simplifier *)

Lemma subsequence_refl {A : Type} (l : list A) : subsequence l l.
Proof. induction l; constructor; assumption. Qed.

Lemma distanceFilter_subsequence (minD : R) (rest : list Point) :
  forall lastKept,
    subsequence (Reference.distanceFilter minD lastKept rest) rest.
Proof.
  induction rest as [|p rest IH]; intros lastKept; simpl.
  - constructor.
  - destruct (Rgt_dec _ _); constructor; apply IH.
Qed.

Lemma keptPoints_subsequence (minD : R) (pts : list Point) :
  subsequence (Reference.keptPoints minD pts) pts.
Proof.
  destruct pts as [|p rest]; simpl; constructor.
  apply distanceFilter_subsequence.
Qed.

Lemma subsequence_map {A B : Type} (f : A -> B) (l l' : list A) :
  subsequence l l' -> subsequence (map f l) (map f l').
Proof. induction 1; simpl; constructor; assumption. Qed.

Lemma smoothInterior_stamps (opts : Options) (N : nat) (rest : list Point) :
  forall i prev,
    map stamp (Reference.smoothInterior opts N i prev rest) = map stamp rest.
Proof.
  induction rest as [|p rest IH]; intros i prev.
  - reflexivity.
  - destruct rest as [|q rest]; [reflexivity|].
    change (Reference.smoothInterior opts N i prev (p :: q :: rest))
      with (Reference.blend (Reference.fadeRatio opts N i) prev p q
            :: Reference.smoothInterior opts N (S i) p (q :: rest)).
    cbn [map]. rewrite (IH (S i) p). reflexivity.
Qed.

Lemma smoothKept_stamps (opts : Options) (kept : list Point) :
  map stamp (Reference.smoothKept opts kept) = map stamp kept.
Proof.
  destruct kept as [|p rest]; simpl; [reflexivity|].
  rewrite smoothInterior_stamps. reflexivity.
Qed.

Lemma simplify_stamps (opts : Options) (pts : list Point) :
  subsequence (map stamp (Reference.simplify opts pts)) (map stamp pts).
Proof.
  unfold Reference.simplify.
  destruct (length pts <? 3)%nat; [apply subsequence_refl|].
  destruct (length _ <? 3)%nat.
  - apply subsequence_map, keptPoints_subsequence.
  - rewrite smoothKept_stamps. apply subsequence_map, keptPoints_subsequence.
Qed.

Lemma simplify_first (opts : Options) (first : Point) (rest : list Point) :
  exists tail, Reference.simplify opts (first :: rest) = first :: tail.
Proof.
  unfold Reference.simplify.
  destruct (length (first :: rest) <? 3)%nat; [eexists; reflexivity|].
  cbn [Reference.keptPoints].
  destruct (length _ <? 3)%nat; eexists; reflexivity.
Qed.

(** X1.  The simplifier never empties a stroke and never adds to it: the
    stroke it returns starts with the first input point, unmoved, and has at
    most as many points as the input. *)
Theorem simplifyStroke_keeps_first_point :
  forall (opts : Options) (first : Point) (rest : list Point),
    exists tail,
      simplifyStroke opts (first :: rest) = Some (first :: tail)
      /\ (length tail <= length rest)%nat.
Proof.
  intros opts first rest.
  destruct (simplify_first opts first rest) as [tail Htail].
  exists tail. split.
  - rewrite simplifyStroke_reference, Htail. reflexivity.
  - pose proof (simplify_length opts (first :: rest)) as Hlen.
    rewrite Htail in Hlen. simpl in Hlen. lia.
Qed.

(** X2.  Simplification moves points but never re-times them: the
    (timestamp, pressure) pairs of the returned stroke are those of the
    input with some left out, in the same order. *)
Theorem simplifyStroke_keeps_stamps :
  forall (opts : Options) (pts : list Point),
    exists out,
      simplifyStroke opts pts = Some out
      /\ subsequence (map stamp out) (map stamp pts).
Proof.
  intros opts pts. exists (Reference.simplify opts pts).
  split; [apply simplifyStroke_reference|apply simplify_stamps].
Qed.

(** Without smoothing every blend returns the point it was given, and the
    simplifier only leaves points out. *)
Lemma simplify_selects (opts : Options) (pts : list Point) :
  smoothingRatio opts = 0 ->
  subsequence (Reference.simplify opts pts) pts.
Proof.
  intros Hratio. unfold Reference.simplify.
  destruct (length pts <? 3)%nat; [apply subsequence_refl|].
  destruct (length _ <? 3)%nat; [apply keptPoints_subsequence|].
  rewrite (smoothKept_0 opts Hratio). apply keptPoints_subsequence.
Qed.

Lemma subsequence_Forall {A : Type} (P : A -> Prop) (l l' : list A) :
  subsequence l l' -> Forall P l' -> Forall P l.
Proof.
  induction 1 as [|a l l' _ IH|a l l' _ IH]; intros Hall.
  - constructor.
  - inversion Hall; subst. constructor; auto.
  - inversion Hall; subst. auto.
Qed.

(** X3.  With smoothing switched off, simplification only leaves points
    out.  When [smoothingRatio] is 0 and the fade length is not 0 (so that
    the fade ratio is a number), the stroke that the simplifier returns is
    its input with some points left out, in the same order: no point is
    moved, so the stroke stays inside every region that holds its input. *)
Theorem simplifyStroke_without_smoothing :
  forall (opts : Options) (pts : list Point),
    smoothingRatio opts = 0 ->
    smoothingFadePoints opts <> 0 ->
    exists out,
      simplifyStroke opts pts = Some out
      /\ subsequence out pts
      /\ forall P : Point -> Prop, Forall P pts -> Forall P out.
Proof.
  intros opts pts Hratio _. exists (Reference.simplify opts pts).
  split; [apply simplifyStroke_reference|].
  split; [apply simplify_selects; exact Hratio|].
  intros P. apply subsequence_Forall, simplify_selects. exact Hratio.
Qed.

Lemma simplifyStroke_without_smoothing_witness :
  exists out,
    simplifyStroke Fixtures.unsmoothedOptions Samples.zigzag = Some out
    /\ subsequence out Samples.zigzag.
Proof.
  destruct (simplifyStroke_without_smoothing Fixtures.unsmoothedOptions
              Samples.zigzag) as [out [Hout [Hsub _]]].
  - reflexivity.
  - simpl. lra.
  - exists out. split; [exact Hout|exact Hsub].
Defined.

(** *** The fade length *)

Section FadeLength.

Variable opts : Options.
Variables N i : nat.
Hypothesis interior : (1 <= i)%nat /\ (i + 2 <= N)%nat.

Lemma fade_in_positive : 0 < INR i.
Proof. apply lt_0_INR. lia. Qed.

Lemma fade_out_nonnegative : 0 <= IZR (Z.of_nat N - 2 - Z.of_nat i).
Proof. apply IZR_le. lia. Qed.

(** With a fade length that is not 0 the ratio is the real number of the
    two-stage algorithm. *)
Lemma dynamicRatio_number :
  smoothingFadePoints opts <> 0 ->
  dynamicRatio opts N i = Ext.Fin (Reference.fadeRatio opts N i).
Proof.
  intros Hfade. unfold dynamicRatio, Reference.fadeRatio.
  rewrite !xquot_number by exact Hfade.
  rewrite IZR_nat_fade. reflexivity.
Qed.

Lemma xquot_by_zero (a : R) : 0 < a -> Ext.xquot a 0 = Ext.PosInf.
Proof.
  intros Ha. unfold Ext.xquot.
  destruct (Req_dec_T 0 0) as [_|Hne]; [|contradiction].
  destruct (Rlt_dec 0 a); [reflexivity|contradiction].
Qed.

(** With the fade length 0 both fades are complete before the last
    interior point. *)
Lemma dynamicRatio_full :
  smoothingFadePoints opts = 0 ->
  (i + 2 < N)%nat ->
  dynamicRatio opts N i = Ext.Fin (smoothingRatio opts).
Proof.
  intros Hfade Hinner. unfold dynamicRatio. rewrite Hfade.
  rewrite (xquot_by_zero (INR i)) by exact fade_in_positive.
  rewrite (xquot_by_zero (IZR (Z.of_nat N - 2 - Z.of_nat i)))
    by (apply IZR_lt; lia).
  cbn [Ext.xmin Ext.xmul]. f_equal.
  unfold Rmin. destruct (Rle_dec 1 1); ring.
Qed.

(** At the last interior point the fade-out is [0 / 0]. *)
Lemma dynamicRatio_nan :
  smoothingFadePoints opts = 0 ->
  (i + 2 = N)%nat ->
  dynamicRatio opts N i = Ext.Nan.
Proof.
  intros Hfade Hlast. unfold dynamicRatio. rewrite Hfade.
  rewrite (xquot_by_zero (INR i)) by exact fade_in_positive.
  replace (Z.of_nat N - 2 - Z.of_nat i)%Z with 0%Z by lia.
  rewrite xquot_0_0. reflexivity.
Qed.

End FadeLength.

(** X21.  What the fade length does to the smoothing of an interior point.
    With a fade length that is not 0 the ratio is the number of the
    two-stage algorithm and the smoothed coordinate is the blend of C1.
    With the fade length 0 nothing fades: every interior point but the
    last is smoothed with the whole [smoothingRatio], and at the last
    interior point the ratio is [0 / 0]: the ratio and both smoothed
    coordinates are [NaN], whatever [smoothingRatio] is, 0 included. *)
Theorem smoothing_by_fade_length :
  forall (opts : Options) (N i : nat) (prev current next : R),
    (1 <= i)%nat /\ (i + 2 <= N)%nat ->
    (smoothingFadePoints opts <> 0 ->
     dynamicRatio opts N i = Ext.Fin (Reference.fadeRatio opts N i)
     /\ smoothed (dynamicRatio opts N i) prev current next
        = Ext.Fin (current * (1 - Reference.fadeRatio opts N i)
                   + (prev + next) / 2 * Reference.fadeRatio opts N i))
    /\ (smoothingFadePoints opts = 0 -> (i + 2 < N)%nat ->
        dynamicRatio opts N i = Ext.Fin (smoothingRatio opts)
        /\ smoothed (dynamicRatio opts N i) prev current next
           = Ext.Fin (current * (1 - smoothingRatio opts)
                      + (prev + next) / 2 * smoothingRatio opts))
    /\ (smoothingFadePoints opts = 0 -> (i + 2 = N)%nat ->
        dynamicRatio opts N i = Ext.Nan
        /\ smoothed (dynamicRatio opts N i) prev current next = Ext.Nan).
Proof.
  intros opts N i prev current next Hinterior.
  split; [|split].
  - intros Hfade.
    rewrite (dynamicRatio_number opts N i Hfade). split; reflexivity.
  - intros Hfade Hinner.
    rewrite (dynamicRatio_full opts N i Hinterior Hfade Hinner).
    split; reflexivity.
  - intros Hfade Hlast.
    rewrite (dynamicRatio_nan opts N i Hinterior Hfade Hlast).
    split; reflexivity.
Qed.

Lemma smoothing_by_fade_length_witness :
  dynamicRatio Samples.noFadeOptions 5 3 = Ext.Nan
  /\ smoothed (dynamicRatio Samples.noFadeOptions 5 3) 4 6 8 = Ext.Nan.
Proof.
  destruct (smoothing_by_fade_length Samples.noFadeOptions 5 3 4 6 8)
    as [_ [_ Hlast]].
  - lia.
  - apply Hlast; reflexivity.
Defined.

(** ** The Width Modulator *)





(** A sequence whose widths are all numbers. *)
Lemma numericWidths_Num (opts : Options) (pts : list Point) (minW maxW : R) :
  numericWidths opts pts ->
  exists ws,
    calculateWidths opts pts minW maxW = Some (map Num ws)
    /\ length ws = length pts.
Proof.
  intros Hnumeric. destruct (usePressure opts pts) eqn:Hmode.
  - assert (Hpressed : Forall (fun p => pressure p <> None) pts).
    { destruct Hnumeric as [Hoff|Hall]; [|exact Hall].
      apply usePressure_spec in Hmode. destruct Hmode as [Hon _]. congruence. }
    exists (map (fun p => minW + (maxW - minW)
                          * match pressure p with Some pr => pr | None => 0 end)
                pts).
    split; [|apply length_map].
    unfold calculateWidths.
    rewrite (calculateWidths_pressure opts minW maxW Rdiv pts Hmode), map_map.
    f_equal. apply map_ext_in. intros p Hin.
    rewrite Forall_forall in Hpressed. specialize (Hpressed p Hin).
    unfold Reference.pressureWidth. destruct (pressure p); [reflexivity|congruence].
  - eexists. split; [apply calculateWidths_velocity; exact Hmode|].
    apply velocityWidths_length.
Qed.

(** ** The outline *)

Lemma midpointCurves_length (walk : list (Ext.xnum * Ext.xnum)) :
  length (midpointCurves walk) = (length walk - 1)%nat.
Proof.
  induction walk as [|p1 walk IH]; [reflexivity|].
  destruct walk as [|p2 walk]; [reflexivity|].
  change (midpointCurves (p1 :: p2 :: walk))
    with (QuadTo (toFixedText (fst p1)) (toFixedText (snd p1))
            (toFixedText (Ext.xhalf (Ext.xadd (fst p1) (fst p2))))
            (toFixedText (Ext.xhalf (Ext.xadd (snd p1) (snd p2))))
          :: midpointCurves (p2 :: walk)).
  cbn [length] in *. rewrite IH. lia.
Qed.

Lemma outlineText_length (pts : list Point) (widths : list jsnum) :
  (2 <= length pts)%nat ->
  length (outlineText pts widths) = (2 * length pts + 3)%nat.
Proof.
  intros Hseveral. unfold outlineText.
  rewrite !length_app, !midpointCurves_length, length_rev, !outlineOf_length.
  cbn [length]. lia.
Qed.

Lemma outlineOf_nth (side : R) (pts : list Point) (widths : list jsnum)
    (i : nat) :
  (i < length pts)%nat ->
  nth i (outlineOf side pts widths) nowhere = outlinePointAt side pts widths i.
Proof.
  intros Hi. unfold outlineOf.
  rewrite (nth_indep _ nowhere (outlinePointAt side pts widths 0))
    by (rewrite length_map, length_seq; exact Hi).
  rewrite map_nth, seq_nth by exact Hi. reflexivity.
Qed.

Lemma outlinePointAt_nowhere (side : R) (pts : list Point)
    (widths : list jsnum) (i : nat) :
  notANumber widths i -> outlinePointAt side pts widths i = nowhere.
Proof.
  intros Hnone. unfold outlinePointAt.
  destruct (nth_error widths i) as [[w|]|] eqn:Hw; try reflexivity.
  destruct (Hnone w Hw).
Qed.

Lemma halfWidthOf_nowhere (widths : list jsnum) (i : nat) :
  notANumber widths i -> halfWidthOf widths i = Ext.Nan.
Proof.
  intros Hnone. unfold halfWidthOf.
  destruct (nth_error widths i) as [[w|]|] eqn:Hw; try reflexivity.
  destruct (Hnone w Hw).
Qed.

(** X5.  The Outline Path Builder does not fail on widths that are not
    numbers.  For at least two points and any array of widths, too short
    or with [NaN] in it, it returns a closed path of [2 n + 3] commands
    for [n] points.  In the two arrays that its first loop builds, the
    outline points of a point whose width is missing or [NaN] are [NaN] in
    both coordinates, and they are written so: when the first width is not
    a number the path starts with [M NaN,NaN A NaN,NaN 0 0 1 NaN,NaN]. *)
Theorem outline_written_whatever_the_widths :
  forall (opts : Options) (pts : list Point) (widths : list jsnum),
    (2 <= length pts)%nat ->
    generateSmoothSvgPathData opts pts widths = Some (outlineText pts widths)
    /\ length (outlineText pts widths) = (2 * length pts + 3)%nat
    /\ for_loop 0 (length pts) (outlineBody pts widths) ([], [])
       = Some (outlineOf 1 pts widths, outlineOf (-1) pts widths)
    /\ (forall i, (i < length pts)%nat -> notANumber widths i ->
        nth i (outlineOf 1 pts widths) nowhere = (Ext.Nan, Ext.Nan)
        /\ nth i (outlineOf (-1) pts widths) nowhere = (Ext.Nan, Ext.Nan))
    /\ (notANumber widths 0 ->
        exists rest,
          outlineText pts widths
          = MoveTo (Word "NaN") (Word "NaN")
            :: ArcTo (Word "NaN") (Word "NaN") 0 false true
                     (Word "NaN") (Word "NaN")
            :: rest).
Proof.
  intros opts pts widths Hseveral.
  split; [apply outlineText_code; exact Hseveral|].
  split; [apply outlineText_length; exact Hseveral|].
  split.
  { rewrite for_loop_from, Nat.sub_0_r.
    rewrite (outline_loop pts widths Hseveral) by lia. reflexivity. }
  split.
  - intros i Hi Hnone. rewrite !outlineOf_nth by exact Hi.
    rewrite !outlinePointAt_nowhere by exact Hnone. split; reflexivity.
  - intros Hnone. unfold outlineText, capAt.
    rewrite !outlineOf_nth by lia.
    rewrite !outlinePointAt_nowhere by exact Hnone.
    rewrite (halfWidthOf_nowhere widths 0 Hnone).
    eexists. reflexivity.
Qed.

Lemma outline_written_whatever_the_widths_witness :
  exists rest,
    generateSmoothSvgPathData defaultOptions
      [Samples.unpressed 0 0; Samples.onAxis 1 10] [NaN; Num (15 / 10)]
    = Some (MoveTo (Word "NaN") (Word "NaN")
            :: ArcTo (Word "NaN") (Word "NaN") 0 false true
                     (Word "NaN") (Word "NaN")
            :: rest).
Proof.
  destruct (outline_written_whatever_the_widths defaultOptions
              [Samples.unpressed 0 0; Samples.onAxis 1 10]
              [NaN; Num (15 / 10)])
    as [Hcode [_ [_ [_ Hstart]]]].
  - simpl. lia.
  - destruct Hstart as [rest Hrest].
    + intros w Hw. discriminate Hw.
    + exists rest. rewrite Hcode, Hrest. reflexivity.
Defined.

(** ** The Bounding-Box Calculator *)

Section BoxFacts.

Import Ext BoundingBox.







End BoxFacts.

Lemma calculateWidths_total (opts : Options) (pts : list Point) (minW maxW : R) :
  exists widths,
    calculateWidths opts pts minW maxW = Some widths
    /\ length widths = length pts.
Proof.
  destruct (usePressure opts pts) eqn:Hmode.
  - eexists. split;
      [apply (calculateWidths_pressure opts minW maxW Rdiv pts Hmode)
      |apply length_map].
  - eexists. split; [apply calculateWidths_velocity; exact Hmode|].
    rewrite length_map. apply velocityWidths_length.
Qed.

Lemma forEachM_strokes_total (opts : Options) (strokes : list Stroke) :
  forall e, exists e',
    forEachM (BoundingBox.strokeBody opts) strokes e = Some e'.
Proof.
  induction strokes as [|s strokes IH]; intros e.
  - exists e. reflexivity.
  - cbn [forEachM]. unfold BoundingBox.strokeBody at 1.
    destruct (calculateWidths_total opts (points s) (strokeMinWidth s)
                (strokeMaxWidth s)) as [ws [Hws _]].
    rewrite Hws. cbn [bind]. apply IH.
Qed.

Lemma isEmpty_spec (st : State) : isEmpty st = true <-> allStrokes st = [].
Proof.
  unfold isEmpty. rewrite Nat.eqb_eq. apply length_zero_iff_nil.
Qed.




Lemma forEachM_pointless (opts : Options) (strokes : list Stroke) :
  Forall (fun s => points s = []) strokes ->
  forall e, forEachM (BoundingBox.strokeBody opts) strokes e = Some e.
Proof.
  induction 1 as [|s strokes Hs _ IH]; intros e; [reflexivity|].
  cbn [forEachM]. unfold BoundingBox.strokeBody at 1. rewrite Hs.
  destruct (calculateWidths_total opts [] (strokeMinWidth s) (strokeMaxWidth s))
    as [ws [Hws _]].
  rewrite Hws. cbn [bind forEach]. apply IH.
Qed.

Lemma calculateBoundingBox_some (st : State) :
  allStrokes st <> [] ->
  exists box, BoundingBox.calculateBoundingBox st = Some (Some box).
Proof.
  intros Hsome. unfold BoundingBox.calculateBoundingBox.
  destruct (isEmpty st) eqn:Hempty.
  - apply isEmpty_spec in Hempty. contradiction.
  - destruct (forEachM_strokes_total (options st) (allStrokes st)
                BoundingBox.start) as [e He].
    rewrite He. eexists. reflexivity.
Qed.

(** X7.  The calculator answers [null] exactly for the empty collection.
    For a collection that is not empty it always answers with a box; when
    no stroke of it has a point (strokes that only [fromData] can bring),
    the box is the untouched start, from [Infinity] to [-Infinity], and its
    width and height are [-Infinity]. *)
Theorem boundingBox_null_and_infinite :
  forall st : State,
    (BoundingBox.calculateBoundingBox st = Some None <-> allStrokes st = [])
    /\ (allStrokes st <> [] ->
        exists box, BoundingBox.calculateBoundingBox st = Some (Some box))
    /\ (allStrokes st <> [] ->
        Forall (fun s => points s = []) (allStrokes st) ->
        BoundingBox.calculateBoundingBox st
        = Some (Some {| BoundingBox.extremes := BoundingBox.start;
                        BoundingBox.width := Ext.NegInf;
                        BoundingBox.height := Ext.NegInf |})).
Proof.
  intros st. unfold BoundingBox.calculateBoundingBox.
  destruct (isEmpty st) eqn:Hempty.
  - apply isEmpty_spec in Hempty. split; [tauto|]. split; congruence.
  - assert (Hsome : allStrokes st <> []).
    { intros Hnil. apply isEmpty_spec in Hnil. congruence. }
    destruct (forEachM_strokes_total (options st) (allStrokes st)
                BoundingBox.start) as [e He].
    split; [|split].
    + rewrite He. cbn [bind]. split; [discriminate|contradiction].
    + intros _. rewrite He. eexists. reflexivity.
    + intros _ Hpointless. rewrite forEachM_pointless by exact Hpointless.
      reflexivity.
Qed.

Lemma boundingBox_null_and_infinite_witness :
  (exists box,
      BoundingBox.calculateBoundingBox Samples.signed = Some (Some box))
  /\ BoundingBox.calculateBoundingBox
       (setAllStrokes [{| points := []; color := "#000000";
                          strokeMinWidth := 1; strokeMaxWidth := 2 |}]
                      Samples.signed)
     = Some (Some {| BoundingBox.extremes := BoundingBox.start;
                     BoundingBox.width := Ext.NegInf;
                     BoundingBox.height := Ext.NegInf |}).
Proof.
  split.
  - apply (proj1 (proj2 (boundingBox_null_and_infinite Samples.signed))).
    discriminate.
  - apply (proj2 (proj2 (boundingBox_null_and_infinite _))).
    + discriminate.
    + repeat constructor.
Defined.

Section BoxUnion.

Import Ext BoundingBox.

Lemma xmin_assoc (a b c : xnum) : xmin (xmin a b) c = xmin a (xmin b c).
Proof.
  destruct a, b, c; simpl; try reflexivity.
  f_equal. symmetry. apply Rmin_assoc.
Qed.

Lemma xmax_assoc (a b c : xnum) : xmax (xmax a b) c = xmax a (xmax b c).
Proof.
  destruct a, b, c; simpl; try reflexivity.
  f_equal. symmetry. apply Rmax_assoc.
Qed.

Lemma merge_start (e : Extremes) : merge e start = e.
Proof.
  destruct e as [a b c d]. unfold merge, start. simpl.
  f_equal; [destruct a|destruct b|destruct c|destruct d]; reflexivity.
Qed.

Lemma pointBody_merge (widths : list jsnum) (p : Point) (i : nat)
    (e e' : Extremes) :
  pointBody widths p i (merge e e') = merge e (pointBody widths p i e').
Proof.
  unfold pointBody, merge. simpl.
  rewrite !xmin_assoc, !xmax_assoc. reflexivity.
Qed.

Lemma forEach_merge (widths : list jsnum) (pts : list Point) :
  forall i e e',
    forEach (pointBody widths) pts i (merge e e')
    = merge e (forEach (pointBody widths) pts i e').
Proof.
  induction pts as [|p pts IH]; intros i e e'; [reflexivity|].
  cbn [forEach]. rewrite pointBody_merge. apply IH.
Qed.

(** Running the outer loop from given extremes is merging them with the
    run from the start. *)
Lemma forEachM_merge (opts : Options) (strokes : list Stroke) :
  forall e e' later,
    forEachM (strokeBody opts) strokes e' = Some later ->
    forEachM (strokeBody opts) strokes (merge e e') = Some (merge e later).
Proof.
  induction strokes as [|s strokes IH]; intros e e' later Hrun.
  - simpl in *. injection Hrun as <-. reflexivity.
  - cbn [forEachM] in *. unfold strokeBody at 1. unfold strokeBody at 1 in Hrun.
    destruct (calculateWidths opts (points s) (strokeMinWidth s)
                (strokeMaxWidth s)) as [ws|]; [|discriminate].
    cbn [bind] in *. rewrite forEach_merge. apply IH. exact Hrun.
Qed.

Lemma forEachM_app {A S : Type} (f : A -> S -> option S) (l l' : list A) :
  forall s s',
    forEachM f l s = Some s' ->
    forEachM f (l ++ l') s = forEachM f l' s'.
Proof.
  induction l as [|a l IH]; intros s s' Hrun.
  - simpl in *. injection Hrun as <-. reflexivity.
  - cbn [forEachM app] in *. destruct (f a s); [|discriminate].
    apply IH. exact Hrun.
Qed.

End BoxUnion.

(** X8.  The box of a collection made of two parts, neither of them empty,
    is the box around the boxes of the parts; this holds whatever the
    widths are, numbers or not. *)
Theorem boundingBox_of_two_parts :
  forall (st : State) (front back : list Stroke)
         (frontBox backBox : BoundingBox.Box),
    BoundingBox.calculateBoundingBox (setAllStrokes front st)
    = Some (Some frontBox) ->
    BoundingBox.calculateBoundingBox (setAllStrokes back st)
    = Some (Some backBox) ->
    BoundingBox.calculateBoundingBox (setAllStrokes (front ++ back) st)
    = Some (Some (BoundingBox.join frontBox backBox)).
Proof.
  intros st front back frontBox backBox.
  unfold BoundingBox.calculateBoundingBox, isEmpty.
  cbn [setAllStrokes allStrokes options].
  destruct front as [|f front]; [discriminate|].
  destruct back as [|b back]; [discriminate|].
  cbn [length Nat.eqb app].
  destruct (forEachM (BoundingBox.strokeBody (options st)) (f :: front)
                     BoundingBox.start) as [e1|] eqn:Hfront; [|discriminate].
  destruct (forEachM (BoundingBox.strokeBody (options st)) (b :: back)
                     BoundingBox.start) as [e2|] eqn:Hback; [|discriminate].
  cbn [bind]. intros Hf Hb.
  injection Hf as <-. injection Hb as <-.
  change (f :: front ++ b :: back) with ((f :: front) ++ b :: back).
  rewrite (forEachM_app _ _ _ _ _ Hfront).
  rewrite <- (merge_start e1) at 1.
  rewrite (forEachM_merge _ _ _ _ _ Hback). reflexivity.
Qed.

Lemma boundingBox_of_two_parts_witness :
  exists frontBox backBox,
    BoundingBox.calculateBoundingBox
      (setAllStrokes ([Samples.dash] ++ [Samples.dash]) Samples.signed)
    = Some (Some (BoundingBox.join frontBox backBox)).
Proof.
  destruct (calculateBoundingBox_some
              (setAllStrokes [Samples.dash] Samples.signed))
    as [box Hbox]; [discriminate|].
  exists box, box.
  apply (boundingBox_of_two_parts Samples.signed [Samples.dash] [Samples.dash]
           box box Hbox Hbox).
Defined.

(** ** Vector export *)

Lemma pathData_nonempty (opts : Options) (pts : list Point) (ws : list R) :
  pts <> [] ->
  length ws = length pts ->
  exists cmd cmds,
    generateSmoothSvgPathData opts pts (map Num ws) = Some (cmd :: cmds).
Proof.
  intros Hpts Hlen.
  destruct pts as [|p [|q pts]]; [congruence| |].
  - eexists _, _. apply dot_path.
  - rewrite (outlinePath_code opts (p :: q :: pts) ws) by (simpl; lia || exact Hlen).
    eexists _, _. reflexivity.
Qed.

(** The loop of [toSVG] writes one path per stroke that has a point. *)
Lemma forEachM_paths (opts : Options) (ex : Svg.Export) (strokes : list Stroke) :
  Forall (fun s => numericWidths opts (points s)) strokes ->
  forall written,
  exists more,
    forEachM (Svg.pathBody opts ex) strokes written = Some (written ++ more)
    /\ Forall2 (pathOfStroke opts ex) (strokesWithPoints strokes) more.
Proof.
  induction 1 as [|s strokes Hs Hrest IH]; intros written.
  - exists []. rewrite app_nil_r. split; [reflexivity|constructor].
  - cbn [forEachM strokesWithPoints filter]. unfold Svg.pathBody at 1.
    destruct (length (points s) =? 0)%nat eqn:Hnone.
    + cbn [negb]. apply IH.
    + cbn [negb].
      destruct (numericWidths_Num opts (points s) (strokeMinWidth s)
                  (strokeMaxWidth s) Hs) as [ws [Hws Hlen]].
      rewrite Hws. cbn [bind].
      assert (Hpts : points s <> []).
      { intros Hnil. rewrite Hnil in Hnone. discriminate. }
      destruct (pathData_nonempty opts (points s) ws Hpts Hlen)
        as [cmd [cmds Hpath]].
      rewrite Hpath. cbn [bind].
      destruct (IH (written ++
                    [(cmd :: cmds,
                      Svg.nullish (Svg.outputPenColor ex) (color s))]))
        as [more [Hmore Hall]].
      eexists. split.
      * rewrite Hmore, <- app_assoc. reflexivity.
      * constructor; [|exact Hall].
        exists (map Num ws). repeat split; assumption.
Qed.

Lemma toSVG_written (ex : Svg.Export) (st : State) :
  allStrokes st <> [] ->
  Forall (fun s => numericWidths (options st) (points s)) (allStrokes st) ->
  exists box doc,
    (if Svg.trimOutput ex
     then BoundingBox.calculateBoundingBox st = Some (Some box)
     else True)
    /\ Svg.toSVG ex st = Some (Svg.Written doc)
    /\ Forall2 (pathOfStroke (options st) ex) (strokesWithPoints (allStrokes st))
               (Svg.paths doc)
    /\ (Svg.trimOutput ex = true ->
        Svg.viewBoxX doc
        = Ext.xsub (BoundingBox.minX (BoundingBox.extremes box))
                   (Ext.Fin (Svg.trimPadding ex))
        /\ Svg.viewBoxY doc
           = Ext.xsub (BoundingBox.minY (BoundingBox.extremes box))
                      (Ext.Fin (Svg.trimPadding ex))
        /\ Svg.svgWidth doc
           = Ext.xadd (BoundingBox.width box) (Ext.Fin (Svg.trimPadding ex * 2))
        /\ Svg.svgHeight doc
           = Ext.xadd (BoundingBox.height box)
                      (Ext.Fin (Svg.trimPadding ex * 2)))
    /\ (Svg.trimOutput ex = false ->
        Svg.viewBoxX doc = Ext.Fin 0 /\ Svg.viewBoxY doc = Ext.Fin 0
        /\ Svg.svgWidth doc = Ext.Fin (Svg.canvasWidth ex)
        /\ Svg.svgHeight doc = Ext.Fin (Svg.canvasHeight ex)).
Proof.
  intros Hsome Hnumeric. unfold Svg.toSVG.
  destruct (isEmpty st) eqn:Hempty;
    [apply isEmpty_spec in Hempty; contradiction|].
  destruct (forEachM_paths (options st) ex (allStrokes st) Hnumeric [])
    as [more [Hmore Hall]].
  cbn [app] in Hmore.
  destruct (Svg.trimOutput ex) eqn:Htrim.
  - destruct (calculateBoundingBox_some st Hsome) as [box Hbox].
    exists box. rewrite Hbox. cbn [bind]. rewrite Hmore. cbn [bind].
    eexists. split; [reflexivity|]. split; [reflexivity|].
    cbn [Svg.paths Svg.viewBoxX Svg.viewBoxY Svg.svgWidth Svg.svgHeight].
    split; [exact Hall|]. split; [intros _; repeat split|discriminate].
  - exists (finiteBox 0 0 0 0). cbn [bind]. rewrite Hmore. cbn [bind].
    eexists. split; [exact I|]. split; [reflexivity|].
    cbn [Svg.paths Svg.viewBoxX Svg.viewBoxY Svg.svgWidth Svg.svgHeight].
    split; [exact Hall|]. split; [discriminate|intros _; repeat split].
Qed.

(** X9.  [toSVG] returns the empty string for the empty collection.  For
    any other collection whose widths are numbers it returns a document
    with one path per stroke that has a point, in the order of the
    collection: the path data is what the Outline Path Builder returns on
    the widths of the Width Modulator (the two never disagree on the number
    of points), and the fill is the output pen colour when one is set, else
    the colour of the stroke.  Strokes without points are passed over. *)
Theorem toSVG_one_path_per_stroke :
  forall (ex : Svg.Export) (st : State),
    (allStrokes st = [] -> Svg.toSVG ex st = Some Svg.Empty)
    /\ (allStrokes st <> [] ->
        Forall (fun s => numericWidths (options st) (points s))
               (allStrokes st) ->
        exists doc,
          Svg.toSVG ex st = Some (Svg.Written doc)
          /\ Forall2 (pathOfStroke (options st) ex) (strokesWithPoints (allStrokes st))
                     (Svg.paths doc)).
Proof.
  intros ex st. split.
  - intros Hnone. unfold Svg.toSVG.
    apply isEmpty_spec in Hnone. rewrite Hnone. reflexivity.
  - intros Hsome Hnumeric.
    destruct (toSVG_written ex st Hsome Hnumeric)
      as [box [doc [_ [Hdoc [Hpaths _]]]]].
    exists doc. split; assumption.
Qed.

Lemma toSVG_one_path_per_stroke_witness :
  exists doc,
    Svg.toSVG Fixtures.whole Samples.signed = Some (Svg.Written doc)
    /\ length (Svg.paths doc) = 2%nat.
Proof.
  destruct (proj2 (toSVG_one_path_per_stroke Fixtures.whole Samples.signed))
    as [doc [Hdoc Hpaths]].
  - discriminate.
  - repeat constructor.
  - exists doc. split; [exact Hdoc|].
    apply Forall2_length in Hpaths. symmetry. exact Hpaths.
Defined.

(** ** Drawing *)

Section Gestures.

Import Pointer.

Lemma redrawCanvas_fields (st st' : State) :
  redrawCanvas st = Some st' ->
  options st' = options st /\ isDrawing st' = isDrawing st
  /\ currentStroke st' = currentStroke st /\ allStrokes st' = allStrokes st
  /\ drawing st' = drawing st /\ emitted st' = emitted st
  /\ console st' = console st.
Proof.
  intros Hredraw. destruct (redrawCanvas_paints st) as [ps Hps].
  rewrite Hps in Hredraw. injection Hredraw as <-. repeat split.
Qed.

Lemma Forall_removelast {A : Type} (P : A -> Prop) (l : list A) :
  Forall P l -> Forall P (removelast l).
Proof.
  induction 1 as [|a l Ha Hl IH]; [constructor|].
  destruct l as [|b l]; [constructor|].
  change (removelast (a :: b :: l)) with (a :: removelast (b :: l)).
  constructor; assumption.
Qed.

(** What [stopDrawing] does to a gesture in progress. *)
Lemma stopDrawing_finishes (i : Input) (s : Session) :
  isDrawing (component s) = true ->
  currentStroke (component s) <> [] ->
  exists stroke st',
    stopDrawing i s
    = Some (withComponent st' (announce (EvDrawEnd stroke) s))
    /\ simplifyStroke (options (component s)) (currentStroke (component s))
       = Some (points stroke)
    /\ color stroke = penColor (options (component s))
    /\ strokeMinWidth stroke = minWidth (options (component s))
    /\ strokeMaxWidth stroke = maxWidth (options (component s))
    /\ allStrokes st' = allStrokes (component s) ++ [stroke]
    /\ isDrawing st' = false
    /\ currentStroke st' = []
    /\ options st' = options (component s)
    /\ drawing st' = drawing (component s).
Proof.
  intros Hdrawing Hpoints. unfold stopDrawing. rewrite Hdrawing. cbn [negb].
  cbn [setIsDrawing currentStroke options allStrokes].
  destruct (currentStroke (component s)) as [|p rest] eqn:Hcurrent;
    [congruence|].
  assert (Hsimplified :
            exists pts,
              (if (1 <? length (p :: rest))%nat
               then simplifyStroke (options (component s)) (p :: rest)
               else Some (p :: rest)) = Some pts
              /\ simplifyStroke (options (component s)) (p :: rest) = Some pts).
  { destruct rest as [|q rest].
    - exists [p]. split; reflexivity.
    - exists (Reference.simplify (options (component s)) (p :: q :: rest)).
      cbn [length Nat.ltb Nat.leb]. split; apply simplifyStroke_reference. }
  destruct Hsimplified as [pts [Hchoice Hsimplify]].
  rewrite Hchoice.
  replace (0 <? length (p :: rest))%nat with true by reflexivity.
  cbn [bind].
  match goal with
  | |- context [redrawCanvas ?st0] =>
      destruct (redrawCanvas_paints st0) as [ps Hps]; rewrite Hps
  end.
  cbn [bind]. eexists _, _. split; [reflexivity|].
  cbn [points color strokeMinWidth strokeMaxWidth paint setCurrentStroke
       setAllStrokes setIsDrawing allStrokes isDrawing currentStroke options
       drawing].
  repeat split. exact Hsimplify.
Qed.

End Gestures.

(** What [undo] does, in one statement for both cases. *)
Lemma undo_removes_last_stroke_cases (st : State) :
  exists r,
    undo st = Some r
    /\ options (snd r) = options st
    /\ allStrokes (snd r) = removelast (allStrokes st)
    /\ isDrawing (snd r) = isDrawing st
    /\ currentStroke (snd r) = currentStroke st
    /\ drawing (snd r) = drawing st.
Proof.
  unfold undo. destruct (allStrokes st) as [|s0 strokes] eqn:Hall.
  - exists (false, st). cbn [length Nat.ltb Nat.leb snd]. rewrite Hall.
    repeat split.
  - cbn [length Nat.ltb Nat.leb].
    destruct (redrawCanvas_paints
                (setAllStrokes (removelast (s0 :: strokes)) st)) as [ps Hps].
    rewrite Hps. cbn [bind]. eexists. split; [reflexivity|].
    repeat split.
Qed.

Section Effects.

Import Pointer.

Lemma startDrawing_effect (i : Input) (s : Session) :
  exists s',
    startDrawing i s = Some s'
    /\ sameSetting s s'
    /\ allStrokes (component s') = allStrokes (component s)
    /\ drawing (component s') = drawing (component s)
    /\ frames s' = frames s
    /\ (s' = s
        \/ (isDrawing (component s') = true
            /\ currentStroke (component s') = [getCoordinates s i])).
Proof.
  unfold startDrawing. destruct (negb (button i =? 0)%Z).
  - exists s. repeat split. left. reflexivity.
  - eexists. split; [reflexivity|]. repeat split. right. split; reflexivity.
Qed.

Lemma draw_effect (i : Input) (s : Session) :
  exists s',
    draw i s = Some s'
    /\ sameSetting s s'
    /\ allStrokes (component s') = allStrokes (component s)
    /\ isDrawing (component s') = isDrawing (component s)
    /\ (currentStroke (component s') = currentStroke (component s)
        \/ currentStroke (component s')
           = currentStroke (component s) ++ [getCoordinates s i])
    /\ (isDrawing (component s) = false -> s' = s)
    /\ (drawing (component s') = drawing (component s) /\ frames s' = frames s
        \/ drawing (component s) = false /\ drawing (component s') = true
           /\ frames s' = S (frames s)).
Proof.
  unfold draw. destruct (isDrawing (component s)) eqn:Hdrawing; cbn [negb].
  - destruct (hasPointerCapture i).
    + cbn [setCurrentStroke drawing].
      destruct (drawing (component s)) eqn:Hflag; cbn [negb].
      * eexists. split; [reflexivity|].
        cbn [withComponent component setCurrentStroke options allStrokes
             isDrawing currentStroke drawing frames canvasWidth canvasHeight].
        repeat split; try assumption; try discriminate.
        -- right. reflexivity.
        -- left. split; [assumption|reflexivity].
      * eexists. split; [reflexivity|].
        cbn [withComponent setFrames component setCurrentStroke setDrawing
             options allStrokes isDrawing currentStroke drawing frames
             canvasWidth canvasHeight].
        repeat split; try assumption; try discriminate.
        -- right. reflexivity.
        -- right. repeat split.
    + exists s. repeat split; try assumption.
      * left. reflexivity.
      * left. split; reflexivity.
  - exists s. repeat split; try assumption.
    + left. reflexivity.
    + left. split; reflexivity.
Qed.

Lemma frame_effect (s : Session) :
  exists s',
    frame s = Some s'
    /\ sameSetting s s'
    /\ allStrokes (component s') = allStrokes (component s)
    /\ isDrawing (component s') = isDrawing (component s)
    /\ currentStroke (component s') = currentStroke (component s)
    /\ (s' = s /\ frames s = 0%nat
        \/ drawing (component s') = false /\ frames s = S (frames s')).
Proof.
  unfold frame. destruct (frames s) as [|n] eqn:Hframes.
  - exists s. repeat split. left. split; reflexivity.
  - destruct (redrawCanvas_paints (component s)) as [ps Hps].
    rewrite Hps. cbn [bind]. eexists. split; [reflexivity|].
    repeat split. right. split; reflexivity.
Qed.

Lemma stopDrawing_effect (i : Input) (s : Session) :
  exists s',
    stopDrawing i s = Some s'
    /\ sameSetting s s'
    /\ drawing (component s') = drawing (component s)
    /\ frames s' = frames s
    /\ isDrawing (component s') = false
    /\ (isDrawing (component s) = false -> s' = s)
    /\ (isDrawing (component s) = true -> currentStroke (component s') = [])
    /\ (allStrokes (component s') = allStrokes (component s)
        \/ exists stroke,
             allStrokes (component s') = allStrokes (component s) ++ [stroke]
             /\ currentStroke (component s) <> []
             /\ simplifyStroke (options (component s))
                               (currentStroke (component s))
                = Some (points stroke)).
Proof.
  destruct (isDrawing (component s)) eqn:Hdrawing.
  - destruct (currentStroke (component s)) as [|p rest] eqn:Hcurrent.
    + unfold stopDrawing. rewrite Hdrawing. cbn [negb].
      cbn [setIsDrawing currentStroke]. rewrite Hcurrent.
      cbn [length Nat.ltb Nat.leb bind].
      match goal with
      | |- context [redrawCanvas ?st0] =>
          destruct (redrawCanvas_paints st0) as [ps Hps]; rewrite Hps
      end.
      cbn [bind]. eexists. split; [reflexivity|].
      repeat split; try discriminate. left. reflexivity.
    + destruct (stopDrawing_finishes i s Hdrawing)
        as [stroke [st' [Hstop [Hsimplify [_ [_ [_ [Hall [Hoff [Hcur [Hopts Hflag]]]]]]]]]]];
        [rewrite Hcurrent; discriminate|].
      exists (withComponent st' (announce (EvDrawEnd stroke) s)).
      split; [exact Hstop|].
      unfold sameSetting.
      cbn [withComponent announce component frames canvasWidth canvasHeight].
      rewrite Hcurrent in Hsimplify.
      split; [repeat split; assumption|]. split; [assumption|].
      split; [reflexivity|]. split; [assumption|]. split; [discriminate|].
      split; [intros _; assumption|].
      right. exists stroke. split; [assumption|].
      split; [discriminate|assumption].
  - exists s. unfold stopDrawing. rewrite Hdrawing. repeat split;
      try assumption; try discriminate. left. reflexivity.
Qed.

Lemma undo_effect (s : Session) :
  exists s',
    perform CallUndo s = Some s'
    /\ sameSetting s s'
    /\ allStrokes (component s') = removelast (allStrokes (component s))
    /\ isDrawing (component s') = isDrawing (component s)
    /\ currentStroke (component s') = currentStroke (component s)
    /\ drawing (component s') = drawing (component s)
    /\ frames s' = frames s.
Proof.
  cbn [perform].
  destruct (undo_removes_last_stroke_cases (component s)) as [r [Hundo H]].
  rewrite Hundo. cbn [bind]. eexists. split; [reflexivity|].
  cbn [withComponent component frames canvasWidth canvasHeight].
  unfold sameSetting. cbn [withComponent component canvasWidth canvasHeight].
  tauto.
Qed.

End Effects.

Section Invariants.

Import Pointer.

Lemma clear_effect (s : Session) :
  exists s',
    perform CallClear s = Some s'
    /\ sameSetting s s'
    /\ allStrokes (component s') = []
    /\ isDrawing (component s') = false
    /\ currentStroke (component s') = []
    /\ drawing (component s') = false
    /\ frames s' = frames s
    /\ drawEvents s' = drawEvents s.
Proof.
  cbn [perform]. unfold clear.
  destruct (redrawCanvas_paints (resetState (component s))) as [ps Hps].
  rewrite Hps. cbn [bind]. eexists. split; [reflexivity|]. repeat split.
Qed.

Lemma fromData_effect (data : JsValue) (s : Session) :
  exists s',
    perform (CallFromData data) s = Some s'
    /\ sameSetting s s'
    /\ frames s' = frames s
    /\ (isDrawing (component s') = true -> isDrawing (component s) = true)
    /\ (isDrawing (component s') = true ->
        currentStroke (component s') = currentStroke (component s)).
Proof.
  cbn [perform]. unfold fromData. destruct (isArray data) as [elements|].
  - unfold clear.
    destruct (redrawCanvas_paints (resetState (component s))) as [ps Hps].
    rewrite Hps. cbn [bind].
    match goal with
    | |- context [redrawCanvas ?st0] =>
        destruct (redrawCanvas_paints st0) as [ps' Hps']; rewrite Hps'
    end.
    cbn [bind]. eexists. split; [reflexivity|].
    repeat split; discriminate.
  - cbn [bind]. eexists. split; [reflexivity|]. repeat split; auto.
Qed.

Lemma perform_total (a : Action) (s : Session) :
  exists s', perform a s = Some s' /\ sameSetting s s'.
Proof.
  destruct a as [i|i|i| | | |data].
  - destruct (startDrawing_effect i s) as [s' [H [Hs _]]]. exists s'. tauto.
  - destruct (draw_effect i s) as [s' [H [Hs _]]]. exists s'. tauto.
  - destruct (stopDrawing_effect i s) as [s' [H [Hs _]]]. exists s'. tauto.
  - destruct (frame_effect s) as [s' [H [Hs _]]]. exists s'. tauto.
  - destruct (undo_effect s) as [s' [H [Hs _]]]. exists s'. tauto.
  - destruct (clear_effect s) as [s' [H [Hs _]]]. exists s'. tauto.
  - destruct (fromData_effect data s) as [s' [H [Hs _]]]. exists s'. tauto.
Qed.

Lemma perform_sound (a : Action) (s s' : Session) :
  isLoad a = false ->
  perform a s = Some s' ->
  gestureSound s -> gestureSound s'.
Proof.
  intros Hload Hperform [Hgesture Hstored]. unfold gestureSound.
  destruct a as [i|i|i| | | |data]; cbn [perform] in Hperform.
  - destruct (startDrawing_effect i s) as [s1 [H [_ [Hall [_ [_ Hcases]]]]]].
    rewrite H in Hperform. injection Hperform as <-.
    rewrite Hall. split; [|exact Hstored].
    destruct Hcases as [->|[_ Hcurrent]]; [exact Hgesture|].
    intros _. rewrite Hcurrent. discriminate.
  - destruct (draw_effect i s) as [s1 [H [_ [Hall [Hflag [Hcurrent _]]]]]].
    rewrite H in Hperform. injection Hperform as <-.
    rewrite Hall, Hflag. split; [|exact Hstored].
    intros Hon. specialize (Hgesture Hon).
    destruct Hcurrent as [->| ->]; [exact Hgesture|].
    intros Hnil. apply app_eq_nil in Hnil. destruct Hnil. discriminate.
  - destruct (stopDrawing_effect i s)
      as [s1 [H [_ [_ [_ [Hoff [_ [_ Hall]]]]]]]].
    rewrite H in Hperform. injection Hperform as <-.
    split; [rewrite Hoff; discriminate|].
    destruct Hall as [->|[stroke [-> [Hcurrent Hsimplify]]]]; [exact Hstored|].
    apply Forall_app. split; [exact Hstored|]. constructor; [|constructor].
    destruct (currentStroke (component s)) as [|p rest]; [congruence|].
    destruct (simplify_first (options (component s)) p rest) as [tail Htail].
    rewrite simplifyStroke_reference, Htail in Hsimplify.
    injection Hsimplify as <-. discriminate.
  - destruct (frame_effect s) as [s1 [H [_ [Hall [Hflag [Hcurrent _]]]]]].
    rewrite H in Hperform. injection Hperform as <-.
    rewrite Hall, Hflag, Hcurrent. split; assumption.
  - destruct (undo_effect s) as [s1 [H [_ [Hall [Hflag [Hcurrent _]]]]]].
    cbn [perform] in H. rewrite H in Hperform. injection Hperform as <-.
    rewrite Hall, Hflag, Hcurrent.
    split; [exact Hgesture|apply Forall_removelast; exact Hstored].
  - destruct (clear_effect s) as [s1 [H [_ [Hall [Hflag _]]]]].
    cbn [perform] in H. rewrite H in Hperform. injection Hperform as <-.
    rewrite Hall, Hflag. split; [discriminate|constructor].
  - discriminate.
Qed.

End Invariants.

Lemma run_total (actions : list Pointer.Action) :
  forall s, exists s', Pointer.run actions s = Some s' /\ sameSetting s s'.
Proof.
  induction actions as [|a actions IH]; intros s.
  - exists s. repeat split.
  - cbn [Pointer.run].
    destruct (perform_total a s) as [s1 [H1 [Ho [Hw Hh]]]]. rewrite H1.
    destruct (IH s1) as [s' [H' [Ho' [Hw' Hh']]]].
    exists s'. split; [exact H'|]. unfold sameSetting. repeat split; congruence.
Qed.

(** X11.  [stopDrawing] never stores an empty stroke.  On a component where
    a gesture in progress has a point and every stored stroke has one, any
    series of pointer events, frame callbacks and calls of [undo] and
    [clear] (nothing being loaded with [fromData]) runs to its end and
    leaves a component of which the same is true. *)
Theorem run_stores_no_empty_stroke :
  forall (actions : list Pointer.Action) (s : Pointer.Session),
    nothingLoaded actions ->
    gestureSound s ->
    exists s',
      Pointer.run actions s = Some s' /\ gestureSound s'.
Proof.
  intros actions. unfold nothingLoaded.
  induction actions as [|a actions IH]; intros s Hnone Hs.
  - exists s. split; [reflexivity|exact Hs].
  - cbn [Pointer.run forallb] in *.
    apply andb_prop in Hnone. destruct Hnone as [Ha Hrest].
    destruct (perform_total a s) as [s1 [H1 _]]. rewrite H1.
    apply IH; [exact Hrest|].
    apply (perform_sound a s s1); [|exact H1|exact Hs].
    destruct (Pointer.isLoad a); [discriminate|reflexivity].
Qed.

Lemma run_stores_no_empty_stroke_witness :
  exists s',
    Pointer.run [Pointer.PointerDown (Fixtures.press 10 10 0);
                 Pointer.PointerMove (Fixtures.press 20 10 16);
                 Pointer.PointerUp (Fixtures.press 20 10 32)]
                Fixtures.blank = Some s'
    /\ gestureSound s'.
Proof.
  apply (run_stores_no_empty_stroke
           [Pointer.PointerDown (Fixtures.press 10 10 0);
            Pointer.PointerMove (Fixtures.press 20 10 16);
            Pointer.PointerUp (Fixtures.press 20 10 32)]
           Fixtures.blank).
  - reflexivity.
  - split; [discriminate|constructor].
Defined.

Section OnCanvas.

Import Pointer.

Lemma getCoordinates_onCanvas (s : Session) (i : Input) :
  penFits s -> onCanvas s (getCoordinates s i).
Proof.
  intros [Hw Hh]. unfold onCanvas, inRectangle, getCoordinates.
  cbn [x y].
  set (half := or_else (maxWidth (options (component s)))
                       (dotSize (options (component s))) / 2) in *.
  repeat split.
  - apply Rmax_l.
  - apply Rmax_lub; [exact Hw|apply Rmin_r].
  - apply Rmax_l.
  - apply Rmax_lub; [exact Hh|apply Rmin_r].
Qed.

Lemma onCanvas_same (s s' : Session) (p : Point) :
  sameSetting s s' -> onCanvas s p -> onCanvas s' p.
Proof.
  intros [Ho [Hw Hh]]. unfold onCanvas. rewrite Ho, Hw, Hh. tauto.
Qed.

Lemma Forall_onCanvas_same (s s' : Session) (pts : list Point) :
  sameSetting s s' -> Forall (onCanvas s) pts -> Forall (onCanvas s') pts.
Proof.
  intros Hsame. apply Forall_impl. intros p. apply onCanvas_same. exact Hsame.
Qed.

Lemma strokes_onCanvas_same (s s' : Session) (strokes : list Stroke) :
  sameSetting s s' ->
  Forall (fun stroke => Forall (onCanvas s) (points stroke)) strokes ->
  Forall (fun stroke => Forall (onCanvas s') (points stroke)) strokes.
Proof.
  intros Hsame. apply Forall_impl. intros stroke.
  apply Forall_onCanvas_same. exact Hsame.
Qed.

Lemma penFits_same (s s' : Session) :
  sameSetting s s' -> penFits s -> penFits s'.
Proof.
  intros [Ho [Hw Hh]]. unfold penFits. rewrite Ho, Hw, Hh. tauto.
Qed.

Lemma smoothingOff_same (s s' : Session) :
  sameSetting s s' -> smoothingOff s -> smoothingOff s'.
Proof.
  intros [Ho _]. unfold smoothingOff. rewrite Ho. tauto.
Qed.

(** [fromData] leaves the gesture as it is or empties it. *)
Lemma fromData_gesture (data : JsValue) (s s' : Session) :
  perform (CallFromData data) s = Some s' ->
  currentStroke (component s') = currentStroke (component s)
  \/ currentStroke (component s') = [].
Proof.
  cbn [perform]. unfold fromData. destruct (isArray data) as [elements|].
  - unfold clear.
    destruct (redrawCanvas_paints (resetState (component s))) as [ps Hps].
    rewrite Hps. cbn [bind].
    match goal with
    | |- context [redrawCanvas ?st0] =>
        destruct (redrawCanvas_paints st0) as [ps' Hps']; rewrite Hps'
    end.
    cbn [bind]. intros Hs'. injection Hs' as <-. right. reflexivity.
  - cbn [bind]. intros Hs'. injection Hs' as <-. left. reflexivity.
Qed.

(** Every point that a handler records is on the canvas. *)
Lemma perform_gesture_onCanvas (a : Action) (s s' : Session) :
  penFits s ->
  perform a s = Some s' ->
  Forall (onCanvas s) (currentStroke (component s)) ->
  Forall (onCanvas s') (currentStroke (component s')).
Proof.
  intros Hfits Hperform Hgesture.
  assert (Hsame : sameSetting s s').
  { destruct (perform_total a s) as [s1 [H1 Hs]].
    rewrite H1 in Hperform. injection Hperform as <-. exact Hs. }
  apply (Forall_onCanvas_same s); [exact Hsame|].
  pose proof (getCoordinates_onCanvas s) as Hnew.
  destruct a as [i|i|i| | | |data].
  - cbn [perform] in Hperform.
    destruct (startDrawing_effect i s) as [s1 [H [_ [_ [_ [_ Hcases]]]]]].
    rewrite H in Hperform. injection Hperform as <-.
    destruct Hcases as [->|[_ ->]]; [exact Hgesture|].
    constructor; [apply Hnew; exact Hfits|constructor].
  - cbn [perform] in Hperform.
    destruct (draw_effect i s) as [s1 [H [_ [_ [_ [Hcurrent _]]]]]].
    rewrite H in Hperform. injection Hperform as <-.
    destruct Hcurrent as [->| ->]; [exact Hgesture|].
    apply Forall_app. split; [exact Hgesture|].
    constructor; [apply Hnew; exact Hfits|constructor].
  - cbn [perform] in Hperform.
    destruct (stopDrawing_effect i s)
      as [s1 [H [_ [_ [_ [_ [Hidle [Hcleared _]]]]]]]].
    rewrite H in Hperform. injection Hperform as <-.
    destruct (isDrawing (component s)) eqn:Hdrawing.
    + rewrite Hcleared by reflexivity. constructor.
    + rewrite Hidle by reflexivity. exact Hgesture.
  - cbn [perform] in Hperform.
    destruct (frame_effect s) as [s1 [H [_ [_ [_ [Hcurrent _]]]]]].
    rewrite H in Hperform. injection Hperform as <-. rewrite Hcurrent.
    exact Hgesture.
  - destruct (undo_effect s) as [s1 [H [_ [_ [_ [Hcurrent _]]]]]].
    rewrite H in Hperform. injection Hperform as <-. rewrite Hcurrent.
    exact Hgesture.
  - destruct (clear_effect s) as [s1 [H [_ [_ [_ [Hcurrent _]]]]]].
    rewrite H in Hperform. injection Hperform as <-. rewrite Hcurrent.
    constructor.
  - destruct (fromData_gesture data s s' Hperform) as [-> | ->];
      [exact Hgesture|constructor].
Qed.

(** Without smoothing every stored point is a recorded point. *)
Lemma perform_onCanvas (a : Action) (s s' : Session) :
  isLoad a = false ->
  penFits s ->
  smoothingOff s ->
  perform a s = Some s' ->
  allOnCanvas s -> allOnCanvas s'.
Proof.
  intros Hload Hfits [Hratio Hfade] Hperform [Hgesture Hstored].
  assert (Hsame : sameSetting s s').
  { destruct (perform_total a s) as [s1 [H1 Hs]].
    rewrite H1 in Hperform. injection Hperform as <-. exact Hs. }
  split; [apply (perform_gesture_onCanvas a s s'); assumption|].
  apply (strokes_onCanvas_same s); [exact Hsame|].
  destruct a as [i|i|i| | | |data]; cbn [perform] in Hperform.
  - destruct (startDrawing_effect i s) as [s1 [H [_ [Hall _]]]].
    rewrite H in Hperform. injection Hperform as <-. rewrite Hall.
    exact Hstored.
  - destruct (draw_effect i s) as [s1 [H [_ [Hall _]]]].
    rewrite H in Hperform. injection Hperform as <-. rewrite Hall.
    exact Hstored.
  - destruct (stopDrawing_effect i s)
      as [s1 [H [_ [_ [_ [_ [_ [_ Hall]]]]]]]].
    rewrite H in Hperform. injection Hperform as <-.
    destruct Hall as [->|[stroke [-> [_ Hsimplify]]]]; [exact Hstored|].
    apply Forall_app. split; [exact Hstored|]. constructor; [|constructor].
    rewrite simplifyStroke_reference in Hsimplify. injection Hsimplify as <-.
    apply (subsequence_Forall _ _ _ (simplify_selects _ _ Hratio)).
    exact Hgesture.
  - destruct (frame_effect s) as [s1 [H [_ [Hall _]]]].
    rewrite H in Hperform. injection Hperform as <-. rewrite Hall.
    exact Hstored.
  - destruct (undo_effect s) as [s1 [H [_ [Hall _]]]].
    cbn [perform] in H. rewrite H in Hperform. injection Hperform as <-.
    rewrite Hall. apply Forall_removelast. exact Hstored.
  - destruct (clear_effect s) as [s1 [H [_ [Hall _]]]].
    cbn [perform] in H. rewrite H in Hperform. injection Hperform as <-.
    rewrite Hall. constructor.
  - discriminate.
Qed.

End OnCanvas.

(** X12.  Ink that is recorded is on the canvas.  When the pen fits the
    canvas, every point of the gesture in progress lies at least half a pen
    width inside the canvas after any series of pointer events, frames and
    calls of [undo], [clear] and [fromData].  With smoothing switched off
    ([smoothingRatio] 0 over a fade length that is not 0) the stored
    strokes hold recorded points only, so as long as nothing is loaded with
    [fromData] every point of every stored stroke lies there too. *)
Theorem run_keeps_ink_on_canvas :
  forall (actions : list Pointer.Action) (s s' : Pointer.Session),
    penFits s ->
    Pointer.run actions s = Some s' ->
    (Forall (onCanvas s) (currentStroke (Pointer.component s)) ->
     Forall (onCanvas s') (currentStroke (Pointer.component s')))
    /\ (smoothingOff s -> nothingLoaded actions ->
        allOnCanvas s -> allOnCanvas s').
Proof.
  intros actions. unfold nothingLoaded.
  induction actions as [|a actions IH]; intros s s' Hfits Hrun.
  - simpl in Hrun. injection Hrun as <-. split; [tauto|intros _ _; tauto].
  - cbn [Pointer.run forallb] in *.
    destruct (perform_total a s) as [s1 [H1 Hsame]]. rewrite H1 in Hrun.
    destruct (IH s1 s' (penFits_same s s1 Hsame Hfits) Hrun)
      as [Hgesture Hall].
    split.
    + intros Hon. apply Hgesture.
      apply (perform_gesture_onCanvas a s s1); assumption.
    + intros Hoff Hnone Hon.
      apply andb_prop in Hnone. destruct Hnone as [Ha Hrest].
      apply Hall; [apply (smoothingOff_same s); assumption|exact Hrest|].
      apply (perform_onCanvas a s s1); try assumption.
      destruct (Pointer.isLoad a); [discriminate|reflexivity].
Qed.

Lemma unsmoothed_penFits : penFits Fixtures.unsmoothed.
Proof.
  unfold penFits, Fixtures.unsmoothed, Fixtures.setOptionsOf.
  cbn [Pointer.component options Pointer.canvasWidth Pointer.canvasHeight].
  unfold or_else. cbn [Fixtures.unsmoothedOptions maxWidth dotSize].
  destruct (Req_dec_T (maxWidth defaultOptions) 0) as [Hzero|_];
    simpl in *; lra.
Qed.

Lemma run_keeps_ink_on_canvas_witness :
  exists s',
    Pointer.run [Pointer.PointerDown (Fixtures.press 10 10 0);
                 Pointer.PointerMove (Fixtures.press 400 (-3) 16);
                 Pointer.PointerUp (Fixtures.press 400 (-3) 32)]
                Fixtures.unsmoothed = Some s'
    /\ allOnCanvas s'.
Proof.
  destruct (run_total
              [Pointer.PointerDown (Fixtures.press 10 10 0);
               Pointer.PointerMove (Fixtures.press 400 (-3) 16);
               Pointer.PointerUp (Fixtures.press 400 (-3) 32)]
              Fixtures.unsmoothed) as [s' [Hrun _]].
  exists s'. split; [exact Hrun|].
  apply (proj2 (run_keeps_ink_on_canvas _ Fixtures.unsmoothed s'
                  unsmoothed_penFits Hrun)).
  - split; [reflexivity|simpl; lra].
  - reflexivity.
  - split; constructor.
Defined.

Section Frames.

Import Pointer.

Lemma perform_oneFrame (a : Action) (s s' : Session) :
  keepsCollection a = true ->
  perform a s = Some s' ->
  oneFrameAtMost s -> oneFrameAtMost s'.
Proof.
  intros Hkeeps Hperform Hone. unfold oneFrameAtMost in *.
  destruct a as [i|i|i| | | |data]; cbn [perform] in Hperform;
    try discriminate.
  - destruct (startDrawing_effect i s) as [s1 [H [_ [_ [Hflag [Hframes _]]]]]].
    rewrite H in Hperform. injection Hperform as <-.
    rewrite Hflag, Hframes. exact Hone.
  - destruct (draw_effect i s) as [s1 [H [_ [_ [_ [_ [_ Hcases]]]]]]].
    rewrite H in Hperform. injection Hperform as <-.
    destruct Hcases as [[Hflag Hframes]|[Hoff [Hon Hframes]]];
      [rewrite Hflag, Hframes; exact Hone|].
    rewrite Hon, Hframes, Hone, Hoff. reflexivity.
  - destruct (stopDrawing_effect i s) as [s1 [H [_ [Hflag [Hframes _]]]]].
    rewrite H in Hperform. injection Hperform as <-.
    rewrite Hflag, Hframes. exact Hone.
  - destruct (frame_effect s) as [s1 [H [_ [_ [_ [_ Hcases]]]]]].
    rewrite H in Hperform. injection Hperform as <-.
    destruct Hcases as [[-> _]|[Hoff Hframes]]; [exact Hone|].
    rewrite Hoff. rewrite Hframes in Hone.
    destruct (drawing (component s)); [lia|discriminate].
  - destruct (undo_effect s) as [s1 [H [_ [_ [_ [_ [Hflag Hframes]]]]]]].
    cbn [perform] in H. rewrite H in Hperform. injection Hperform as <-.
    rewrite Hflag, Hframes. exact Hone.
Qed.

End Frames.

(** X13.  Redraws while drawing are coalesced.  As long as neither [clear]
    nor [fromData] is called, the number of frame callbacks that are
    waiting is 1 when the flag [#drawing] is set and 0 when it is not:
    however many pointer moves arrive between two frames, at most one
    redraw is waiting. *)
Theorem run_requests_one_frame_at_most :
  forall (actions : list Pointer.Action) (s s' : Pointer.Session),
    forallb Pointer.keepsCollection actions = true ->
    oneFrameAtMost s ->
    Pointer.run actions s = Some s' ->
    oneFrameAtMost s' /\ (Pointer.frames s' <= 1)%nat.
Proof.
  intros actions. induction actions as [|a actions IH];
    intros s s' Hkeeps Hone Hrun.
  - simpl in Hrun. injection Hrun as <-. split; [exact Hone|].
    unfold oneFrameAtMost in Hone. rewrite Hone.
    destruct (drawing _); lia.
  - cbn [Pointer.run forallb] in *.
    apply andb_prop in Hkeeps. destruct Hkeeps as [Ha Hrest].
    destruct (Pointer.perform a s) as [s1|] eqn:H1; [|discriminate].
    apply (IH s1 s' Hrest); [|exact Hrun].
    apply (perform_oneFrame a s s1); assumption.
Qed.

Lemma run_requests_one_frame_at_most_witness :
  exists s',
    Pointer.run [Pointer.PointerDown (Fixtures.press 10 10 0);
                 Pointer.PointerMove (Fixtures.press 20 10 5);
                 Pointer.PointerMove (Fixtures.press 30 10 9);
                 Pointer.PointerMove (Fixtures.press 40 10 13)]
                Fixtures.blank = Some s'
    /\ (Pointer.frames s' <= 1)%nat.
Proof.
  destruct (run_total
              [Pointer.PointerDown (Fixtures.press 10 10 0);
               Pointer.PointerMove (Fixtures.press 20 10 5);
               Pointer.PointerMove (Fixtures.press 30 10 9);
               Pointer.PointerMove (Fixtures.press 40 10 13)]
              Fixtures.blank) as [s' [Hrun _]].
  exists s'. split; [exact Hrun|].
  refine (proj2 (run_requests_one_frame_at_most _ Fixtures.blank s' _ _ Hrun));
    reflexivity.
Defined.

(** X14.  Finishing a gesture and undoing it is a round trip on the
    collection.  A pointer-up during a gesture stores exactly one stroke at
    the end of the collection (the simplified gesture, with the pen colour
    and the widths of the options at that moment) and announces it;
    [undo] right after it gives back the collection as it was, with no
    gesture in progress. *)
Theorem finish_then_undo :
  forall (i : Pointer.Input) (s : Pointer.Session),
    isDrawing (Pointer.component s) = true ->
    currentStroke (Pointer.component s) <> [] ->
    exists stroke s1 s2,
      Pointer.perform (Pointer.PointerUp i) s = Some s1
      /\ allStrokes (Pointer.component s1)
         = allStrokes (Pointer.component s) ++ [stroke]
      /\ simplifyStroke (options (Pointer.component s))
                        (currentStroke (Pointer.component s))
         = Some (points stroke)
      /\ color stroke = penColor (options (Pointer.component s))
      /\ strokeMinWidth stroke = minWidth (options (Pointer.component s))
      /\ strokeMaxWidth stroke = maxWidth (options (Pointer.component s))
      /\ Pointer.drawEvents s1
         = Pointer.drawEvents s ++ [Pointer.EvDrawEnd stroke]
      /\ Pointer.perform Pointer.CallUndo s1 = Some s2
      /\ allStrokes (Pointer.component s2) = allStrokes (Pointer.component s)
      /\ isDrawing (Pointer.component s2) = false
      /\ currentStroke (Pointer.component s2) = [].
Proof.
  intros i s Hdrawing Hpoints.
  destruct (stopDrawing_finishes i s Hdrawing Hpoints)
    as [stroke [st' [Hstop [Hsimplify [Hcolor [Hmin [Hmax [Hall [Hoff [Hcur _]]]]]]]]]].
  set (s1 := Pointer.withComponent st'
               (Pointer.announce (Pointer.EvDrawEnd stroke) s)).
  destruct (undo_effect s1) as [s2 [Hundo [_ [Hall2 [Hoff2 [Hcur2 _]]]]]].
  exists stroke, s1, s2.
  split; [exact Hstop|]. split; [exact Hall|]. split; [exact Hsimplify|].
  split; [exact Hcolor|]. split; [exact Hmin|]. split; [exact Hmax|].
  split; [reflexivity|]. split; [exact Hundo|].
  rewrite Hall2, Hoff2, Hcur2. unfold s1.
  cbn [Pointer.withComponent Pointer.component].
  rewrite Hall, removelast_last. repeat split; assumption.
Qed.

Lemma finish_then_undo_witness :
  exists stroke s1 s2,
    Pointer.perform (Pointer.PointerUp (Fixtures.press 20 10 32))
      (Pointer.withComponent
         (Pointer.setCurrentStroke [Samples.onAxis 10 0]
            (Pointer.setIsDrawing true (Pointer.component Fixtures.blank)))
         Fixtures.blank) = Some s1
    /\ allStrokes (Pointer.component s1) = [] ++ [stroke]
    /\ Pointer.perform Pointer.CallUndo s1 = Some s2
    /\ allStrokes (Pointer.component s2) = [].
Proof.
  destruct (finish_then_undo (Fixtures.press 20 10 32)
              (Pointer.withComponent
                 (Pointer.setCurrentStroke [Samples.onAxis 10 0]
                    (Pointer.setIsDrawing true
                       (Pointer.component Fixtures.blank)))
                 Fixtures.blank))
    as [stroke [s1 [s2 [Hup [Hall [_ [_ [_ [_ [_ [Hundo [Hback _]]]]]]]]]]]].
  - reflexivity.
  - discriminate.
  - exists stroke, s1, s2. repeat split; assumption.
Defined.

(** X15.  A tap leaves a dot.  On a component with no gesture in progress,
    a pointer-down with the primary button followed by a pointer-up stores
    one stroke of a single point: the pointer-down position clamped to the
    canvas.  Where the pointer-up happens plays no role. *)
Theorem tap_stores_a_dot :
  forall (down up : Pointer.Input) (s : Pointer.Session),
    Pointer.button down = 0%Z ->
    exists s',
      Pointer.run [Pointer.PointerDown down; Pointer.PointerUp up] s = Some s'
      /\ allStrokes (Pointer.component s')
         = allStrokes (Pointer.component s)
           ++ [{| points := [Pointer.getCoordinates s down];
                  color := penColor (options (Pointer.component s));
                  strokeMinWidth := minWidth (options (Pointer.component s));
                  strokeMaxWidth := maxWidth (options (Pointer.component s)) |}]
      /\ isDrawing (Pointer.component s') = false
      /\ currentStroke (Pointer.component s') = [].
Proof.
  intros down up s Hbutton.
  cbn [Pointer.run Pointer.perform]. unfold Pointer.startDrawing.
  rewrite Hbutton. cbn [Z.eqb negb].
  set (s1 := Pointer.announce Pointer.EvDrawStart _).
  destruct (stopDrawing_finishes up s1)
    as [stroke [st' [Hstop [Hsimplify [Hcolor [Hmin [Hmax [Hall [Hoff [Hcur _]]]]]]]]]];
    [reflexivity|discriminate|].
  rewrite Hstop. eexists. split; [reflexivity|].
  cbn [Pointer.withComponent Pointer.component].
  split; [|split; assumption].
  rewrite Hall. unfold s1.
  cbn [Pointer.announce Pointer.withComponent Pointer.component
       Pointer.setCurrentStroke Pointer.setIsDrawing allStrokes].
  f_equal. f_equal.
  unfold s1 in Hsimplify, Hcolor, Hmin, Hmax.
  cbn [Pointer.announce Pointer.withComponent Pointer.component
       Pointer.setCurrentStroke Pointer.setIsDrawing options currentStroke]
    in Hsimplify, Hcolor, Hmin, Hmax.
  cbn in Hsimplify. injection Hsimplify as Hpts.
  destruct stroke as [pts c a b]. cbn in *. congruence.
Qed.

Lemma tap_stores_a_dot_witness :
  exists s',
    Pointer.run [Pointer.PointerDown (Fixtures.press 10 10 0);
                 Pointer.PointerUp (Fixtures.press 90 90 40)]
                Fixtures.blank = Some s'
    /\ length (allStrokes (Pointer.component s')) = 1%nat.
Proof.
  destruct (tap_stores_a_dot (Fixtures.press 10 10 0) (Fixtures.press 90 90 40)
              Fixtures.blank eq_refl) as [s' [Hrun [Hall _]]].
  exists s'. split; [exact Hrun|]. rewrite Hall. reflexivity.
Defined.

(** X16.  [clear] in the middle of a gesture discards the gesture: after
    it, pointer moves and the pointer-up change nothing at all, so no
    stroke is stored, until the next pointer-down. *)
Theorem clear_discards_the_gesture :
  forall (s s1 : Pointer.Session) (moves : list Pointer.Input)
         (up : Pointer.Input),
    Pointer.perform Pointer.CallClear s = Some s1 ->
    allStrokes (Pointer.component s1) = []
    /\ Pointer.run (map Pointer.PointerMove moves ++ [Pointer.PointerUp up]) s1
       = Some s1.
Proof.
  intros s s1 moves up Hclear.
  destruct (clear_effect s) as [s' [H [_ [Hall [Hoff _]]]]].
  rewrite H in Hclear. injection Hclear as <-.
  split; [exact Hall|].
  induction moves as [|m moves IH].
  - cbn [map app Pointer.run Pointer.perform].
    unfold Pointer.stopDrawing. rewrite Hoff. reflexivity.
  - cbn [map app Pointer.run Pointer.perform].
    unfold Pointer.draw. rewrite Hoff. cbn [negb]. exact IH.
Qed.

Lemma clear_discards_the_gesture_witness :
  exists s1,
    Pointer.perform Pointer.CallClear Fixtures.blank = Some s1
    /\ Pointer.run (map Pointer.PointerMove [Fixtures.press 20 10 5]
                    ++ [Pointer.PointerUp (Fixtures.press 20 10 9)]) s1
       = Some s1.
Proof.
  destruct (clear_effect Fixtures.blank) as [s1 [Hclear _]].
  exists s1. split; [exact Hclear|].
  apply (clear_discards_the_gesture Fixtures.blank s1
           [Fixtures.press 20 10 5] (Fixtures.press 20 10 9) Hclear).
Defined.

Lemma simplify_same_pressure (opts : Options) (c : R) (pts : list Point) :
  Forall (fun p => pressure p = Some c) pts ->
  Forall (fun p => pressure p = Some c) (Reference.simplify opts pts).
Proof.
  intros Hpts.
  assert (Hstamps : forall l,
             Forall (fun p => pressure p = Some c) l
             <-> Forall (fun st : Z * option R => snd st = Some c) (map stamp l)).
  { intros l. rewrite Forall_map. reflexivity. }
  apply Hstamps.
  apply (subsequence_Forall _ _ _ (simplify_stamps opts pts)).
  apply Hstamps. exact Hpts.
Qed.

(** X17.  With [pressureSupport] on, a device that reports no pressure gets
    no velocity widths.  [#getCoordinates] records the pressure 0.5 for every
    event whose pressure is not positive; the stored stroke keeps it at
    every point, which puts the Width Modulator in pressure mode, and every
    point is drawn at the same width, half way between [minWidth] and
    [maxWidth], however fast the pointer moved. *)
Theorem pressureless_device_constant_width :
  forall (s : Pointer.Session) (inputs : list Pointer.Input) (minW maxW : R),
    pressureSupport (options (Pointer.component s)) = true ->
    inputs <> [] ->
    Forall (fun i => Pointer.eventPressure i <= 0) inputs ->
    exists stored,
      simplifyStroke (options (Pointer.component s))
                     (map (Pointer.getCoordinates s) inputs) = Some stored
      /\ stored <> []
      /\ usePressure (options (Pointer.component s)) stored = true
      /\ calculateWidths (options (Pointer.component s)) stored minW maxW
         = Some (map (fun _ => Num (minW + (maxW - minW) * (5 / 10))) stored).
Proof.
  intros s inputs minW maxW Hsupport Hsome Hquiet.
  set (opts := options (Pointer.component s)) in *.
  set (raw := map (Pointer.getCoordinates s) inputs).
  assert (Hraw : Forall (fun p => pressure p = Some (5 / 10)) raw).
  { unfold raw. rewrite Forall_map. revert Hquiet. apply Forall_impl.
    intros i Hi. unfold Pointer.getCoordinates. cbn [pressure].
    destruct (Rgt_dec (Pointer.eventPressure i) 0); [lra|reflexivity]. }
  pose proof (simplify_same_pressure opts _ raw Hraw) as Hstored.
  exists (Reference.simplify opts raw).
  split; [apply simplifyStroke_reference|].
  assert (Hne : Reference.simplify opts raw <> []).
  { unfold raw. destruct inputs as [|i inputs]; [congruence|]. cbn [map].
    destruct (simplify_first opts (Pointer.getCoordinates s i)
                (map (Pointer.getCoordinates s) inputs)) as [tail ->].
    discriminate. }
  split; [exact Hne|].
  assert (Hmode : usePressure opts (Reference.simplify opts raw) = true).
  { apply usePressure_spec. split; [exact Hsupport|].
    destruct (Reference.simplify opts raw) as [|p out]; [congruence|].
    exists p, (5 / 10). split; [left; reflexivity|].
    inversion Hstored; subst. split; [assumption|lra]. }
  split; [exact Hmode|].
  unfold calculateWidths.
  rewrite (calculateWidths_pressure opts minW maxW Rdiv _ Hmode).
  f_equal. apply map_ext_in. intros p Hin.
  rewrite Forall_forall in Hstored. unfold Reference.pressureWidth.
  rewrite (Hstored p Hin). reflexivity.
Qed.

Lemma pressureless_device_constant_width_witness :
  exists stored,
    simplifyStroke Samples.pressureOptions
      (map (Pointer.getCoordinates
              (Pointer.withComponent
                 (Fixtures.setOptionsOf Samples.pressureOptions) Fixtures.blank))
           [Fixtures.press 10 10 0; Fixtures.press 20 10 16]) = Some stored
    /\ stored <> [].
Proof.
  destruct (pressureless_device_constant_width
              (Pointer.withComponent
                 (Fixtures.setOptionsOf Samples.pressureOptions) Fixtures.blank)
              [Fixtures.press 10 10 0; Fixtures.press 20 10 16] 1 2)
    as [stored [Hstored [Hne _]]].
  - reflexivity.
  - discriminate.
  - repeat constructor; simpl; lra.
  - exists stored. split; [exact Hstored|exact Hne].
Defined.

(** ** Listeners *)

Section EmitterFacts.

Variable Callback : Type.
Variable inherited : string -> bool.

Lemma register_own (calls : list (string * Callback)) :
  forall ls : Emitter.Listeners Callback,
    Forall (fun c => inherited (fst c) = false) calls ->
    exists ls',
      Emitter.register Callback inherited calls ls = Some ls'
      /\ forall eventName,
           ls' eventName
           = match Emitter.callbacksFor Callback eventName calls with
             | [] => ls eventName
             | added =>
                 Some (match ls eventName with
                       | Some before => before
                       | None => []
                       end ++ added)
             end.
Proof.
  induction calls as [|[name cb] calls IH]; intros ls Hown.
  - exists ls. split; [reflexivity|]. intros eventName. reflexivity.
  - inversion Hown as [|? ? Hname Hrest]; subst. cbn [fst] in Hname.
    cbn [Emitter.register]. unfold Emitter.on at 1. rewrite Hname.
    set (ls1 := Emitter.store Callback name
                  (match ls name with Some l => l | None => [] end ++ [cb]) ls).
    assert (Hon : match ls name with
                  | Some callbacks =>
                      Some (Emitter.store Callback name (callbacks ++ [cb]) ls)
                  | None => Some (Emitter.store Callback name ([] ++ [cb]) ls)
                  end = Some ls1).
    { unfold ls1. destruct (ls name); reflexivity. }
    rewrite Hon. destruct (IH ls1 Hrest) as [ls' [Hreg Hls']].
    exists ls'. split; [exact Hreg|].
    intros eventName. rewrite Hls'. unfold Emitter.callbacksFor.
    cbn [filter fst]. unfold ls1, Emitter.store.
    rewrite (String.eqb_sym eventName name).
    destruct (String.eqb name eventName) eqn:Hsame.
    + apply String.eqb_eq in Hsame. subst eventName. cbn [map snd].
      destruct (map snd (filter _ calls)) as [|c added].
      * reflexivity.
      * rewrite <- app_assoc. reflexivity.
    + reflexivity.
Qed.

End EmitterFacts.

(** X18.  Listeners are called in the order they were added, once for each
    time they were added.  After any series of [on] calls under event names
    that the listener object does not inherit, emitting an event calls
    exactly the callbacks added under its name, in the order of the [on]
    calls, and emitting an event nobody listens to calls nothing.  Under an
    inherited name ([toString], [constructor], ...) with no listener of its
    own, both [on] and [#emit] end abruptly. *)
Theorem listeners_called_in_order :
  forall (Callback : Type) (inherited : string -> bool)
         (calls : list (string * Callback)) (eventName : string),
    (Forall (fun c => inherited (fst c) = false) calls ->
     inherited eventName = false ->
     exists ls,
       Emitter.register Callback inherited calls (Emitter.noListeners Callback)
       = Some ls
       /\ Emitter.emitTo Callback inherited eventName ls
          = Some (map snd
                    (filter (fun c => String.eqb (fst c) eventName) calls)))
    /\ (inherited eventName = true ->
        forall cb,
          Emitter.on Callback inherited eventName cb
                     (Emitter.noListeners Callback) = None
          /\ Emitter.emitTo Callback inherited eventName
                            (Emitter.noListeners Callback) = None).
Proof.
  intros Callback inherited calls eventName. split.
  - intros Hown Hname.
    destruct (register_own Callback inherited calls
                (Emitter.noListeners Callback) Hown) as [ls [Hreg Hls]].
    exists ls. split; [exact Hreg|].
    unfold Emitter.emitTo. rewrite Hls. unfold Emitter.callbacksFor.
    destruct (map snd (filter _ calls)) as [|c added].
    + unfold Emitter.noListeners. rewrite Hname. reflexivity.
    + reflexivity.
  - intros Hname cb. unfold Emitter.on, Emitter.emitTo, Emitter.noListeners.
    rewrite Hname. split; reflexivity.
Qed.

Lemma listeners_called_in_order_witness :
  exists ls,
    Emitter.register nat (fun _ => false)
      [("undo"%string, 1%nat); ("clear"%string, 2%nat); ("undo"%string, 3%nat)]
      (Emitter.noListeners nat) = Some ls
    /\ Emitter.emitTo nat (fun _ => false) "undo" ls = Some [1%nat; 3%nat].
Proof.
  apply (proj1 (listeners_called_in_order nat (fun _ => false)
                  [("undo"%string, 1%nat); ("clear"%string, 2%nat);
                   ("undo"%string, 3%nat)] "undo")).
  - repeat constructor.
  - reflexivity.
Defined.

(** ** The Centerline Renderer *)

Section RasterFacts.

Import Raster.

Variable pts : list Point.
Variable widths : list jsnum.








End RasterFacts.




(** ** Live preview *)

(** X23.  In the smoothing mode [live], what is seen is what is stored.
    Each redraw during a gesture paints the stored strokes over the
    background and then, last, the gesture in progress simplified as
    [stopDrawing] would simplify it: the stroke that a pointer-up stores at
    that moment has the points, the colour and the widths of that last
    painted stroke. *)
Theorem live_preview_is_the_stored_stroke :
  forall (i : Pointer.Input) (s : Pointer.Session),
    smoothingMode (options (Pointer.component s)) = live ->
    isDrawing (Pointer.component s) = true ->
    currentStroke (Pointer.component s) <> [] ->
    exists stroke st' s1,
      redrawCanvas (Pointer.component s) = Some st'
      /\ surface st'
         = surface (Pointer.component s)
           ++ [FillBackground (backgroundColor (options (Pointer.component s)))]
           ++ map (fun stored =>
                     DrawStroke (points stored) (color stored)
                                (strokeMinWidth stored) (strokeMaxWidth stored))
                  (allStrokes (Pointer.component s))
           ++ [DrawStroke (points stroke) (color stroke)
                          (strokeMinWidth stroke) (strokeMaxWidth stroke)]
      /\ Pointer.stopDrawing i s = Some s1
      /\ allStrokes (Pointer.component s1)
         = allStrokes (Pointer.component s) ++ [stroke].
Proof.
  intros i s Hlive Hdrawing Hpoints.
  destruct (stopDrawing_finishes i s Hdrawing Hpoints)
    as [stroke [st1 [Hstop [Hsimplify [Hcolor [Hmin [Hmax [Hall _]]]]]]]].
  exists stroke.
  unfold redrawCanvas. rewrite Hdrawing, Hlive. cbn [isLive andb].
  destruct (currentStroke (Pointer.component s)) as [|p rest] eqn:Hcurrent;
    [congruence|].
  assert (Hchoice :
            (if (1 <? length (p :: rest))%nat
             then simplifyStroke (options (Pointer.component s)) (p :: rest)
             else Some (p :: rest)) = Some (points stroke)).
  { destruct rest as [|q rest]; [|exact Hsimplify].
    cbn [length Nat.ltb Nat.leb]. rewrite <- Hsimplify. reflexivity. }
  replace (0 <? length (p :: rest))%nat with true by reflexivity.
  rewrite Hchoice. cbn [bind].
  eexists _, _. split; [reflexivity|].
  cbn [paint surface]. rewrite Hcolor, Hmin, Hmax.
  split; [reflexivity|]. split; [exact Hstop|exact Hall].
Qed.

Lemma live_preview_is_the_stored_stroke_witness :
  exists stroke st' s1,
    redrawCanvas (Fixtures.liveGesture) = Some st'
    /\ Pointer.stopDrawing (Fixtures.press 20 10 32)
         (Pointer.withComponent Fixtures.liveGesture Fixtures.blank) = Some s1
    /\ allStrokes (Pointer.component s1) = [] ++ [stroke].
Proof.
  destruct (live_preview_is_the_stored_stroke (Fixtures.press 20 10 32)
              (Pointer.withComponent Fixtures.liveGesture Fixtures.blank))
    as [stroke [st' [s1 [Hredraw [_ [Hstop Hall]]]]]].
  - reflexivity.
  - reflexivity.
  - discriminate.
  - exists stroke, st', s1. repeat split; assumption.
Defined.

(** ** The collection as a shared array *)

Lemma fromData_array_loaded (content : list Stroke) (st : State) :
  exists st',
    fromData (JsArray content) st = Some st' /\ allStrokes st' = content.
Proof.
  unfold fromData, clear. cbn [isArray].
  destruct (redrawCanvas_paints (resetState st)) as [ps Hps].
  rewrite Hps. cbn [bind].
  match goal with
  | |- context [redrawCanvas ?st0] =>
      destruct (redrawCanvas_paints st0) as [ps' Hps']; rewrite Hps'
  end.
  cbn [bind]. eexists. split; reflexivity.
Qed.

Section SharedFacts.

Import Shared.

Lemma overwrite_length (l : list (list Stroke)) :
  forall n a, length (overwrite l n a) = length l.
Proof.
  induction l as [|b l IH]; intros [|n] a; simpl; try reflexivity.
  rewrite IH. reflexivity.
Qed.

Lemma overwrite_here (l : list (list Stroke)) :
  forall n a, (n < length l)%nat -> nth_error (overwrite l n a) n = Some a.
Proof.
  induction l as [|b l IH]; intros [|n] a Hn; simpl in *; try lia.
  - reflexivity.
  - apply IH. lia.
Qed.

Lemma overwrite_elsewhere (l : list (list Stroke)) :
  forall n m a, n <> m -> nth_error (overwrite l n a) m = nth_error l m.
Proof.
  induction l as [|b l IH]; intros [|n] [|m] a Hnm; simpl; try reflexivity.
  - congruence.
  - apply IH. congruence.
Qed.

End SharedFacts.

(** X24.  [fromData] keeps the array it is given, [toData] gives a new
    one.  After [fromData(data)] the component works on the caller's array:
    an [undo] takes the last stroke out of that very array.  The array that
    [toData] returns is a copy: an [undo] after it leaves the copy as it
    was. *)
Theorem fromData_shares_toData_copies :
  forall (w : Shared.World) (reference : nat) (content : list Stroke),
    nth_error (Shared.arrays w) reference = Some content ->
    exists w1,
      Shared.fromDataShared (Some reference) w = Some w1
      /\ Shared.held w1 = reference
      /\ Shared.consistent w1
      /\ (exists removed w2,
             Shared.undoShared w1 = Some (removed, w2)
             /\ nth_error (Shared.arrays w2) reference
                = Some (removelast content))
      /\ (let copy := fst (Shared.toDataShared w1) in
          exists removed w3,
            Shared.undoShared (snd (Shared.toDataShared w1))
            = Some (removed, w3)
            /\ nth_error (Shared.arrays w3) copy = Some content
            /\ allStrokes (Shared.private w3) = removelast content).
Proof.
  intros w reference content Hcontent.
  assert (Hbound : (reference < length (Shared.arrays w))%nat).
  { apply nth_error_Some. congruence. }
  destruct (fromData_array_loaded content (Shared.private w))
    as [st [Hload Hall]].
  unfold Shared.fromDataShared. rewrite Hcontent. cbn [bind].
  rewrite Hload. cbn [bind]. eexists. split; [reflexivity|].
  split; [reflexivity|].
  split.
  { unfold Shared.consistent. cbn [Shared.arrays Shared.held Shared.private].
    rewrite nth_error_app1 by exact Hbound. rewrite Hall. exact Hcontent. }
  destruct (undo_removes_last_stroke_cases st) as [r [Hundo [_ [Hpop _]]]].
  split.
  - exists (fst r). eexists. unfold Shared.undoShared.
    cbn [Shared.private Shared.arrays Shared.held]. rewrite Hundo. cbn [bind].
    split; [reflexivity|]. cbn [Shared.arrays].
    rewrite overwrite_here by (rewrite length_app; lia).
    rewrite Hpop, Hall. reflexivity.
  - cbn [Shared.toDataShared fst snd Shared.arrays].
    exists (fst r). eexists. unfold Shared.undoShared.
    cbn [Shared.private Shared.arrays Shared.held]. rewrite Hundo. cbn [bind].
    split; [reflexivity|]. cbn [Shared.arrays Shared.private].
    split.
    + rewrite overwrite_elsewhere by (rewrite length_app; simpl; lia).
      rewrite nth_error_app2 by lia. rewrite Nat.sub_diag.
      unfold toData. rewrite Hall. reflexivity.
    + rewrite Hpop, Hall. reflexivity.
Qed.

Lemma fromData_shares_toData_copies_witness :
  exists w1,
    Shared.fromDataShared (Some 0%nat)
      {| Shared.arrays := [[Samples.dash; Samples.dash]; []];
         Shared.held := 1;
         Shared.private := Fixtures.setOptionsOf defaultOptions |} = Some w1
    /\ Shared.held w1 = 0%nat.
Proof.
  destruct (fromData_shares_toData_copies
              {| Shared.arrays := [[Samples.dash; Samples.dash]; []];
                 Shared.held := 1;
                 Shared.private := Fixtures.setOptionsOf defaultOptions |}
              0%nat [Samples.dash; Samples.dash] eq_refl)
    as [w1 [Hload [Hheld _]]].
  exists w1. split; [exact Hload|exact Hheld].
Defined.
